(** * The input-format analyzer of onlinejudge_template

    A shallow embedding of [onlinejudge_template/analyzer/__init__.py]:
    the lexer rules of [build_lexer], the grammar and reduction actions of
    [build_parser], and the tree transformations [list_used_names],
    [zip_nodes], [exnted_loop_node] and [analyze], followed by the
    properties of these functions that the specification states. *)

From Stdlib Require Import ZArith NArith Ascii String List Bool Lia.
From Stdlib Require Import DecimalString DecimalFacts DecimalPos DecimalN.
From stdpp Require Import base decidable option list gmap strings.

Local Open Scope string_scope.

(** ** Exceptions and results

    Every exception class that can leave the analyzer.  [LexerError],
    [ParserError] and [SyntaxError] are the three classes declared in the
    module; the remaining ones are Python's own ([AssertionError] from an
    [assert], [AttributeError] and [TypeError] from actions that touch a
    value of the wrong type) and [EngineError], which stands for whatever
    exception the symbolic engine raises on a string it cannot parse.
    [OutOfFuel] is no exception of the program: the loops of the source
    are functions with a step bound here, and [OutOfFuel] reports that the
    bound was too small. *)

Inductive token_type : Type :=
  | NEWLINE | IDENT | NUMBER | UNDERSCORE | LBRACE | RBRACE | COMMA
  | ADD | SUB | MUL | DIV | VDOTS | DOTS.

(** The arguments of [LexerError]'s message are the three values that
    [t_error] formats: [t.value[0]] (a code point), [t.lineno] and
    [t.lexpos].  [ParserError] carries the four values [p_error] formats.
    The message of [SyntaxError] (a rendering of the two trees) is not
    kept. *)
Inductive exn : Type :=
  | LexerError (character : N) (line : Z) (column : Z)
  | ParserError (type : token_type) (value : string) (line : Z) (column : Z)
  | SyntaxError
  | EngineError
  | AssertionError
  | AttributeError
  | TypeError
  | OutOfFuel.

Inductive outcome (A : Type) : Type :=
  | Ok (a : A)
  | Raise (e : exn).
Arguments Ok {A} a.
Arguments Raise {A} e.

(** Sequencing: an exception raised by the first computation skips the
    rest, as in Python.  [x ← m; k] is stdpp's notation for [mbind]. *)
#[global] Instance outcome_bind : MBind outcome := λ A B k m,
  match m with
  | Ok a => k a
  | Raise e => Raise e
  end.

(** ** The abstract format tree *)

(** Modelled from the spec: the node classes of [onlinejudge_template.types]
    ([ItemNode], [NewlineNode], [SequenceNode], [LoopNode]), which the
    analyzer imports and builds with the keyword arguments [name],
    [indices], [items], [size], [body]. *)
#[warnings="-register-all"]
Inductive FormatNode : Type :=
  | ItemNode (name : string) (indices : list string)
  | NewlineNode
  | SequenceNode (items : list FormatNode)
  | LoopNode (size : string) (name : string) (body : FormatNode).

(** The induction principle that descends into the items of a sequence. *)
Section FormatNode_ind.
Variable P : FormatNode → Prop.
Hypothesis HItem : ∀ name indices, P (ItemNode name indices).
Hypothesis HNewline : P NewlineNode.
Hypothesis HSequence : ∀ items, Forall P items → P (SequenceNode items).
Hypothesis HLoop : ∀ size name body, P body → P (LoopNode size name body).

Fixpoint FormatNode_ind' (t : FormatNode) : P t :=
  match t with
  | ItemNode name indices => HItem name indices
  | NewlineNode => HNewline
  | SequenceNode items =>
      HSequence items
        ((fix go (l : list FormatNode) : Forall P l :=
            match l with
            | [] => @List.Forall_nil _ P
            | x :: l' => @List.Forall_cons _ P x l' (FormatNode_ind' x) (go l')
            end) items)
  | LoopNode size name body => HLoop size name body (FormatNode_ind' body)
  end.
End FormatNode_ind.

(** ** The concrete parse tree

    The four classes derived from [ParserNode].  Their [line] and [column]
    attributes are written by the parser and read by [__repr__] only; no
    function of the analyzer looks at them, and they are left out.  The
    [indices] of an item are [None] when the reduction that builds them
    assigns nothing to [p[0]] (see [p_exprs]). *)
#[warnings="-register-all"]
Inductive ParserNode : Type :=
  | SequenceParserNode (items : list ParserNode)
  | NewlineParserNode
  | ItemParserNode (name : string) (indices : option (list string))
  | DotsParserNode (first last : ParserNode).

(** ** The lexer

    The input text is a Python [str]: a list of code points.  A token has
    the four attributes of ply's [LexToken]. *)

Definition text : Type := list N.

Definition text_of_string (s : string) : text :=
  N_of_ascii <$> list_ascii_of_string s.

(** The line feed, ["\n"] in Python. *)
Definition newline : string := String "010" EmptyString.

Record LexToken : Type := mkToken {
  tok_type : token_type;
  tok_value : string;
  tok_lineno : Z;
  tok_lexpos : Z;
}.

Module Lex.

(** A rule answers with the matched text and its length in code points. *)
Definition matcher : Type := text → option (string * nat).

Definition is_letter (c : N) : bool :=
  (((65 <=? c) && (c <=? 90)) || ((97 <=? c) && (c <=? 122)))%N.
Definition is_digit (c : N) : bool := ((48 <=? c) && (c <=? 57))%N.

Definition string_of_text (s : text) : string :=
  string_of_list_ascii (ascii_of_N <$> s).

Fixpoint starts_with (lit s : text) : bool :=
  match lit, s with
  | [], _ => true
  | a :: lit', b :: s' => (a =? b)%N && starts_with lit' s'
  | _ :: _, [] => false
  end.

Fixpoint take_while (class : N → bool) (s : text) : text :=
  match s with
  | c :: s' => if class c then c :: take_while class s' else []
  | [] => []
  end.

(** A literal of ASCII characters. *)
Definition lit (l : string) : matcher := λ s,
  if starts_with (text_of_string l) s then Some (l, String.length l)
  else None.

(** One code point [c], whose spelling as a string value is [v]. *)
Definition chr (c : N) (v : string) : matcher := λ s,
  match s with
  | c' :: _ => if (c =? c')%N then Some (v, 1%nat) else None
  | [] => None
  end.

(** [r1|r2]: the first alternative that matches. *)
Definition alt (r1 r2 : matcher) : matcher := λ s,
  match r1 s with
  | Some m => Some m
  | None => r2 s
  end.

(** [[...]+]: the longest non-empty run of characters of a class. *)
Definition many1 (class : N → bool) : matcher := λ s,
  match take_while class s with
  | [] => None
  | run => Some (string_of_text run, length run)
  end.

(** [\.\.\.*]: two dots and every dot that follows. *)
Definition dots_run : matcher := λ s,
  match s with
  | 46%N :: 46%N :: s' =>
      let run := take_while (N.eqb 46) s' in
      Some (string_of_text (46%N :: 46%N :: run), (2 + length run)%nat)
  | _ => None
  end.

Definition t_NEWLINE : matcher :=
  alt (lit (String "013" (String "010" ""))) (lit (String "010" "")).
Definition t_tex_space : matcher :=
  alt (lit "\ ") (alt (lit "\,") (alt (lit "\;") (lit "~"))).
Definition t_IDENT : matcher := many1 is_letter.
Definition t_NUMBER : matcher := many1 is_digit.
Definition t_UNDERSCORE : matcher := lit "_".
Definition t_LBRACE : matcher := lit "{".
Definition t_RBRACE : matcher := lit "}".
Definition t_COMMA : matcher := lit ",".
Definition t_ADD : matcher := lit "+".
Definition t_SUB : matcher := lit "-".
Definition t_MUL : matcher :=
  alt (lit "*") (alt (chr 215 "×") (lit "\times")).
Definition t_DIV : matcher := lit "/".
Definition t_DOTS : matcher :=
  alt dots_run (alt (chr 8230 "…")
    (alt (lit "\dots") (alt (lit "\ldots") (lit "\cdots")))).
Definition t_VDOTS : matcher :=
  alt (lit ":") (alt (chr 8942 "⋮") (lit "\vdots")).

(** The master pattern of ply: the rules given as functions in the order
    of their definition, then the rules given as strings by decreasing
    length of their pattern.  [None] is [t_tex_space], which returns no
    token. *)
Definition rules : list (option token_type * matcher) :=
  [ (Some NEWLINE, t_NEWLINE); (None, t_tex_space);
    (Some DOTS, t_DOTS); (Some MUL, t_MUL); (Some VDOTS, t_VDOTS);
    (Some IDENT, t_IDENT); (Some NUMBER, t_NUMBER); (Some ADD, t_ADD);
    (Some UNDERSCORE, t_UNDERSCORE); (Some LBRACE, t_LBRACE);
    (Some RBRACE, t_RBRACE); (Some COMMA, t_COMMA); (Some SUB, t_SUB);
    (Some DIV, t_DIV) ].

Fixpoint first_match (rs : list (option token_type * matcher)) (s : text)
    : option (option token_type * string * nat) :=
  match rs with
  | [] => None
  | (ty, r) :: rs' =>
      match r s with
      | Some (value, len) => Some (ty, value, len)
      | None => first_match rs' s
      end
  end.

(** [t_ignore = ' \t$'] *)
Definition t_ignore (c : N) : bool :=
  ((c =? 32) || (c =? 9) || (c =? 36))%N.

(** [t_error]: the three values it formats into the message. *)
Definition t_error (value0 : N) (lineno lexpos : Z) : exn :=
  LexerError value0 lineno lexpos.

(** The token loop of ply's [Lexer.token], run to the end of the input
    as [list(lexer.clone())] does. *)
Fixpoint tokens_from (fuel : nat) (lineno lexpos : Z) (s : text)
    : outcome (list LexToken) :=
  match s with
  | [] => Ok []
  | c :: s' =>
      match fuel with
      | O => Raise OutOfFuel
      | S fuel =>
          if t_ignore c then tokens_from fuel lineno (lexpos + 1)%Z s'
          else
            match first_match rules s with
            | Some (None, _, len) =>
                tokens_from fuel lineno (lexpos + Z.of_nat len)%Z
                  (drop len s)
            | Some (Some ty, value, len) =>
                let tok := mkToken ty value lineno lexpos in
                let lineno' :=
                  match ty with
                  | NEWLINE => (lineno + 1)%Z
                  | _ => lineno
                  end in
                toks ← tokens_from fuel lineno' (lexpos + Z.of_nat len)%Z
                         (drop len s);
                Ok (tok :: toks)
            | None => Raise (t_error c lineno lexpos)
            end
      end
  end.

Definition tokenize (input : text) : outcome (list LexToken) :=
  tokens_from (length input) 1 0 input.

End Lex.

(** ** The parser

    ply builds an LALR(1) automaton for the grammar written in the
    docstrings of the [p_] functions.  The grammar has no conflict and is
    right-linear over the tokens, so the automaton is modelled by one
    function per nonterminal that reads the tokens from the left.  Two
    facts of the automaton are kept: a token that no rule allows next is
    reported by [p_error] the moment it becomes the lookahead, and the
    action of a rule for [items] runs once the [NEWLINE] that ends the
    items is the lookahead, after every item before it has been read. *)

Module Yacc.
Section Parser.
Variable input : text.

(** [input.rfind('\n', 0, lexpos)] *)
Fixpoint rfind_newline (i found stop : Z) (s : text) : Z :=
  match s with
  | [] => found
  | c :: s' =>
      if (i <? stop)%Z then
        rfind_newline (i + 1)%Z (if (c =? 10)%N then i else found) stop s'
      else found
  end.

Definition find_column (lexpos : Z) : Z :=
  let line_start := (rfind_newline 0 (-1) lexpos input + 1)%Z in
  (lexpos - line_start + 1)%Z.

(** [p_error]; at the end of the input ply passes [None], and reading
    [t.type] fails. *)
Definition p_error (t : option LexToken) : exn :=
  match t with
  | Some t =>
      ParserError (tok_type t) (tok_value t) (tok_lineno t)
        (find_column (tok_lexpos t))
  | None => AttributeError
  end.

Definition is_binop (t : LexToken) : bool :=
  match tok_type t with
  | ADD | SUB | MUL | DIV => true
  | _ => false
  end.

(** [p_expr], with [p_binop] *)
Fixpoint p_expr (ts : list LexToken) : outcome (string * list LexToken) :=
  match ts with
  | [] => Raise (p_error None)
  | t1 :: ts1 =>
      match tok_type t1, ts1 with
      | (IDENT | NUMBER), t2 :: ts2 =>
          if is_binop t2 then
            '(e, rest) ← p_expr ts2;
            Ok (tok_value t1 ++ " " ++ tok_value t2 ++ " " ++ e, rest)
          else
            match tok_type t1, tok_type t2 with
            | NUMBER, IDENT =>
                Ok (tok_value t1 ++ " * " ++ tok_value t2, ts2)
            | _, _ => Ok (tok_value t1, ts1)
            end
      | (IDENT | NUMBER), [] => Ok (tok_value t1, ts1)
      | _, _ => Raise (p_error (Some t1))
      end
  end.

(** [p_exprs].  The rule [expr COMMA exprs] has three symbols, so
    [len(p)] is 4 there: neither branch of the action runs and [p[0]]
    keeps its initial [None]. *)
Fixpoint p_exprs (fuel : nat) (ts : list LexToken)
    : outcome (option (list string) * list LexToken) :=
  match fuel with
  | O => Raise OutOfFuel
  | S fuel =>
      '(e, rest) ← p_expr ts;
      match rest with
      | [] => Raise (p_error None)
      | t :: rest' =>
          match tok_type t with
          | COMMA =>
              '(_, rest'') ← p_exprs fuel rest';
              Ok (None, rest'')
          | RBRACE => Ok (Some [e], rest)
          | _ => Raise (p_error (Some t))
          end
      end
  end.

(** [p_item] *)
Definition p_item (fuel : nat) (ts : list LexToken)
    : outcome (ParserNode * list LexToken) :=
  match ts with
  | [] => Raise (p_error None)
  | t1 :: ts1 =>
      match tok_type t1 with
      | IDENT =>
          match ts1 with
          | t2 :: ts2 =>
              match tok_type t2 with
              | UNDERSCORE =>
                  match ts2 with
                  | [] => Raise (p_error None)
                  | t3 :: ts3 =>
                      match tok_type t3 with
                      | NUMBER | IDENT =>
                          Ok (ItemParserNode (tok_value t1)
                                (Some [tok_value t3]), ts3)
                      | LBRACE =>
                          '(indices, rest) ← p_exprs fuel ts3;
                          Ok (ItemParserNode (tok_value t1) indices,
                              tail rest)
                      | _ => Raise (p_error (Some t3))
                      end
                  end
              | _ => Ok (ItemParserNode (tok_value t1) (Some []), ts1)
              end
          | [] => Ok (ItemParserNode (tok_value t1) (Some []), ts1)
          end
      | _ => Raise (p_error (Some t1))
      end
  end.

(** [p_items]; the result is the [items] of the [SequenceParserNode].
    In the rule [item DOTS item items] the action reads [p[2].items],
    and [p[2]] is the text of the [DOTS] token. *)
Fixpoint p_items (fuel : nat) (ts : list LexToken)
    : outcome (list ParserNode * list LexToken) :=
  match fuel with
  | O => Raise OutOfFuel
  | S fuel =>
      '(p1, rest) ← p_item fuel ts;
      match rest with
      | [] => Raise (p_error None)
      | t :: rest' =>
          match tok_type t with
          | DOTS =>
              '(p3, rest3) ← p_item fuel rest';
              match rest3 with
              | [] => Raise (p_error None)
              | t' :: _ =>
                  match tok_type t' with
                  | IDENT =>
                      '(_, _) ← p_items fuel rest3;
                      Raise AttributeError
                  | NEWLINE => Ok ([DotsParserNode p1 p3], rest3)
                  | _ => Raise (p_error (Some t'))
                  end
              end
          | IDENT =>
              '(p2_items, rest2) ← p_items fuel rest;
              Ok (p1 :: p2_items, rest2)
          | NEWLINE => Ok ([p1], rest)
          | _ => Raise (p_error (Some t))
          end
      end
  end.

(** [p_line], with [p_newline]; [p_items] stops at a [NEWLINE]. *)
Definition p_line (fuel : nat) (ts : list LexToken)
    : outcome (ParserNode * list LexToken) :=
  '(p1_items, rest) ← p_items fuel ts;
  Ok (SequenceParserNode (p1_items ++ [NewlineParserNode]), tail rest).

(** [p_lines] *)
Definition p_lines (fuel : nat) (ts : list LexToken)
    : outcome (ParserNode * list LexToken) :=
  '(p1, rest) ← p_line fuel ts;
  match rest with
  | [] => Ok (p1, rest)
  | t :: rest' =>
      match tok_type t with
      | VDOTS | DOTS =>
          match rest' with
          | [] => Raise (p_error None)
          | t' :: rest'' =>
              match tok_type t' with
              | NEWLINE =>
                  '(p4, rest4) ← p_line fuel rest'';
                  Ok (DotsParserNode p1 p4, rest4)
              | _ => Raise (p_error (Some t'))
              end
          end
      | _ => Ok (p1, rest)
      end
  end.

(** [p_main]; the result is the [items] of the [SequenceParserNode]. *)
Fixpoint p_main (fuel : nat) (ts : list LexToken)
    : outcome (list ParserNode) :=
  match fuel with
  | O => Raise OutOfFuel
  | S fuel =>
      '(p1, rest) ← p_lines fuel ts;
      match rest with
      | [] => Ok [p1]
      | t :: _ =>
          match tok_type t with
          | IDENT =>
              p2_items ← p_main fuel rest;
              Ok (p1 :: p2_items)
          | _ => Raise (p_error (Some t))
          end
      end
  end.

(** [parser.parse(lexer=lexer)] *)
Definition parse (ts : list LexToken) : outcome ParserNode :=
  items ← p_main (S (S (length ts))) ts;
  Ok (SequenceParserNode items).

End Parser.
End Yacc.

Section ParserNode_ind.
Variable P : ParserNode → Prop.
Hypothesis HSequence : ∀ items, Forall P items → P (SequenceParserNode items).
Hypothesis HNewline : P NewlineParserNode.
Hypothesis HItem : ∀ name indices, P (ItemParserNode name indices).
Hypothesis HDots : ∀ first last,
  P first → P last → P (DotsParserNode first last).

Fixpoint ParserNode_ind' (t : ParserNode) : P t :=
  match t with
  | SequenceParserNode items =>
      HSequence items
        ((fix go (l : list ParserNode) : Forall P l :=
            match l with
            | [] => @List.Forall_nil _ P
            | x :: l' => @List.Forall_cons _ P x l' (ParserNode_ind' x) (go l')
            end) items)
  | NewlineParserNode => HNewline
  | ItemParserNode name indices => HItem name indices
  | DotsParserNode first last =>
      HDots first last (ParserNode_ind' first) (ParserNode_ind' last)
  end.
End ParserNode_ind.

(** ** Word boundaries of [re] *)

Definition is_word_char (c : ascii) : bool :=
  let n := N_of_ascii c in
  (((48 <=? n) && (n <=? 57)) || ((65 <=? n) && (n <=? 90))
   || ((97 <=? n) && (n <=? 122)) || (n =? 95))%N.

Definition word_at (c : option ascii) : bool :=
  match c with
  | Some c => is_word_char c
  | None => false
  end.

(** [\b] holds between [prev] and [next] when exactly one is a word
    character; outside the string there is no word character. *)
Definition boundary (prev next : option ascii) : bool :=
  xorb (word_at prev) (word_at next).

Definition head_char (s : string) : option ascii :=
  match s with
  | String c _ => Some c
  | EmptyString => None
  end.

Fixpoint strip_prefix (p s : string) : option string :=
  match p, s with
  | EmptyString, _ => Some s
  | String a p', String b s' =>
      if Ascii.eqb a b then strip_prefix p' s' else None
  | String _ _, EmptyString => None
  end.

Fixpoint last_char (prev : option ascii) (p : string) : option ascii :=
  match p with
  | EmptyString => prev
  | String c p' => last_char (Some c) p'
  end.

(** Does [\b name \b] match at the current position of [s]? *)
Definition matches_here (name : string) (prev : option ascii) (s : string)
    : bool :=
  boundary prev (head_char s) &&
  match strip_prefix name s with
  | Some rest => boundary (last_char prev name) (head_char rest)
  | None => false
  end.

(** The letter that is [k] places before ['z']: [chr(ord('z') - k)]. *)
Definition counter_name (k : nat) : string :=
  String (ascii_of_nat (122 - k)) EmptyString.

(** ** [list_used_names] *)

Fixpoint list_used_names (node : FormatNode) : gset string :=
  match node with
  | ItemNode name _ => {[ name ]}
  | NewlineNode => ∅
  | SequenceNode items =>
      (fix go (l : list FormatNode) : gset string :=
         match l with
         | [] => ∅
         | item :: l' => list_used_names item ∪ go l'
         end) items
  | LoopNode _ name body => {[ name ]} ∪ list_used_names body
  end.

(** ** The symbolic engine

    [simplify] hands its argument to sympy's [parse_expr]; the analyzer
    uses the result in three ways only: it compares two results with [==]
    and [!=], it prints one with [str], and it lets an exception of the
    engine propagate.  The interface below is exactly that. *)

Class Engine : Type := {
  Expr : Type;
  Expr_eq_dec :: EqDecision Expr;
  (** [parse_expr s] is [None] when the engine raises on [s]. *)
  parse_expr : string → option Expr;
  str : Expr → string;
}.

Section Analyzer.
Context `{Engine}.

Definition simplify (s : string) : outcome Expr :=
  match parse_expr s with
  | Some e => Ok e
  | None => Raise EngineError
  end.

(** *** [zip_nodes] *)

(** The loop [for i, j in zip(a.indices, b.indices)] of the item case. *)
Fixpoint zip_indices (name : string) (ais bis : list string)
    (size : option string) : outcome (list string * option string) :=
  match ais, bis with
  | i :: ais', j :: bis' =>
      ei ← simplify i;
      ej ← simplify j;
      if decide (ei = ej) then
        '(indices, size') ← zip_indices name ais' bis' size;
        Ok (i :: indices, size')
      else
        size1 ← match size with
                | None =>
                    e ← simplify (j ++ " - " ++ i ++ " + 1");
                    Ok (Some (str e))
                | Some s =>
                    e ← simplify (j ++ " - " ++ i ++ " + 1");
                    es ← simplify s;
                    if decide (e ≠ es) then Raise SyntaxError else Ok size
                end;
        e' ← simplify (i ++ " + " ++ name);
        '(indices, size') ← zip_indices name ais' bis' size1;
        Ok (str e' :: indices, size')
  | _, _ => Ok ([], size)
  end.

Fixpoint zip_nodes (a b : FormatNode) (name : string) (size : option string)
    {struct a} : outcome (FormatNode * option string) :=
  match a, b with
  | ItemNode a_name a_indices, ItemNode b_name b_indices =>
      if decide (a_name ≠ b_name ∨ length a_indices ≠ length b_indices) then
        Raise SyntaxError
      else
        '(indices, size') ← zip_indices name a_indices b_indices size;
        Ok (ItemNode a_name indices, size')
  | NewlineNode, NewlineNode => Ok (NewlineNode, size)
  | SequenceNode a_items, SequenceNode b_items =>
      if decide (length a_items ≠ length b_items) then Raise SyntaxError
      else
        '(items, size') ←
          (fix go (xs ys : list FormatNode) (size : option string)
             : outcome (list FormatNode * option string) :=
             match xs, ys with
             | a_i :: xs', b_i :: ys' =>
                 '(c_i, size1) ← zip_nodes a_i b_i name size;
                 '(items, size2) ← go xs' ys' size1;
                 Ok (c_i :: items, size2)
             | _, _ => Ok ([], size)
             end) a_items b_items size;
        Ok (SequenceNode items, size')
  | LoopNode a_size a_name a_body, LoopNode b_size b_name b_body =>
      if decide (a_size ≠ b_size ∨ a_name ≠ b_name) then Raise SyntaxError
      else
        '(c, size') ← zip_nodes a_body b_body name size;
        Ok (LoopNode a_size a_name c, size')
  | _, _ => Raise SyntaxError
  end.

(** *** [exnted_loop_node] *)

(** [re.subn(r'\b' + re.escape(loop.name) + r'\b', '(-1)', j)]: every
    occurrence of the literal [name] that starts and ends at a word
    boundary is replaced, scanning from the left without overlap.
    [prev] is the character before the current position and [skip] the
    number of characters of a match still to be dropped.  Word characters
    are the ASCII letters, digits and the underscore. *)
Fixpoint re_sub_word (name : string) (prev : option ascii) (skip : nat)
    (s : string) {struct s} : string :=
  match skip, s with
  | S k, String c s' => re_sub_word name (Some c) k s'
  | S _, EmptyString => EmptyString
  | O, _ =>
      if matches_here name prev s then
        "(-1)" ++
        match s with
        | String c s' =>
            match name with
            | EmptyString => String c (re_sub_word name (Some c) 0 s')
            | String _ name' =>
                re_sub_word name (Some c) (String.length name') s'
            end
        | EmptyString => EmptyString
        end
      else
        match s with
        | String c s' => String c (re_sub_word name (Some c) 0 s')
        | EmptyString => EmptyString
        end
  end.

Definition decrement (loop_name j : string) : string :=
  re_sub_word loop_name None 0 j.

(** The loop over [zip(a.indices, b.indices)] of the item case; [Ok None]
    is the [return None] of the source. *)
Fixpoint extend_indices (loop_name : string) (ais bis : list string)
    : outcome (option (list string)) :=
  match ais, bis with
  | i :: ais', j :: bis' =>
      let decr_j := decrement loop_name j in
      ei ← simplify i;
      ej ← simplify decr_j;
      if decide (ei = ej) then
        e ← simplify (i ++ " + " ++ loop_name);
        rest ← extend_indices loop_name ais' bis';
        Ok (cons (str e) <$> (rest : option (list string)))
      else Ok None
  | _, _ => Ok (Some [])
  end.

(** Of its argument [loop] the source reads [loop.name] only. *)
Fixpoint exnted_loop_node (a b : FormatNode) (loop_name : string)
    {struct a} : outcome (option FormatNode) :=
  match a, b with
  | ItemNode a_name a_indices, ItemNode b_name b_indices =>
      if decide (a_name ≠ b_name ∨ length a_indices ≠ length b_indices) then
        Ok None
      else
        indices ← extend_indices loop_name a_indices b_indices;
        Ok (ItemNode a_name <$> (indices : option (list string)))
  | NewlineNode, NewlineNode => Ok (Some NewlineNode)
  | SequenceNode a_items, SequenceNode b_items =>
      if decide (length a_items ≠ length b_items) then Ok None
      else
        items ←
          (fix go (xs ys : list FormatNode)
             : outcome (option (list FormatNode)) :=
             match xs, ys with
             | a_i :: xs', b_i :: ys' =>
                 c_i ← exnted_loop_node a_i b_i loop_name;
                 match c_i with
                 | None => Ok None
                 | Some c_i =>
                     items ← go xs' ys';
                     Ok (cons c_i <$> (items : option (list FormatNode)))
                 end
             | _, _ => Ok (Some [])
             end) a_items b_items;
        Ok (SequenceNode <$> (items : option (list FormatNode)))
  | LoopNode a_size a_name a_body, LoopNode b_size b_name b_body =>
      if decide (a_size ≠ b_size ∨ a_name ≠ b_name) then Ok None
      else
        c ← exnted_loop_node a_body b_body loop_name;
        Ok (LoopNode a_size a_name <$> (c : option FormatNode))
  | _, _ => Ok None
  end.

(** *** [analyze] *)

(** The search for the name of the new loop counter.  [k] counts the
    letters left after the current one, so the scan that starts at ['i']
    is [find_counter 17]; the current letter is ['z'] exactly when
    [k = 0], where the [assert] fails. *)
Fixpoint find_counter (k : nat) (used_names : gset string)
    : outcome string :=
  let name := counter_name k in
  if decide (name ∈ used_names) then
    match k with
    | O => Raise AssertionError
    | S k' => find_counter k' used_names
    end
  else Ok name.

(** The slices [items[:-k]] and [items[-k:]]; [-0] is [0] in Python. *)
Definition slice_init (k : nat) (items : list FormatNode) : list FormatNode :=
  match k with
  | O => []
  | _ => take (length items - k) items
  end.
Definition slice_tail (k : nat) (items : list FormatNode) : list FormatNode :=
  match k with
  | O => items
  | _ => drop (length items - k) items
  end.

(** The choice of [items_init] and [items_tail]; [items] is not empty. *)
Definition split_items (items : list FormatNode) (body : FormatNode)
    : list FormatNode * FormatNode :=
  match body with
  | SequenceNode body_items =>
      if decide (length body_items ≤ length items)%nat then
        (slice_init (length body_items) items,
         SequenceNode (slice_tail (length body_items) items))
      else (slice_init 1 items, List.last items NewlineNode)
  | _ => (slice_init 1 items, List.last items NewlineNode)
  end.

(** The [while que:] loop, bounded by [fuel]; [merge_loop_terminates]
    shows that [queue_fuel] steps are enough. *)
Fixpoint merge_loop (fuel : nat) (items que : list FormatNode)
    : outcome (list FormatNode) :=
  match que with
  | [] => Ok items
  | item :: que =>
      match fuel with
      | O => Raise OutOfFuel
      | S fuel =>
          match item with
          | SequenceNode item_items =>
              merge_loop fuel items (item_items ++ que)
          | LoopNode size name body =>
              match items with
              | [] => merge_loop fuel (items ++ [item]) que
              | _ :: _ =>
                  let '(items_init, items_tail) := split_items items body in
                  extended_body ← exnted_loop_node items_tail body name;
                  match extended_body with
                  | Some extended_body =>
                      e ← simplify (size ++ " + 1");
                      let extended_loop :=
                        LoopNode (str e) name extended_body in
                      merge_loop fuel items_init (extended_loop :: que)
                  | None => merge_loop fuel (items ++ [item]) que
                  end
              end
          | _ => merge_loop fuel (items ++ [item]) que
          end
      end
  end.

Fixpoint weight (t : FormatNode) : nat :=
  match t with
  | SequenceNode items =>
      S ((fix go (l : list FormatNode) : nat :=
            match l with
            | [] => 0
            | x :: l' => weight x + go l'
            end) items)
  | _ => 1
  end.

Definition queue_fuel (items que : list FormatNode) : nat :=
  (2 * sum_list_with weight que + length items)%nat.

Definition analyze_sequence (que : list FormatNode) : outcome FormatNode :=
  items ← merge_loop (queue_fuel [] que) [] que;
  match items with
  | [item] => Ok item
  | _ => Ok (SequenceNode items)
  end.

Definition analyze_dots (a b : FormatNode) : outcome FormatNode :=
  let used_names := list_used_names a ∪ list_used_names b in
  name ← find_counter 17 used_names;
  '(c, size) ← zip_nodes a b name None;
  match size with
  | None => Raise SyntaxError
  | Some size => Ok (LoopNode size name c)
  end.

Fixpoint analyze (node : ParserNode) : outcome FormatNode :=
  match node with
  | ItemParserNode name indices =>
      match indices with
      | None => Raise TypeError
      | Some indices =>
          indices ←
            (fix go (l : list string) : outcome (list string) :=
               match l with
               | [] => Ok []
               | index :: l' =>
                   e ← simplify index;
                   rest ← go l';
                   Ok (str e :: rest)
               end) indices;
          Ok (ItemNode name indices)
      end
  | NewlineParserNode => Ok NewlineNode
  | SequenceParserNode items =>
      que ←
        (fix go (l : list ParserNode) : outcome (list FormatNode) :=
           match l with
           | [] => Ok []
           | x :: l' =>
               y ← analyze x;
               rest ← go l';
               Ok (y :: rest)
           end) items;
      analyze_sequence que
  | DotsParserNode first last =>
      a ← analyze first;
      b ← analyze last;
      analyze_dots a b
  end.

(** The body of [run] from the normalised format string [pre] on: the
    whole input is lexed, the tokens are parsed, the tree is analyzed. *)
Definition run (pre : text) : outcome FormatNode :=
  toks ← Lex.tokenize pre;
  parsed ← Yacc.parse pre toks;
  analyze parsed.

End Analyzer.

(** ** A model of the symbolic engine

    Modelled from the spec: the symbolic engine, which the source takes
    from the sympy library ([parse_expr] with implicit multiplication and
    the symbol [N], and [str]).  The model covers the expressions the spec
    asks the engine to understand: integer-linear expressions over
    one-letter symbols, written with numbers, [+ - * /], parentheses and
    spaces.  An expression is kept in canonical form, the terms ordered by
    symbol and the constant last, which is also the order in which [str]
    prints them.  [parse_expr] is [None] on any other string: a product of
    two symbols, a quotient that is not an integer, a name of several
    letters, the letters sympy reserves ([E], [I], [O], [Q], [S]), a number
    with a leading zero. *)

Module Sympy.

Record lin : Type := Lin {
  terms : list (ascii * Z);
  const : Z;
}.

#[global] Instance lin_eq_dec : EqDecision lin.
Proof. solve_decision. Defined.

Definition sym_code (x : ascii) : N := N_of_ascii x.

(** The sum of [c * x] and a canonical list of terms. *)
Fixpoint add_term (x : ascii) (c : Z) (ts : list (ascii * Z))
    : list (ascii * Z) :=
  match ts with
  | [] => [(x, c)]
  | (y, d) :: ts' =>
      if (sym_code x <? sym_code y)%N then (x, c) :: ts
      else if (sym_code x =? sym_code y)%N then
        if (c + d =? 0)%Z then ts' else (y, (c + d)%Z) :: ts'
      else (y, d) :: add_term x c ts'
  end.

Definition add (a b : lin) : lin :=
  Lin (foldr (λ t acc, add_term t.1 t.2 acc) (terms a) (terms b))
      (const a + const b)%Z.

Definition neg (a : lin) : lin :=
  Lin ((λ t, (t.1, (- t.2)%Z)) <$> terms a) (- const a)%Z.

Definition sub (a b : lin) : lin := add a (neg b).

Definition scale (k : Z) (a : lin) : lin :=
  if (k =? 0)%Z then Lin [] 0
  else Lin ((λ t, (t.1, (k * t.2)%Z)) <$> terms a) (k * const a)%Z.

(** A product is linear when one factor is a number. *)
Definition mul (a b : lin) : option lin :=
  match terms a, terms b with
  | [], _ => Some (scale (const a) b)
  | _, [] => Some (scale (const b) a)
  | _, _ => None
  end.

(** A quotient stays in the model when the divisor is a number other
    than zero that divides every coefficient. *)
Definition div (a b : lin) : option lin :=
  match terms b with
  | [] =>
      let k := const b in
      if (k =? 0)%Z then None
      else if forallb (λ t, (t.2 mod k =? 0)%Z) (terms a)
              && (const a mod k =? 0)%Z
      then Some (Lin ((λ t, (t.1, (t.2 / k)%Z)) <$> terms a)
                     (const a / k)%Z)
      else None
  | _ => None
  end.

(** *** Reading an expression *)

Inductive tok : Type :=
  | TNum (n : N) | TSym (x : ascii)
  | TAdd | TSub | TMul | TDiv | TLParen | TRParen.

Definition is_digit (c : ascii) : bool :=
  ((48 <=? N_of_ascii c) && (N_of_ascii c <=? 57))%N.
Definition digit_value (c : ascii) : N := (N_of_ascii c - 48)%N.
Definition is_letter (c : ascii) : bool :=
  let n := N_of_ascii c in
  (((65 <=? n) && (n <=? 90)) || ((97 <=? n) && (n <=? 122)))%N.
(** Names that sympy does not read as a fresh symbol. *)
Definition reserved (c : ascii) : bool :=
  match c with
  | "E" | "I" | "O" | "Q" | "S" => true
  | _ => false
  end%char.

(** The number in progress, if any, ends before the tokens [ts]. *)
Definition emit (num : option N) (ts : option (list tok))
    : option (list tok) :=
  match num with
  | Some n => cons (TNum n) <$> ts
  | None => ts
  end.

Definition op_tok (c : ascii) : option tok :=
  if (c =? "+")%char then Some TAdd
  else if (c =? "-")%char then Some TSub
  else if (c =? "*")%char then Some TMul
  else if (c =? "/")%char then Some TDiv
  else if (c =? "(")%char then Some TLParen
  else if (c =? ")")%char then Some TRParen
  else None.

Definition valid_sym (x : ascii) : bool := is_letter x && negb (reserved x).

(** [num] is the value of the digits read so far of a number in
    progress.  A letter is a symbol when no letter, digit or underscore
    follows it. *)
Fixpoint lex (num : option N) (s : string) : option (list tok) :=
  match s with
  | EmptyString => emit num (Some [])
  | String c s' =>
      if is_digit c then
        match num with
        | None => lex (Some (digit_value c)) s'
        | Some 0%N => None
        | Some n => lex (Some (10 * n + digit_value c)%N) s'
        end
      else if (c =? " ")%char then emit num (lex None s')
      else
        match op_tok c with
        | Some t => emit num (cons t <$> lex None s')
        | None =>
            if valid_sym c && negb (word_at (head_char s'))
            then emit num (cons (TSym c) <$> lex None s')
            else None
        end
  end.

Definition num (n : N) : lin := Lin [] (Z.of_N n).
Definition sym (x : ascii) : lin := Lin [(x, 1%Z)] 0.

(** The expression grammar of Python, by precedence: [p_arith] reads
    sums and differences of terms, [p_term] products and quotients of
    factors, [p_factor] signs, numbers, symbols and parentheses. *)
Fixpoint p_factor (fuel : nat) (ts : list tok) {struct fuel}
    : option (lin * list tok) :=
  match fuel with
  | O => None
  | S fuel =>
      match ts with
      | TSub :: ts' =>
          '(v, rest) ← p_factor fuel ts'; Some (neg v, rest)
      | TAdd :: ts' => p_factor fuel ts'
      | TNum n :: ts' => Some (num n, ts')
      | TSym x :: ts' => Some (sym x, ts')
      | TLParen :: ts' =>
          '(v, rest) ← p_arith fuel ts';
          match rest with
          | TRParen :: rest' => Some (v, rest')
          | _ => None
          end
      | _ => None
      end
  end
with p_term_rest (fuel : nat) (acc : lin) (ts : list tok) {struct fuel}
    : option (lin * list tok) :=
  match fuel with
  | O => None
  | S fuel =>
      match ts with
      | TMul :: ts' =>
          '(v, rest) ← p_factor fuel ts';
          acc' ← mul acc v;
          p_term_rest fuel acc' rest
      | TDiv :: ts' =>
          '(v, rest) ← p_factor fuel ts';
          acc' ← div acc v;
          p_term_rest fuel acc' rest
      | _ => Some (acc, ts)
      end
  end
with p_term (fuel : nat) (ts : list tok) {struct fuel}
    : option (lin * list tok) :=
  match fuel with
  | O => None
  | S fuel =>
      '(v, rest) ← p_factor fuel ts; p_term_rest fuel v rest
  end
with p_arith_rest (fuel : nat) (acc : lin) (ts : list tok) {struct fuel}
    : option (lin * list tok) :=
  match fuel with
  | O => None
  | S fuel =>
      match ts with
      | TAdd :: ts' =>
          '(v, rest) ← p_term fuel ts';
          p_arith_rest fuel (add acc v) rest
      | TSub :: ts' =>
          '(v, rest) ← p_term fuel ts';
          p_arith_rest fuel (sub acc v) rest
      | _ => Some (acc, ts)
      end
  end
with p_arith (fuel : nat) (ts : list tok) {struct fuel}
    : option (lin * list tok) :=
  match fuel with
  | O => None
  | S fuel =>
      '(v, rest) ← p_term fuel ts; p_arith_rest fuel v rest
  end.

Definition parse_fuel (ts : list tok) : nat := (4 * length ts + 8)%nat.

Definition parse_expr (s : string) : option lin :=
  ts ← lex None s;
  '(v, rest) ← p_arith (parse_fuel ts) ts;
  match rest with
  | [] => Some v
  | _ => None
  end.

(** *** Printing an expression *)

Definition print_N (n : N) : string :=
  NilEmpty.string_of_uint (N.to_uint n).

(** [c * x] without its sign. *)
Definition print_term (x : ascii) (c : Z) : string :=
  if (Z.abs c =? 1)%Z then String x ""
  else print_N (Z.abs_N c) ++ "*" ++ String x "".

Definition infix_sign (c : Z) : string :=
  if (c <? 0)%Z then " - " else " + ".
Definition prefix_sign (c : Z) : string :=
  if (c <? 0)%Z then "-" else "".

Fixpoint print_rest (ts : list (ascii * Z)) (c0 : Z) : string :=
  match ts with
  | (x, c) :: ts' => infix_sign c ++ print_term x c ++ print_rest ts' c0
  | [] =>
      if (c0 =? 0)%Z then "" else infix_sign c0 ++ print_N (Z.abs_N c0)
  end.

Definition str (a : lin) : string :=
  match terms a with
  | (x, c) :: ts => prefix_sign c ++ print_term x c ++ print_rest ts (const a)
  | [] => prefix_sign (const a) ++ print_N (Z.abs_N (const a))
  end.

#[global] Instance engine : Engine := Build_Engine lin _ parse_expr str.

(** *** Canonical forms *)

(** The symbols of [ts] are valid, at least [lo] and increasing, and no
    coefficient is zero. *)
Fixpoint canon (lo : N) (ts : list (ascii * Z)) : Prop :=
  match ts with
  | [] => True
  | (x, c) :: ts' =>
      (lo ≤ sym_code x)%N ∧ c ≠ 0%Z ∧ valid_sym x = true
      ∧ canon (sym_code x + 1) ts'
  end.

Definition canonical (a : lin) : Prop := canon 0 (terms a).

Definition tok_ok (t : tok) : Prop :=
  match t with
  | TSym x => valid_sym x = true
  | _ => True
  end.

(** The tokens of the text that [str] prints. *)
Definition tok_term (x : ascii) (c : Z) : list tok :=
  if (Z.abs c =? 1)%Z then [TSym x]
  else [TNum (Z.abs_N c); TMul; TSym x].

Definition tok_sign (c : Z) : tok := if (c <? 0)%Z then TSub else TAdd.

Fixpoint tok_rest (ts : list (ascii * Z)) (c0 : Z) : list tok :=
  match ts with
  | (x, c) :: ts' => tok_sign c :: tok_term x c ++ tok_rest ts' c0
  | [] => if (c0 =? 0)%Z then [] else [tok_sign c0; TNum (Z.abs_N c0)]
  end.

Definition tok_prefix (c : Z) : list tok :=
  if (c <? 0)%Z then [TSub] else [].

Definition toks (a : lin) : list tok :=
  match terms a with
  | (x, c) :: ts => tok_prefix c ++ tok_term x c ++ tok_rest ts (const a)
  | [] => tok_prefix (const a) ++ [TNum (Z.abs_N (const a))]
  end.

End Sympy.

(** ** Notions used to state the properties *)

Section Notions.
Context `{Engine}.

(** Modelled from the spec: the one operation of the symbolic engine,
    [canonicalize(expr-string)], which the source writes
    [str(simplify(s))] wherever it needs it. *)
Definition canonicalize (s : string) : outcome string :=
  e ← simplify s; Ok (str e).

(** The loop of [zip_nodes] over the items of two sequences, by name. *)
Fixpoint zip_list (name : string) (xs ys : list FormatNode)
    (size : option string) : outcome (list FormatNode * option string) :=
  match xs, ys with
  | a_i :: xs', b_i :: ys' =>
      '(c_i, size1) ← zip_nodes a_i b_i name size;
      '(items, size2) ← zip_list name xs' ys' size1;
      Ok (c_i :: items, size2)
  | _, _ => Ok ([], size)
  end.

(** The loop of [exnted_loop_node] over the items of two sequences. *)
Fixpoint extend_list (loop_name : string) (xs ys : list FormatNode)
    : outcome (option (list FormatNode)) :=
  match xs, ys with
  | a_i :: xs', b_i :: ys' =>
      c_i ← exnted_loop_node a_i b_i loop_name;
      match c_i with
      | None => Ok None
      | Some c_i =>
          items ← extend_list loop_name xs' ys';
          Ok (cons c_i <$> (items : option (list FormatNode)))
      end
  | _, _ => Ok (Some [])
  end.

(** The result of a unification that started with the trip count [s]:
    the same trip count, or an exception. *)
Definition keeps_size {A : Type} (s : string)
    (r : outcome (A * option string)) : Prop :=
  match r with
  | Ok (_, size) => size = Some s
  | Raise e => e = SyntaxError ∨ e = EngineError
  end.

(** Loop extension as the specification words it.  At an index position
    the candidate's expression [j], with the counter [n] replaced by the
    value one step before the start, canonicalizes to the same as the
    expression [i] of the sibling; the absorbed index [k] is the
    canonical form of [i + n]. *)
Definition ExtendsIndex (n i j k : string) : Prop :=
  ∃ e e', parse_expr i = Some e ∧ parse_expr (decrement n j) = Some e
          ∧ parse_expr (i ++ " + " ++ n) = Some e' ∧ k = str e'.

(** [Extends n a b c]: the trees [a] and [b] have the same kinds, names
    and arities at every node, every index position extends, and [c] is
    the absorbed body. *)
#[warnings="-register-all"]
Inductive Extends (n : string)
    : FormatNode → FormatNode → FormatNode → Prop :=
  | Extends_Item name ais bis cis :
      Forall3 (ExtendsIndex n) ais bis cis →
      Extends n (ItemNode name ais) (ItemNode name bis) (ItemNode name cis)
  | Extends_Newline :
      Extends n NewlineNode NewlineNode NewlineNode
  | Extends_Sequence xs ys zs :
      Forall3 (Extends n) xs ys zs →
      Extends n (SequenceNode xs) (SequenceNode ys) (SequenceNode zs)
  | Extends_Loop size name a b c :
      Extends n a b c →
      Extends n (LoopNode size name a) (LoopNode size name b)
        (LoopNode size name c).

(** The loop of [analyze] over the items of a sequence. *)
Fixpoint analyze_list (l : list ParserNode) : outcome (list FormatNode) :=
  match l with
  | [] => Ok []
  | x :: l' =>
      y ← analyze x;
      rest ← analyze_list l';
      Ok (y :: rest)
  end.

(** The counter of every loop of the tree is none of the names (of items
    and of inner counters) used in the body of that loop. *)
#[warnings="-register-all"]
Inductive Scoped : FormatNode → Prop :=
  | Scoped_Item name indices : Scoped (ItemNode name indices)
  | Scoped_Newline : Scoped NewlineNode
  | Scoped_Sequence items :
      Forall Scoped items → Scoped (SequenceNode items)
  | Scoped_Loop size name body :
      name ∉ list_used_names body → Scoped body →
      Scoped (LoopNode size name body).

(** *** Unification of a dots pair *)

(** The last step of [analyze] for a dots pair: the two analyzed operands
    are zipped with no trip count yet, and a pair that fixes none is
    refused. *)
Definition unify (a b : FormatNode) (name : string) : outcome FormatNode :=
  '(c, size) ← zip_nodes a b name None;
  match size with
  | None => Raise SyntaxError
  | Some size => Ok (LoopNode size name c)
  end.

Definition kind (t : FormatNode) : nat :=
  match t with
  | ItemNode _ _ => 0
  | NewlineNode => 1
  | SequenceNode _ => 2
  | LoopNode _ _ _ => 3
  end.

(** The structural causes of failure, at the root or at two nodes in the
    same place of the two trees: two items of different name or different
    number of indices, two nodes of different kind, two loops of
    different size or counter, and -- counted when [with_length] is
    [true] -- two sequences of different length. *)
Inductive Mismatch (with_length : bool) : FormatNode → FormatNode → Prop :=
| Mismatch_name a_name a_indices b_name b_indices :
    a_name ≠ b_name →
    Mismatch with_length (ItemNode a_name a_indices)
      (ItemNode b_name b_indices)
| Mismatch_arity a_name a_indices b_name b_indices :
    length a_indices ≠ length b_indices →
    Mismatch with_length (ItemNode a_name a_indices)
      (ItemNode b_name b_indices)
| Mismatch_kind a b :
    kind a ≠ kind b → Mismatch with_length a b
| Mismatch_loop a_size a_name a_body b_size b_name b_body :
    a_size ≠ b_size ∨ a_name ≠ b_name →
    Mismatch with_length (LoopNode a_size a_name a_body)
      (LoopNode b_size b_name b_body)
| Mismatch_length xs ys :
    with_length = true → length xs ≠ length ys →
    Mismatch with_length (SequenceNode xs) (SequenceNode ys)
| Mismatch_item i x y xs ys :
    xs !! i = Some x → ys !! i = Some y → Mismatch with_length x y →
    Mismatch with_length (SequenceNode xs) (SequenceNode ys)
| Mismatch_body a_size a_name a_body b_size b_name b_body :
    Mismatch with_length a_body b_body →
    Mismatch with_length (LoopNode a_size a_name a_body)
      (LoopNode b_size b_name b_body).

(** The index positions of the pair, first to last: the expression of the
    first operand with the one of the last. *)
Fixpoint index_pairs (a b : FormatNode) : list (string * string) :=
  match a, b with
  | ItemNode _ a_indices, ItemNode _ b_indices => zip a_indices b_indices
  | SequenceNode xs, SequenceNode ys =>
      (fix go (xs ys : list FormatNode) : list (string * string) :=
         match xs, ys with
         | x :: xs', y :: ys' => (index_pairs x y ++ go xs' ys')%list
         | _, _ => []
         end) xs ys
  | LoopNode _ _ a_body, LoopNode _ _ b_body => index_pairs a_body b_body
  | _, _ => []
  end.


(** A position varies when its two expressions canonicalize differently;
    the trip count it implies is the canonical form of [j - i + 1]. *)
Definition varies (p : string * string) : Prop :=
  parse_expr p.1 ≠ parse_expr p.2.

Definition stride (p : string * string) : option Expr :=
  parse_expr (p.2 ++ " - " ++ p.1 ++ " + 1").

Definition StridesDiffer (a b : FormatNode) : Prop :=
  ∃ p q, p ∈ index_pairs a b ∧ q ∈ index_pairs a b
         ∧ varies p ∧ varies q ∧ stride p ≠ stride q.

Definition NoneVaries (a b : FormatNode) : Prop :=
  ∀ p, p ∈ index_pairs a b → ¬ varies p.





(** *** Which symbols a trip count mentions *)

Fixpoint occurs (c : ascii) (s : string) : Prop :=
  match s with
  | EmptyString => False
  | String c' s' => c = c' ∨ occurs c s'
  end.

(** [name] stands in [s] as a word: the pattern [\b name \b], which the
    source uses to find the counter in an index, matches somewhere. *)
Fixpoint mentions_from (name : string) (prev : option ascii) (s : string)
    : bool :=
  matches_here name prev s
  || match s with
     | String c s' => mentions_from name (Some c) s'
     | EmptyString => false
     end.

Definition mentions (name s : string) : bool := mentions_from name None s.

(** The index expressions written in a parse tree. *)
Fixpoint parser_indices (node : ParserNode) : list string :=
  match node with
  | SequenceParserNode items =>
      (fix go (l : list ParserNode) : list string :=
         match l with
         | [] => []
         | x :: l' => (parser_indices x ++ go l')%list
         end) items
  | NewlineParserNode => []
  | ItemParserNode _ indices => default [] indices
  | DotsParserNode first last =>
      (parser_indices first ++ parser_indices last)%list
  end.

(** The index expressions of a format tree. *)
Fixpoint all_indices (t : FormatNode) : list string :=
  match t with
  | ItemNode _ indices => indices
  | NewlineNode => []
  | SequenceNode items =>
      (fix go (l : list FormatNode) : list string :=
         match l with
         | [] => []
         | x :: l' => (all_indices x ++ go l')%list
         end) items
  | LoopNode _ _ body => all_indices body
  end.

(** [P size name] holds of every loop of the tree. *)
#[warnings="-register-all"]
Inductive LoopsSatisfy (P : string → string → Prop) : FormatNode → Prop :=
| LoopsSatisfy_Item name indices : LoopsSatisfy P (ItemNode name indices)
| LoopsSatisfy_Newline : LoopsSatisfy P NewlineNode
| LoopsSatisfy_Sequence items :
    Forall (LoopsSatisfy P) items → LoopsSatisfy P (SequenceNode items)
| LoopsSatisfy_Loop size name body :
    P size name → LoopsSatisfy P body →
    LoopsSatisfy P (LoopNode size name body).

(** The names of the items of a tree, wherever they stand. *)
Fixpoint item_names (t : FormatNode) : gset string :=
  match t with
  | ItemNode name _ => {[ name ]}
  | NewlineNode => ∅
  | SequenceNode items =>
      (fix go (l : list FormatNode) : gset string :=
         match l with
         | [] => ∅
         | item :: l' => item_names item ∪ go l'
         end) items
  | LoopNode _ _ body => item_names body
  end.

(** Counter freshness as the specification words it: the counter of
    every loop of the tree is none of the item names of the whole
    tree. *)
Definition CountersAvoidItems (t : FormatNode) : Prop :=
  LoopsSatisfy (λ _ name, name ∉ item_names t) t.

(** Every letter of [s] is a letter of the input ([L]) or a name of [U]. *)
Definition bound (L : ascii → Prop) (U : gset string) (s : string) : Prop :=
  ∀ c, Sympy.is_letter c = true → occurs c s →
       L c ∨ String c EmptyString ∈ U.

(** In the tree, placed under loops with the counters [U], every index is
    bound by the counters around it, and every trip count by the counters
    around it and the names used in the body of its loop; every counter
    is a letter of the scan. *)
#[warnings="-register-all"]
Inductive Bounded (L : ascii → Prop) : gset string → FormatNode → Prop :=
| Bounded_Item U name indices :
    Forall (bound L U) indices → Bounded L U (ItemNode name indices)
| Bounded_Newline U : Bounded L U NewlineNode
| Bounded_Sequence U items :
    Forall (Bounded L U) items → Bounded L U (SequenceNode items)
| Bounded_Loop U size name body :
    (∃ k, (k ≤ 17)%nat ∧ name = counter_name k) →
    bound L (U ∪ list_used_names body) size →
    Bounded L (U ∪ {[ name ]}) body →
    Bounded L U (LoopNode size name body).


End Notions.

(** * Properties *)

(** ** Sequencing *)

Lemma bind_Ok {A B : Type} (m : outcome A) (k : A → outcome B) (r : B) :
  m ≫= k = Ok r → ∃ a, m = Ok a ∧ k a = Ok r.
Proof. destruct m as [a|e]; simpl; [eauto | discriminate]. Qed.

Lemma bind_Raise {A B : Type} (m : outcome A) (k : A → outcome B) (e : exn) :
  m ≫= k = Raise e → m = Raise e ∨ ∃ a, m = Ok a ∧ k a = Raise e.
Proof. destruct m as [a|e']; simpl; [eauto | intros [= ->]; auto]. Qed.

(** Case analysis on the first computation of a sequence. *)
Ltac case_bind :=
  match goal with
  | |- context [mbind _ ?m] =>
      let E := fresh "E" in destruct m eqn:E; simpl
  | |- context [match ?m with Ok _ => _ | Raise _ => _ end] =>
      let E := fresh "E" in destruct m eqn:E; simpl
  end.

Section ZipFacts.
Context `{Engine}.

Lemma zip_nodes_Sequence name xs ys size :
  zip_nodes (SequenceNode xs) (SequenceNode ys) name size =
  if decide (length xs ≠ length ys) then Raise SyntaxError
  else '(items, size') ← zip_list name xs ys size;
       Ok (SequenceNode items, size').
Proof.
  simpl. case_decide; [done|]. f_equal.
  clear. revert ys size. induction xs as [|x xs IH]; intros [|y ys] size;
    simpl; try done.
  destruct (zip_nodes x y name size) as [[c s1]|e]; simpl; [|done].
  by rewrite IH.
Qed.

Lemma simplify_cases (x : string) :
  (∃ e, parse_expr x = Some e ∧ simplify x = Ok e) ∨
  (parse_expr x = None ∧ simplify x = Raise EngineError).
Proof. unfold simplify. destruct (parse_expr x); eauto. Qed.

Lemma zip_indices_keeps_size name ais bis s :
  keeps_size s (zip_indices name ais bis (Some s)).
Proof.
  revert bis. induction ais as [|i ais IH]; intros [|j bis]; simpl; try done.
  destruct (simplify_cases i) as [(ei & _ & ->)|[_ ->]]; simpl; [|auto].
  destruct (simplify_cases j) as [(ej & _ & ->)|[_ ->]]; simpl; [|auto].
  case_decide.
  - specialize (IH bis). destruct (zip_indices name ais bis (Some s))
      as [[? ?]|?]; simpl in *; done.
  - destruct (simplify_cases (j ++ " - " ++ i ++ " + 1"))
      as [(e & _ & ->)|[_ ->]]; simpl; [|auto].
    destruct (simplify_cases s) as [(es & _ & ->)|[_ ->]]; simpl; [|auto].
    case_decide; simpl; [auto|].
    destruct (simplify_cases (i ++ " + " ++ name))
      as [(e' & _ & ->)|[_ ->]]; simpl; [|auto].
    specialize (IH bis). destruct (zip_indices name ais bis (Some s))
      as [[? ?]|?]; simpl in *; done.
Qed.

Lemma zip_nodes_keeps_size_aux a : ∀ b name s,
  keeps_size s (zip_nodes a b name (Some s)).
Proof.
  induction a as [a_name a_indices| |a_items IH|a_size a_name a_body IH]
    using FormatNode_ind'; intros b name s.
  - destruct b; simpl; auto. case_decide; simpl; [auto|].
    pose proof (zip_indices_keeps_size name a_indices indices s) as Hk.
    destruct (zip_indices name a_indices indices (Some s)) as [[? ?]|?];
      simpl in *; done.
  - destruct b; simpl; auto.
  - destruct b as [| |b_items|]; try (simpl; auto; fail).
    rewrite zip_nodes_Sequence. case_decide; simpl; [auto|].
    assert (keeps_size s (zip_list name a_items b_items (Some s))) as Hk.
    { clear -IH. revert b_items.
      induction IH as [|x xs Hx _ IHxs]; intros [|y ys]; simpl; try done.
      specialize (Hx y name s).
      destruct (zip_nodes x y name (Some s)) as [[c s1]|e]; simpl in *;
        [subst s1|done].
      specialize (IHxs ys).
      destruct (zip_list name xs ys (Some s)) as [[? ?]|?]; simpl in *;
        done. }
    destruct (zip_list name a_items b_items (Some s)) as [[? ?]|?];
      simpl in *; done.
  - destruct b as [| | |b_size b_name b_body]; try (simpl; auto; fail).
    simpl. case_decide; simpl; [auto|].
    specialize (IH b_body name s).
    destruct (zip_nodes a_body b_body name (Some s)) as [[? ?]|?];
      simpl in *; done.
Qed.

(** C9.  Unification that starts with a trip count that is already set
    either raises (a [SyntaxError] of its own, or the exception of the
    symbolic engine on an expression it cannot read) or returns that
    same trip count: once set, the trip count passes through every
    recursive call unchanged. *)
Theorem zip_nodes_keeps_size (a b : FormatNode) (name s : string) :
  (∃ c, zip_nodes a b name (Some s) = Ok (c, Some s))
  ∨ zip_nodes a b name (Some s) = Raise SyntaxError
  ∨ zip_nodes a b name (Some s) = Raise EngineError.
Proof.
  pose proof (zip_nodes_keeps_size_aux a b name s) as Hk.
  destruct (zip_nodes a b name (Some s)) as [[c size]|e]; simpl in Hk.
  - left. exists c. by rewrite Hk.
  - destruct Hk as [-> | ->]; auto.
Qed.

End ZipFacts.

Section ExtendFacts.
Context `{Engine}.

Lemma exnted_loop_node_Sequence n xs ys :
  exnted_loop_node (SequenceNode xs) (SequenceNode ys) n =
  if decide (length xs ≠ length ys) then Ok None
  else items ← extend_list n xs ys;
       Ok (SequenceNode <$> (items : option (list FormatNode))).
Proof.
  simpl. case_decide; [done|]. f_equal.
  clear. revert ys. induction xs as [|x xs IH]; intros [|y ys];
    simpl; try done.
  destruct (exnted_loop_node x y n) as [[c|]|e]; simpl; try done.
  by rewrite IH.
Qed.

(** What a result of the extension says about [Extends]. *)
Definition extends_result {A : Type} (R : A → Prop)
    (r : outcome (option A)) : Prop :=
  match r with
  | Ok (Some c) => ∀ c', R c' ↔ c' = c
  | Ok None => ∀ c', ¬ R c'
  | Raise e => e = EngineError ∧ ∀ c', ¬ R c'
  end.

Lemma extend_indices_spec n ais : ∀ bis,
  length ais = length bis →
  extends_result (Forall3 (ExtendsIndex n) ais bis)
    (extend_indices n ais bis).
Proof.
  induction ais as [|i ais IH]; intros [|j bis] Hlen; simpl in *;
    try discriminate.
  { intros ks. split; [by inversion 1 | intros ->; constructor]. }
  injection Hlen as Hlen. specialize (IH bis Hlen).
  destruct (simplify_cases i) as [(ei & Hi & ->)|[Hi ->]]; simpl.
  2:{ split; [done|]. intros ks Hks. inversion Hks as [|? ? ? ? ? ? Hk _].
      destruct Hk as (? & ? & ? & _). congruence. }
  destruct (simplify_cases (decrement n j)) as [(ej & Hj & ->)|[Hj ->]];
    simpl.
  2:{ split; [done|]. intros ks Hks. inversion Hks as [|? ? ? ? ? ? Hk _].
      destruct Hk as (? & ? & ? & ? & _). congruence. }
  case_decide as Heq; simpl.
  2:{ intros ks Hks. inversion Hks as [|? ? ? ? ? ? Hk _].
      destruct Hk as (? & ? & ? & ? & _). congruence. }
  subst ej.
  destruct (simplify_cases (i ++ " + " ++ n)) as [(e' & He' & ->)|[He' ->]];
    simpl.
  2:{ split; [done|]. intros ks Hks. inversion Hks as [|? ? ? ? ? ? Hk _].
      destruct Hk as (? & ? & ? & ? & ? & _). congruence. }
  destruct (extend_indices n ais bis) as [[ks|]|e]; simpl in *.
  - intros ks'. split.
    + inversion 1 as [|? ? ? ? ? ? Hk Hks]; subst.
      destruct Hk as (? & ? & ? & ? & ? & ->).
      apply IH in Hks as ->. congruence.
    + intros ->. constructor; [|by apply IH]. by exists ei, e'.
  - intros ks' Hks. inversion Hks as [|? ? ? ? ? ? _ Hks']. by eapply IH.
  - destruct IH as [-> IH]. split; [done|].
    intros ks' Hks. inversion Hks as [|? ? ? ? ? ? _ Hks']. by eapply IH.
Qed.

Lemma exnted_loop_node_spec n a : ∀ b,
  extends_result (Extends n a b) (exnted_loop_node a b n).
Proof.
  induction a as [a_name a_indices| |a_items IH|a_size a_name a_body IH]
    using FormatNode_ind'; intros b.
  - destruct b as [b_name b_indices| | |];
      try (simpl; intros c'; by inversion 1).
    simpl. case_decide as Hne; simpl.
    { intros c'. inversion 1; subst.
      destruct Hne as [?|Hne]; [done|]. apply Hne.
      by eapply Forall3_length_lm. }
    apply Decidable.not_or in Hne as [Hn%dec_stable Hl%dec_stable]. subst b_name.
    pose proof (extend_indices_spec n a_indices b_indices Hl) as Hs.
    destruct (extend_indices n a_indices b_indices) as [[ks|]|e];
      simpl in *.
    + intros c'. split.
      * inversion 1; subst. f_equal. by apply Hs.
      * intros ->. constructor. by apply Hs.
    + intros c'. inversion 1; subst. by eapply Hs.
    + destruct Hs as [-> Hs]. split; [done|].
      intros c'. inversion 1; subst. by eapply Hs.
  - destruct b; simpl; try (intros c'; by inversion 1).
    intros c'. split; [by inversion 1 | intros ->; constructor].
  - destruct b as [| |b_items|]; try (simpl; intros c'; by inversion 1).
    rewrite exnted_loop_node_Sequence. case_decide as Hne; simpl.
    { intros c'. inversion 1; subst. apply Hne. by eapply Forall3_length_lm. }
    assert (extends_result (Forall3 (Extends n) a_items b_items)
              (extend_list n a_items b_items)) as Hs.
    { clear -IH Hne. revert b_items Hne.
      induction IH as [|x xs Hx _ IHxs]; intros [|y ys] Hlen; simpl in *;
        try discriminate.
      { intros zs. split; [by inversion 1 | intros ->; constructor]. }
      injection Hlen as Hlen. specialize (IHxs ys Hlen).
      specialize (Hx y).
      destruct (exnted_loop_node x y n) as [[c|]|e]; simpl in *.
      - destruct (extend_list n xs ys) as [[zs|]|e]; simpl in *.
        + intros zs'. split.
          * inversion 1 as [|? ? ? ? ? ? Hz Hzs]; subst.
            apply Hx in Hz as ->. by apply IHxs in Hzs as ->.
          * intros ->. constructor; [by apply Hx | by apply IHxs].
        + intros zs' Hzs. inversion Hzs as [|? ? ? ? ? ? _ Hzs'].
          by eapply IHxs.
        + destruct IHxs as [-> IHxs]. split; [done|].
          intros zs' Hzs. inversion Hzs as [|? ? ? ? ? ? _ Hzs'].
          by eapply IHxs.
      - intros zs' Hzs. inversion Hzs as [|? ? ? ? ? ? Hz _]. by eapply Hx.
      - destruct Hx as [-> Hx]. split; [done|].
        intros zs' Hzs. inversion Hzs as [|? ? ? ? ? ? Hz _]. by eapply Hx. }
    destruct (extend_list n a_items b_items) as [[zs|]|e]; simpl in *.
    + intros c'. split.
      * inversion 1; subst. f_equal. by apply Hs.
      * intros ->. constructor. by apply Hs.
    + intros c'. inversion 1; subst. by eapply Hs.
    + destruct Hs as [-> Hs]. split; [done|].
      intros c'. inversion 1; subst. by eapply Hs.
  - destruct b as [| | |b_size b_name b_body];
      try (simpl; intros c'; by inversion 1).
    simpl. case_decide as Hne; simpl.
    { intros c'. inversion 1; subst. by destruct Hne. }
    apply Decidable.not_or in Hne as [Hn%dec_stable Hl%dec_stable]. subst.
    specialize (IH b_body).
    destruct (exnted_loop_node a_body b_body n) as [[c|]|e]; simpl in *.
    + intros c'. split.
      * inversion 1; subst. f_equal. by apply IH.
      * intros ->. constructor. by apply IH.
    + intros c'. inversion 1; subst. by eapply IH.
    + destruct IH as [-> IH]. split; [done|].
      intros c'. inversion 1; subst. by eapply IH.
Qed.

Lemma exnted_loop_node_Extends n a b c :
  exnted_loop_node a b n = Ok (Some c) → Extends n a b c.
Proof.
  intros Hc. pose proof (exnted_loop_node_spec n a b) as Hs.
  rewrite Hc in Hs. by apply Hs.
Qed.

(** C5.  Loop extension has three outcomes: the no-match outcome
    ([Ok None]), an absorbed body, or the exception of the symbolic
    engine on an expression it cannot read; so it never raises a
    [LexerError], a [ParserError] or a [SyntaxError].  It returns an
    absorbed body [c] exactly when [a] and [b] agree in kind, name and
    arity at every node and every index position extends ([Extends]), and
    then [c] is the whole body reindexed: a mismatch anywhere never
    yields a partly merged tree. *)
Theorem exnted_loop_node_outcomes (a b : FormatNode) (loop_name : string) :
  (exnted_loop_node a b loop_name = Ok None
   ∨ (∃ c, exnted_loop_node a b loop_name = Ok (Some c))
   ∨ exnted_loop_node a b loop_name = Raise EngineError)
  ∧ (∀ c, exnted_loop_node a b loop_name = Ok (Some c)
          ↔ Extends loop_name a b c).
Proof.
  pose proof (exnted_loop_node_spec loop_name a b) as Hs.
  destruct (exnted_loop_node a b loop_name) as [[c|]|e]; simpl in Hs.
  - split; [eauto|]. intros c'. rewrite Hs. split; congruence.
  - split; [eauto|]. intros c'. split; [done|]. intros Hc. by apply Hs in Hc.
  - destruct Hs as [-> Hs]. split; [eauto|].
    intros c'. split; [done|]. intros Hc. by apply Hs in Hc.
Qed.

End ExtendFacts.

Section MergeFacts.
Context `{Engine}.

Lemma weight_Sequence items :
  weight (SequenceNode items) = S (sum_list_with weight items).
Proof.
  reflexivity.
Qed.

Lemma weight_pos t : (1 ≤ weight t)%nat.
Proof. destruct t; simpl; lia. Qed.

Lemma queue_fuel_app items xs ys :
  queue_fuel items (xs ++ ys)
  = (2 * sum_list_with weight xs + queue_fuel items ys)%nat.
Proof. unfold queue_fuel. rewrite sum_list_with_app. lia. Qed.

Lemma slice_init_tail k items :
  (k ≤ length items)%nat →
  (slice_init k items ++ slice_tail k items)%list = items.
Proof.
  intros Hk. destruct k; simpl; [done|]. apply take_drop.
Qed.

Lemma slice_init_length k items :
  (k ≤ length items)%nat →
  length (slice_init k items) = (match k with
                                 | O => 0
                                 | _ => length items - k
                                 end)%nat.
Proof. intros Hk. destruct k; simpl; [done|]. rewrite length_take. lia. Qed.

(** The siblings that [split_items] takes from the end of [items]. *)
Lemma split_items_group items body items_init items_tail :
  items ≠ [] →
  split_items items body = (items_init, items_tail) →
  ∃ group, items = (items_init ++ group)%list ∧ group ≠ []
           ∧ (group = [items_tail] ∨ items_tail = SequenceNode group).
Proof.
  intros Hne Hsplit.
  assert (∃ x, slice_tail 1 items = [x] ∧ List.last items NewlineNode = x)
    as (x & Hx1 & Hx2).
  { destruct items as [|y ys] using rev_ind; [done|].
    exists y. rewrite List.last_last. split; [|done].
    unfold slice_tail. rewrite length_app. simpl.
    replace (length ys + 1 - 1)%nat with (length ys) by lia.
    by rewrite drop_app_length. }
  assert ((slice_init 1 items ++ [x])%list = items) as Hsingle.
  { rewrite <- Hx1. apply slice_init_tail. destruct items; [done|simpl; lia]. }
  unfold split_items in Hsplit.
  destruct body as [| |body_items|];
    try (injection Hsplit as <- <-; exists [x]; subst; by auto).
  case_decide as Hle.
  - injection Hsplit as <- <-.
    exists (slice_tail (length body_items) items).
    split; [by rewrite slice_init_tail|]. split; [|by right].
    intros Hnil. pose proof (slice_init_tail _ _ Hle) as Heq.
    rewrite Hnil, app_nil_r in Heq.
    destruct (length body_items) eqn:Hk; simpl in *; [by subst|].
    apply (f_equal length) in Heq. rewrite length_take in Heq.
    destruct items; [done|simpl in *; lia].
  - injection Hsplit as <- <-. exists [x]. subst. by auto.
Qed.

Lemma split_items_length items body items_init items_tail :
  items ≠ [] →
  split_items items body = (items_init, items_tail) →
  (length items_init < length items)%nat.
Proof.
  intros Hne Hsplit.
  destruct (split_items_group _ _ _ _ Hne Hsplit) as (g & -> & Hg & _).
  rewrite length_app. destruct g; [done|simpl; lia].
Qed.

Lemma exnted_loop_node_Raise a b n e :
  exnted_loop_node a b n = Raise e → e = EngineError.
Proof.
  intros Heq. pose proof (exnted_loop_node_spec n a b) as Hs.
  rewrite Heq in Hs. by destruct Hs.
Qed.

(** [queue_fuel] steps are enough for the loop: it stops by itself, and
    the only exception that can leave it is the engine's. *)
Lemma merge_loop_terminates fuel : ∀ items que e,
  (queue_fuel items que ≤ fuel)%nat →
  merge_loop fuel items que = Raise e → e = EngineError.
Proof.
  induction fuel as [|fuel IH]; intros items [|item que] e Hfuel;
    simpl; try discriminate.
  { unfold queue_fuel in Hfuel. simpl in Hfuel.
    pose proof (weight_pos item). lia. }
  assert (queue_fuel (items ++ [item]) que ≤ fuel)%nat as Hpush.
  { revert Hfuel. unfold queue_fuel. rewrite length_app. simpl.
    pose proof (weight_pos item). lia. }
  destruct item as [name indices| |item_items|size name body];
    try (by apply IH).
  - apply IH. unfold queue_fuel in *. rewrite sum_list_with_app.
    change (sum_list_with weight (SequenceNode item_items :: que))
      with (weight (SequenceNode item_items) + sum_list_with weight que)%nat
      in Hfuel.
    rewrite weight_Sequence in Hfuel. lia.
  - destruct items as [|x xs]; [by apply IH|].
    destruct (split_items (x :: xs) body) as [items_init items_tail]
      eqn:Hsplit.
    apply split_items_length in Hsplit as Hlen; [|done].
    destruct (exnted_loop_node items_tail body name) as [[c|]|e'] eqn:Hext;
      simpl.
    + destruct (simplify_cases (size ++ " + 1")) as [(e1 & _ & ->)|[_ ->]];
        simpl; [|congruence].
      apply IH. revert Hfuel Hlen. unfold queue_fuel. simpl. lia.
    + by apply IH.
    + intros [= ->]. by eapply exnted_loop_node_Raise.
Qed.



End MergeFacts.

Section CounterFacts.
Context `{Engine}.

Lemma find_counter_Ok k used name :
  find_counter k used = Ok name →
  (name ∉ used)
  ∧ (∃ j, (j ≤ k)%nat ∧ name = counter_name j
          ∧ ∀ j', (j < j' ≤ k)%nat → counter_name j' ∈ used).
Proof.
  induction k as [|k IH]; simpl; case_decide as Hin; try discriminate.
  - intros [= <-]. split; [done|]. exists 0%nat. split; [done|].
    split; [done|]. intros j' ?. lia.
  - intros Hk. destruct (IH Hk) as (Hn & j & Hj & -> & Hused).
    split; [done|]. exists j. split; [lia|]. split; [done|].
    intros j' Hj'. destruct (decide (j' = S k)) as [->|]; [done|].
    apply Hused. lia.
  - intros [= <-]. split; [done|]. exists (S k). split; [done|].
    split; [done|]. intros j' ?. lia.
Qed.

Lemma find_counter_Raise k used :
  (∀ j, (j ≤ k)%nat → counter_name j ∈ used) →
  find_counter k used = Raise AssertionError.
Proof.
  induction k as [|k IH]; intros Hused; simpl.
  - rewrite decide_True; [done|]. by apply Hused.
  - rewrite decide_True by (by apply Hused). apply IH.
    intros j ?. apply Hused. lia.
Qed.

Lemma list_used_names_Sequence items :
  list_used_names (SequenceNode items) = ⋃ (list_used_names <$> items).
Proof. simpl. induction items as [|x xs IH]; simpl; [done|]. by rewrite IH. Qed.

Lemma zip_nodes_names a : ∀ b name size c size',
  zip_nodes a b name size = Ok (c, size') →
  list_used_names c = list_used_names a ∧ (Scoped a → Scoped c).
Proof.
  induction a as [a_name a_indices| |a_items IH|a_size a_name a_body IH]
    using FormatNode_ind'; intros b name size c size'.
  - destruct b; simpl; try discriminate. case_decide; [discriminate|].
    intros (? & ? & Hc)%bind_Ok. destruct x. injection Hc as <- <-.
    split; [done|]. constructor.
  - destruct b; simpl; try discriminate. by intros [= <- <-].
  - destruct b as [| |b_items|]; try discriminate.
    rewrite zip_nodes_Sequence. case_decide as Hlen; [discriminate|].
    intros ([items s1] & Hz & [= <- <-])%bind_Ok.
    rewrite !list_used_names_Sequence.
    assert (list_used_names <$> items = list_used_names <$> a_items
            ∧ (Forall Scoped a_items → Forall Scoped items)) as [-> Hsc].
    { clear -IH Hz Hlen. revert b_items size items s1 Hz Hlen.
      induction IH as [|x xs Hx _ IHxs]; intros [|y ys] size items s1;
        simpl; try discriminate.
      { by intros [= <- <-]. }
      intros ([c s2] & Hc & ([cs s3] & Hcs & [= <- <-])%bind_Ok)%bind_Ok.
      intros [= Hlen].
      destruct (Hx _ _ _ _ _ Hc) as [Heq1 Hsc].
      destruct (IHxs _ _ _ _ Hcs Hlen) as [Heq Hscs].
      rewrite !fmap_cons, Heq1, Heq.
      split; [done|]. intros [??]%Forall_cons. constructor; auto. }
    split; [done|]. inversion 1; subst. constructor. auto.
  - destruct b as [| | |b_size b_name b_body]; try discriminate.
    simpl. case_decide; [discriminate|].
    intros ([c' s1] & Hz & [= <- <-])%bind_Ok.
    destruct (IH _ _ _ _ _ Hz) as [Heq Hsc]. simpl. rewrite Heq.
    split; [done|]. inversion 1; subst. constructor; [by rewrite Heq|auto].
Qed.

Lemma Extends_names n a : ∀ b c,
  Extends n a b c →
  list_used_names c = list_used_names a
  ∧ list_used_names b = list_used_names a
  ∧ (Scoped a → Scoped c).
Proof.
  induction a as [a_name a_indices| |a_items IH|a_size a_name a_body IH]
    using FormatNode_ind'; intros b c; inversion 1; subst.
  - repeat split; constructor.
  - done.
  - rewrite !list_used_names_Sequence.
    assert (list_used_names <$> zs = list_used_names <$> a_items
            ∧ list_used_names <$> ys = list_used_names <$> a_items
            ∧ (Forall Scoped a_items → Forall Scoped zs)) as (-> & -> & Hsc).
    { match goal with HF : Forall3 _ _ _ _ |- _ =>
        clear -IH HF; induction HF as [|x y z xs ys zs Hxyz _ IHF] end;
        [done|].
      apply Forall_cons in IH as [Hx Hxs].
      destruct (Hx _ _ Hxyz) as (Hz1 & Hy1 & Hsc).
      destruct (IHF Hxs) as (Hz & Hy & Hscs).
      rewrite !fmap_cons, Hz1, Hy1, Hz, Hy.
      repeat split. intros [??]%Forall_cons. constructor; auto. }
    repeat split. inversion 1; subst. constructor. auto.
  - match goal with HE : Extends _ _ _ _ |- _ =>
      destruct (IH _ _ HE) as (Hc & Hb & Hsc) end.
    simpl. rewrite Hc, Hb. repeat split.
    inversion 1; subst. constructor; [by rewrite Hc|auto].
Qed.

Lemma Scoped_split_items items body items_init items_tail :
  items ≠ [] → Forall Scoped items →
  split_items items body = (items_init, items_tail) →
  Forall Scoped items_init ∧ Scoped items_tail.
Proof.
  intros Hne Hsc Hsplit.
  destruct (split_items_group _ _ _ _ Hne Hsplit) as (g & -> & _ & Hg).
  apply Forall_app in Hsc as [Hi Hg'].
  split; [done|]. destruct Hg as [-> | ->].
  - by inversion Hg'.
  - by constructor.
Qed.

Lemma merge_loop_Scoped fuel : ∀ items que r,
  Forall Scoped items → Forall Scoped que →
  merge_loop fuel items que = Ok r → Forall Scoped r.
Proof.
  induction fuel as [|fuel IH]; intros items [|item que] r Hitems Hque;
    simpl; try discriminate; try (by intros [= <-]).
  apply Forall_cons in Hque as [Hitem Hque].
  assert (Forall Scoped (items ++ [item])) as Hpush.
  { apply Forall_app. split; [done|]. by repeat constructor. }
  destruct item as [name indices| |item_items|size name body];
    try (by apply IH).
  - apply IH; [done|]. apply Forall_app. split; [|done]. by inversion Hitem.
  - destruct items as [|x xs]; [by apply IH|].
    destruct (split_items (x :: xs) body) as [items_init items_tail]
      eqn:Hsplit.
    destruct (Scoped_split_items (x :: xs) body items_init items_tail)
      as [Hinit Htail]; [done..|].
    destruct (exnted_loop_node items_tail body name) as [[c|]|e'] eqn:Hext;
      simpl; [|by apply IH|discriminate].
    destruct (simplify (size ++ " + 1")) as [e1|]; simpl; [|discriminate].
    apply IH; [done|]. constructor; [|done].
    apply exnted_loop_node_Extends in Hext.
    destruct (Extends_names _ _ _ _ Hext) as (Hc & Hb & Hsc).
    inversion Hitem; subst. constructor; [|auto]. by rewrite Hc, <- Hb.
Qed.

Lemma analyze_Sequence items :
  analyze (SequenceParserNode items) =
  que ← analyze_list items; analyze_sequence que.
Proof.
  simpl. f_equal.
Qed.

Lemma analyze_dots_Ok a b t :
  analyze_dots a b = Ok t →
  ∃ size name body k,
    t = LoopNode size name body
    ∧ zip_nodes a b name None = Ok (body, Some size)
    ∧ (k ≤ 17)%nat ∧ name = counter_name k
    ∧ (∀ k', (k < k' ≤ 17)%nat →
             counter_name k' ∈ list_used_names a ∪ list_used_names b)
    ∧ name ∉ list_used_names a ∪ list_used_names b.
Proof.
  unfold analyze_dots.
  intros (name & Hname & ([c [size|]] & Hz & Ht)%bind_Ok)%bind_Ok;
    [|discriminate].
  injection Ht as <-.
  destruct (find_counter_Ok _ _ _ Hname) as (Hfresh & k & Hk & -> & Hused).
  by exists size, (counter_name k), c, k.
Qed.

Lemma analyze_Scoped node : ∀ t, analyze node = Ok t → Scoped t.
Proof.
  induction node as [items IH| |name indices|first last IHf IHl]
    using ParserNode_ind'; intros t.
  - rewrite analyze_Sequence.
    intros (que & Hque & Hseq)%bind_Ok.
    assert (Forall Scoped que) as Hsc.
    { clear -IH Hque. revert que Hque.
      induction IH as [|x xs Hx _ IHxs]; intros que; simpl.
      - by intros [= <-].
      - intros (y & Hy & (ys & Hys & [= <-])%bind_Ok)%bind_Ok.
        constructor; auto. }
    unfold analyze_sequence in Hseq.
    apply bind_Ok in Hseq as (r & Hr & Ht).
    apply merge_loop_Scoped in Hr; [|done..].
    destruct r as [|t1 [|t2 r]]; injection Ht as <-.
    + by constructor.
    + by inversion Hr.
    + by constructor.
  - simpl. intros [= <-]. constructor.
  - simpl. destruct indices; [|discriminate].
    intros (? & _ & [= <-])%bind_Ok. constructor.
  - simpl. intros (a & Ha & (b & Hb & Hd)%bind_Ok)%bind_Ok.
    apply analyze_dots_Ok in Hd
      as (size & name & body & k & -> & Hz & _ & _ & _ & Hfresh).
    destruct (zip_nodes_names _ _ _ _ _ _ Hz) as [Hnames Hsc].
    constructor; [|by auto].
    rewrite Hnames. intros Hin. apply Hfresh. by apply elem_of_union_l.
Qed.

Lemma find_counter_Raise_inv k used e :
  find_counter k used = Raise e →
  e = AssertionError ∧ ∀ j, (j ≤ k)%nat → counter_name j ∈ used.
Proof.
  induction k as [|k IH]; simpl; case_decide as Hin; try discriminate.
  - intros [= <-]. split; [done|]. intros j Hj.
    by replace j with 0%nat by lia.
  - intros Hk. destruct (IH Hk) as [-> Hused]. split; [done|].
    intros j Hj. destruct (decide (j = S k)) as [->|]; [done|].
    apply Hused. lia.
Qed.

Lemma analyze_dots_unify a b name :
  find_counter 17 (list_used_names a ∪ list_used_names b) = Ok name →
  analyze_dots a b = unify a b name.
Proof. unfold analyze_dots, unify. by intros ->. Qed.

(** C6 (as amended).  For a dots pair whose two operands analyze to [a]
    and [b], the names in scope are those that [list_used_names]
    collects from [a] and [b]: the names of their items and the counters
    of the loops inside them.  The scan starts at ['i']
    ([counter_name 17]) and stops at ['z'] ([counter_name 0]).  When
    every letter of the scan is in scope the [assert] fails: an
    [AssertionError], none of the three errors of the analyzer.
    Otherwise the counter is the first letter of the scan that is not in
    scope, the two operands are unified with it, and a tree that
    results is the loop with that counter, which is none of the names
    used in its body; with ["i"] and ["j"] in scope the counter is
    neither.  In every tree that [analyze] returns each loop's counter
    differs from every name used inside that loop ([Scoped]).  Names
    used outside the dots pair are not looked at. *)
Theorem analyze_counter_fresh (first last : ParserNode) (a b : FormatNode) :
  analyze first = Ok a → analyze last = Ok b →
  let used := list_used_names a ∪ list_used_names b in
  (((∀ k, (k ≤ 17)%nat → counter_name k ∈ used)
    ∧ analyze (DotsParserNode first last) = Raise AssertionError)
   ∨ (∃ k, (k ≤ 17)%nat ∧ (counter_name k ∉ used)
           ∧ (∀ k', (k < k' ≤ 17)%nat → counter_name k' ∈ used)
           ∧ analyze (DotsParserNode first last)
             = unify a b (counter_name k)
           ∧ (∀ t, analyze (DotsParserNode first last) = Ok t →
                   ∃ size body,
                     t = LoopNode size (counter_name k) body
                     ∧ counter_name k ∉ list_used_names body)
           ∧ ("i" ∈ used → "j" ∈ used →
              (counter_name k ≠ "i") ∧ (counter_name k ≠ "j"))))
  ∧ (∀ node t, analyze node = Ok t → Scoped t).
Proof.
  intros Ha Hb used. split; [|apply analyze_Scoped].
  assert (analyze (DotsParserNode first last) = analyze_dots a b) as Hdots
    by (simpl; by rewrite Ha, Hb).
  destruct (find_counter 17 used) as [name|e] eqn:Hfind.
  - right.
    destruct (find_counter_Ok _ _ _ Hfind) as (Hfresh & k & Hk & -> & Hused).
    exists k. do 3 (split; [done|]).
    split; [by rewrite Hdots, (analyze_dots_unify a b (counter_name k))|].
    split.
    + intros t Ht. pose proof (analyze_Scoped _ _ Ht) as Hsc.
      rewrite Hdots in Ht. unfold analyze_dots in Ht. fold used in Ht.
      rewrite Hfind in Ht. simpl in Ht.
      apply bind_Ok in Ht as ([c [size|]] & _ & Ht); [|discriminate].
      injection Ht as <-. exists size, c. split; [done|].
      by inversion Hsc.
    + intros Hi Hj. split; intros Heq; rewrite Heq in Hfresh; done.
  - left. destruct (find_counter_Raise_inv _ _ _ Hfind) as [-> Hall].
    split; [done|]. rewrite Hdots. unfold analyze_dots. fold used.
    by rewrite Hfind.
Qed.

End CounterFacts.

(** ** The model of the symbolic engine *)

Module SympyFacts.
Import Sympy.

(** *** Every expression read is canonical *)

Lemma canon_weaken lo lo' ts : (lo' ≤ lo)%N → canon lo ts → canon lo' ts.
Proof. destruct ts as [|[x c] ts]; simpl; [done|]. intros ? (?&?&?&?).
  repeat split; try done. lia. Qed.

Lemma add_term_canon ts : ∀ lo x c,
  canon lo ts → (lo ≤ sym_code x)%N → c ≠ 0%Z → valid_sym x = true →
  canon lo (add_term x c ts).
Proof.
  induction ts as [|[y d] ts IH]; intros lo x c Hts Hlo Hc Hx; simpl in *.
  { done. }
  destruct Hts as (Hy & Hd & Hvy & Hts).
  destruct (N.ltb_spec (sym_code x) (sym_code y)) as [Hlt|Hge]; simpl.
  { repeat split; try done. lia. }
  destruct (N.eqb_spec (sym_code x) (sym_code y)) as [Heq|Hne].
  - destruct (Z.eqb_spec (c + d) 0); simpl.
    + eapply canon_weaken; [|done]. lia.
    + done.
  - repeat split; try done. apply IH; try done. lia.
Qed.

Lemma canon_Forall lo ts :
  canon lo ts → Forall (λ t, t.2 ≠ 0%Z ∧ valid_sym t.1 = true) ts.
Proof.
  revert lo. induction ts as [|[x c] ts IH]; intros lo; simpl; [done|].
  intros (?&?&?&?). constructor; eauto.
Qed.

Lemma add_canonical a b : canonical a → canonical b → canonical (add a b).
Proof.
  unfold canonical, add. simpl. intros Ha Hb.
  apply canon_Forall in Hb.
  induction Hb as [|[x c] tb [Hc Hx] _ IH]; simpl; [done|].
  apply add_term_canon; [done|lia|done..].
Qed.

Lemma canon_map (f : Z → Z) lo ts :
  Forall (λ t, f t.2 ≠ 0%Z) ts → canon lo ts →
  canon lo ((λ t, (t.1, f t.2)) <$> ts).
Proof.
  intros Hf. revert lo. induction Hf as [|[x c] ts Hc _ IH]; intros lo;
    simpl; [done|].
  intros (?&?&?&?). repeat split; auto.
Qed.

Lemma neg_canonical a : canonical a → canonical (neg a).
Proof.
  unfold canonical, neg. simpl. intros Ha. apply canon_map; [|done].
  eapply Forall_impl; [by eapply canon_Forall|]. simpl. intros t [? _]. lia.
Qed.

Lemma sub_canonical a b : canonical a → canonical b → canonical (sub a b).
Proof. intros. by apply add_canonical, neg_canonical. Qed.

Lemma scale_canonical k a : canonical a → canonical (scale k a).
Proof.
  unfold canonical, scale. intros Ha.
  destruct (Z.eqb_spec k 0); simpl; [done|]. apply canon_map; [|done].
  eapply Forall_impl; [by eapply canon_Forall|]. simpl. intros t [? _]. nia.
Qed.

Lemma mul_canonical a b v :
  mul a b = Some v → canonical a → canonical b → canonical v.
Proof.
  unfold mul. intros Hv Ha Hb.
  destruct (terms a), (terms b); simplify_eq; by apply scale_canonical.
Qed.

Lemma div_canonical a b v :
  div a b = Some v → canonical a → canonical v.
Proof.
  unfold div, canonical. intros Hv Ha.
  destruct (terms b); [|done].
  destruct (Z.eqb_spec (const b) 0) as [|Hk]; [done|].
  destruct (forallb _ _) eqn:Hall; simpl in Hv; [|done].
  destruct (Z.eqb_spec (const a mod const b) 0); [|done].
  injection Hv as <-. simpl.
  apply (canon_map (λ c, (c `div` const b)%Z)); [|done].
  apply canon_Forall in Ha. rewrite List.forallb_forall in Hall.
  apply Forall_forall. intros t Ht.
  rewrite Forall_forall in Ha. destruct (Ha t Ht) as [Hc _].
  apply list_elem_of_In, Hall, Z.eqb_eq in Ht. intros Hq.
  pose proof (Z.div_mod t.2 (const b) Hk). nia.
Qed.

Lemma op_tok_ok c t : op_tok c = Some t → tok_ok t.
Proof. unfold op_tok. repeat case_match; by intros [= <-]. Qed.

Lemma emit_ok num ts ts' :
  emit num ts = Some ts' →
  (∀ l, ts = Some l → Forall tok_ok l) → Forall tok_ok ts'.
Proof.
  destruct num as [n|]; simpl; [|by auto].
  destruct ts as [l|]; simpl; [|done]. intros [= <-] Hl.
  constructor; [done|auto].
Qed.

Lemma lex_ok s : ∀ num ts, lex num s = Some ts → Forall tok_ok ts.
Proof.
  induction s as [|c s IH]; intros num ts; simpl.
  { intros Hts. eapply emit_ok; [done|]. by intros l [= <-]. }
  repeat case_match; try done; try (by apply IH); intros Hts;
    (eapply emit_ok; [done|]); intros l Hl;
    try (by eapply IH);
    apply fmap_Some in Hl as (l' & Hl' & ->);
    (constructor; [|by eapply IH]).
  - by eapply op_tok_ok.
  - simpl. by destruct (valid_sym c).
Qed.

Definition parsed_ok (ts : list tok) (r : option (lin * list tok)) : Prop :=
  ∀ v rest, r = Some (v, rest) →
    Forall tok_ok ts → canonical v ∧ Forall tok_ok rest.

Lemma parser_ok fuel :
  (∀ ts, parsed_ok ts (p_factor fuel ts))
  ∧ (∀ acc ts, canonical acc → parsed_ok ts (p_term_rest fuel acc ts))
  ∧ (∀ ts, parsed_ok ts (p_term fuel ts))
  ∧ (∀ acc ts, canonical acc → parsed_ok ts (p_arith_rest fuel acc ts))
  ∧ (∀ ts, parsed_ok ts (p_arith fuel ts)).
Proof.
  induction fuel as [|fuel (IHf & IHtr & IHt & IHar & IHa)];
    [unfold parsed_ok; repeat split; intros; simpl in *; discriminate|].
  split; [|split; [|split; [|split]]].
  - intros [|[] ts] v rest Hr Hts; simpl in Hr; try done;
      apply Forall_cons in Hts as [Ht Hts].
    + injection Hr as <- <-. by split.
    + injection Hr as <- <-. split; [|done].
      unfold canonical. simpl. repeat split; [lia|done|done].
    + by eapply IHf.
    + destruct (p_factor fuel ts) as [[v' r']|] eqn:Hf; [|done].
      injection Hr as <- <-. destruct (IHf _ _ _ Hf Hts).
      split; [by apply neg_canonical|done].
    + destruct (p_arith fuel ts) as [[v' r']|] eqn:Ha; [|done].
      destruct (IHa _ _ _ Ha Hts) as [? Hr'].
      destruct r' as [|[] r']; try done. injection Hr as <- <-.
      by apply Forall_cons in Hr' as [_ ?].
  - intros acc [|t ts] Hacc v rest Hr Hts; simpl in Hr.
    { by injection Hr as <- <-. }
    destruct t; try (by injection Hr as <- <-);
      apply Forall_cons in Hts as [Ht Hts];
      (destruct (p_factor fuel ts) as [[v' r']|] eqn:Hf; [|done]); simpl in Hr;
      destruct (IHf _ _ _ Hf Hts) as [Hv' Hr'].
    + destruct (mul acc v') as [acc'|] eqn:Hm; [|done]. simpl in Hr.
      eapply IHtr; [|done..]. by eapply mul_canonical.
    + destruct (div acc v') as [acc'|] eqn:Hd; [|done]. simpl in Hr.
      eapply IHtr; [|done..]. by eapply div_canonical.
  - intros ts v rest Hr Hts. simpl in Hr.
    destruct (p_factor fuel ts) as [[v' r']|] eqn:Hf; [|done]. simpl in Hr.
    destruct (IHf _ _ _ Hf Hts) as [Hv' Hr']. by eapply IHtr.
  - intros acc [|t ts] Hacc v rest Hr Hts; simpl in Hr.
    { by injection Hr as <- <-. }
    destruct t; try (by injection Hr as <- <-);
      apply Forall_cons in Hts as [Ht Hts];
      (destruct (p_term fuel ts) as [[v' r']|] eqn:Hf; [|done]); simpl in Hr;
      destruct (IHt _ _ _ Hf Hts) as [Hv' Hr'].
    + eapply IHar; [|done..]. by apply add_canonical.
    + eapply IHar; [|done..]. by apply sub_canonical.
  - intros ts v rest Hr Hts. simpl in Hr.
    destruct (p_term fuel ts) as [[v' r']|] eqn:Hf; [|done]. simpl in Hr.
    destruct (IHt _ _ _ Hf Hts) as [Hv' Hr']. by eapply IHar.
Qed.

Lemma parse_expr_canonical s a : parse_expr s = Some a → canonical a.
Proof.
  unfold parse_expr. intros Ha.
  destruct (lex None s) as [ts|] eqn:Hlex; [|done]. simpl in Ha.
  destruct (p_arith _ ts) as [[v rest]|] eqn:Hp; [|done]. simpl in Ha.
  destruct rest; [|done]. injection Ha as <-.
  eapply parser_ok; [done|]. by eapply lex_ok.
Qed.

(** *** Reading back what [str] prints *)

Lemma append_cons c (s1 s2 : string) :
  String c s1 ++ s2 = String c (s1 ++ s2).
Proof. reflexivity. Qed.

Lemma append_nil_l (s : string) : "" ++ s = s.
Proof. reflexivity. Qed.

Lemma append_assoc (s1 s2 s3 : string) : (s1 ++ s2) ++ s3 = s1 ++ s2 ++ s3.
Proof.
  induction s1 as [|c s1 IH]; [done|]. rewrite !append_cons. by f_equal.
Qed.

Lemma append_nil_r (s : string) : s ++ "" = s.
Proof. induction s as [|c s IH]; [done|]. rewrite append_cons. by f_equal. Qed.

Ltac simpl_app := rewrite ?append_cons, ?append_nil_l.

Definition no_digit_head (s : string) : Prop :=
  match s with
  | String c _ => is_digit c = false
  | EmptyString => True
  end.

Lemma lex_flush n s :
  no_digit_head s → lex (Some n) s = emit (Some n) (lex None s).
Proof.
  destruct s as [|c s]; simpl; [done|]. intros ->.
  destruct (Ascii.eqb c " "); [done|].
  destruct (op_tok c); [done|]. by destruct (_ && _).
Qed.

Lemma lex_digit_step c q s :
  is_digit c = true →
  lex (Some (Npos q)) (String c s)
  = lex (Some (10 * Npos q + digit_value c)%N) s.
Proof. intros Hc. simpl. by rewrite Hc. Qed.

Lemma lex_digits l : ∀ q rest,
  no_digit_head rest →
  lex (Some (Npos q)) (NilEmpty.string_of_uint l ++ rest)
  = emit (Some (Npos (Pos.of_uint_acc l q))) (lex None rest).
Proof.
  induction l; intros q rest Hrest; simpl NilEmpty.string_of_uint;
    [by apply lex_flush|..];
    cbn [Pos.of_uint_acc]; rewrite <- IHl by done;
    rewrite append_cons, lex_digit_step by done;
    do 2 f_equal; vm_compute digit_value; lia.
Qed.

Lemma nzhead_not_D0 d d' : Decimal.nzhead d ≠ Decimal.D0 d'.
Proof. induction d; simpl; congruence. Qed.

Lemma lex_first_digit c s :
  is_digit c = true →
  lex None (String c s) = lex (Some (digit_value c)) s.
Proof. intros Hc. simpl. by rewrite Hc. Qed.

Lemma lex_print_N n rest :
  no_digit_head rest →
  lex None (print_N n ++ rest) = emit (Some n) (lex None rest).
Proof.
  intros Hrest. destruct n as [|p].
  { change (print_N 0) with "0". rewrite append_cons, append_nil_l.
    rewrite lex_first_digit by done. by apply (lex_flush 0). }
  unfold print_N. simpl N.to_uint.
  pose proof (DecimalPos.Unsigned.of_to p) as Hof.
  pose proof (DecimalPos.Unsigned.to_of (Pos.to_uint p)) as Hto.
  rewrite Hof in Hto. simpl in Hto.
  destruct (Pos.to_uint p) as [|l|l|l|l|l|l|l|l|l|l] eqn:Hd;
    simpl in Hof; try discriminate;
    try (injection Hof as <-; simpl NilEmpty.string_of_uint;
         rewrite append_cons, lex_first_digit by done;
         by apply lex_digits).
  exfalso. unfold Decimal.unorm in Hto. simpl in Hto.
  destruct (Decimal.nzhead l) eqn:Hn; try discriminate.
  - injection Hto as ->. simpl in Hof. discriminate.
  - by eapply nzhead_not_D0.
Qed.

Lemma valid_sym_not_digit x : valid_sym x = true → is_digit x = false.
Proof.
  unfold valid_sym, is_letter, is_digit.
  intros [Hl _]%andb_prop. revert Hl. generalize (N_of_ascii x). intros n.
  destruct (N.leb_spec 48 n), (N.leb_spec n 57), (N.leb_spec 65 n),
    (N.leb_spec n 90), (N.leb_spec 97 n), (N.leb_spec n 122);
    simpl; try done; lia.
Qed.

Lemma valid_sym_lex x s ts :
  valid_sym x = true → word_at (head_char s) = false →
  lex None s = Some ts →
  lex None (String x s) = Some (TSym x :: ts).
Proof.
  intros Hx Hs Hts. simpl. rewrite (valid_sym_not_digit x Hx).
  assert (is_letter x = true) as Hl by (by apply andb_prop in Hx as [? _]).
  destruct (Ascii.eqb_spec x " ") as [->|_]; [done|].
  unfold op_tok.
  destruct (Ascii.eqb_spec x "+") as [->|_]; [done|].
  destruct (Ascii.eqb_spec x "-") as [->|_]; [done|].
  destruct (Ascii.eqb_spec x "*") as [->|_]; [done|].
  destruct (Ascii.eqb_spec x "/") as [->|_]; [done|].
  destruct (Ascii.eqb_spec x "(") as [->|_]; [done|].
  destruct (Ascii.eqb_spec x ")") as [->|_]; [done|].
  by rewrite Hx, Hs, Hts.
Qed.

Lemma lex_infix c s ts :
  lex None s = Some ts →
  lex None (infix_sign c ++ s) = Some (tok_sign c :: ts).
Proof.
  intros Hts. unfold infix_sign, tok_sign.
  destruct (c <? 0)%Z; simpl_app; simpl; by rewrite Hts.
Qed.

Lemma lex_prefix c s ts :
  lex None s = Some ts →
  lex None (prefix_sign c ++ s) = Some (tok_prefix c ++ ts)%list.
Proof.
  intros Hts. unfold prefix_sign, tok_prefix.
  destruct (c <? 0)%Z; simpl_app; simpl; by rewrite Hts.
Qed.

Lemma lex_term x c s ts :
  valid_sym x = true → word_at (head_char s) = false →
  lex None s = Some ts →
  lex None (print_term x c ++ s) = Some (tok_term x c ++ ts)%list.
Proof.
  intros Hx Hs Hts. unfold print_term, tok_term.
  destruct (Z.abs c =? 1)%Z; simpl_app; [by apply valid_sym_lex|].
  rewrite append_assoc, lex_print_N by done. simpl_app.
  pose proof (valid_sym_lex x s ts Hx Hs Hts) as Hlex.
  change (lex None (String "*" (String x s)))
    with (cons TMul <$> lex None (String x s)).
  by rewrite Hlex.
Qed.

Lemma print_rest_head ts c0 : word_at (head_char (print_rest ts c0)) = false.
Proof.
  destruct ts as [|[x c] ts]; simpl.
  - destruct (c0 =? 0)%Z; [done|]. unfold infix_sign. by destruct (c0 <? 0)%Z.
  - unfold infix_sign. by destruct (c <? 0)%Z.
Qed.

Lemma lex_print_rest ts c0 : ∀ lo,
  canon lo ts → lex None (print_rest ts c0) = Some (tok_rest ts c0).
Proof.
  induction ts as [|[x c] ts IH]; intros lo; simpl.
  - intros _. destruct (c0 =? 0)%Z; [done|].
    apply lex_infix. rewrite <- (append_nil_r (print_N _)).
    by rewrite lex_print_N.
  - intros (_ & _ & Hx & Hts). apply lex_infix.
    apply lex_term; [done|apply print_rest_head|by eapply IH].
Qed.

Lemma lex_str a : canonical a → lex None (str a) = Some (toks a).
Proof.
  unfold canonical, str, toks. destruct (terms a) as [|[x c] ts]; simpl.
  - intros _. apply lex_prefix. rewrite <- (append_nil_r (print_N _)).
    by rewrite lex_print_N.
  - intros (_ & _ & Hx & Hts). apply lex_prefix.
    apply lex_term; [done|apply print_rest_head|by eapply lex_print_rest].
Qed.

(** *** Parsing the tokens of a canonical form *)

Lemma add_term_append x c ts :
  Forall (λ t, (sym_code t.1 < sym_code x)%N) ts →
  add_term x c ts = (ts ++ [(x, c)])%list.
Proof.
  induction 1 as [|[y d] ts Hy _ IH]; simpl in *; [done|].
  destruct (N.ltb_spec (sym_code x) (sym_code y)); [lia|].
  destruct (N.eqb_spec (sym_code x) (sym_code y)); [lia|].
  by rewrite IH.
Qed.

Lemma canon_lower l1 : ∀ lo x c l2,
  canon lo (l1 ++ (x, c) :: l2) → (lo ≤ sym_code x)%N.
Proof.
  induction l1 as [|[y d] l1 IH]; intros lo x c l2; simpl.
  - by intros (? & _).
  - intros (? & _ & _ & Hl). apply IH in Hl. lia.
Qed.

Lemma canon_app_lt l1 : ∀ lo x c l2,
  canon lo (l1 ++ (x, c) :: l2) →
  Forall (λ t, (sym_code t.1 < sym_code x)%N) l1.
Proof.
  induction l1 as [|[y d] l1 IH]; intros lo x c l2; simpl; [done|].
  intros (_ & _ & _ & Hl). constructor; [|by eapply IH].
  apply canon_lower in Hl. simpl. lia.
Qed.

Definition not_mul_head (ts : list tok) : Prop :=
  match ts with
  | TMul :: _ | TDiv :: _ => False
  | _ => True
  end.

Lemma p_term_rest_stop f acc ts :
  not_mul_head ts → p_term_rest (S f) acc ts = Some (acc, ts).
Proof. by destruct ts as [|[] ts]. Qed.

Lemma tok_rest_head ts c0 : not_mul_head (tok_rest ts c0).
Proof.
  destruct ts as [|[x c] ts]; simpl.
  - destruct (c0 =? 0)%Z; [done|]. unfold tok_sign. by destruct (c0 <? 0)%Z.
  - unfold tok_sign. by destruct (c <? 0)%Z.
Qed.

Lemma scale_sym k x : k ≠ 0%Z → scale k (sym x) = Lin [(x, k)] 0.
Proof.
  intros Hk. unfold scale, sym. destruct (Z.eqb_spec k 0); [done|].
  simpl. by rewrite Z.mul_1_r, Z.mul_0_r.
Qed.

Lemma p_term_tok_term f x c rest :
  c ≠ 0%Z → not_mul_head rest →
  p_term (4 + f) (tok_term x c ++ rest)
  = Some (Lin [(x, Z.abs c)] 0, rest).
Proof.
  intros Hc Hrest. unfold tok_term.
  destruct (Z.eqb_spec (Z.abs c) 1) as [Heq|Hne].
  - rewrite Heq. by destruct rest as [|[] rest].
  - destruct rest as [|[] rest]; try done; cbn -[scale];
      rewrite N2Z.inj_abs_N, scale_sym by lia; done.
Qed.

Lemma p_term_neg_tok_term f x c rest :
  c ≠ 0%Z → not_mul_head rest →
  p_term (5 + f) (TSub :: tok_term x c ++ rest)
  = Some (Lin [(x, (- Z.abs c)%Z)] 0, rest).
Proof.
  intros Hc Hrest. unfold tok_term.
  destruct (Z.eqb_spec (Z.abs c) 1) as [Heq|Hne].
  - rewrite Heq. by destruct rest as [|[] rest].
  - destruct rest as [|[] rest]; try done; cbn -[scale];
      rewrite N2Z.inj_abs_N, scale_sym by lia; done.
Qed.

Lemma add_num acc n : add (Lin acc 0) (num n) = Lin acc (Z.of_N n).
Proof. reflexivity. Qed.

Lemma sub_num acc n : sub (Lin acc 0) (num n) = Lin acc (- Z.of_N n).
Proof. reflexivity. Qed.

Lemma p_arith_rest_tok_rest ts : ∀ f acc c0,
  (length ts + 6 ≤ f)%nat → canon 0 (acc ++ ts) →
  p_arith_rest f (Lin acc 0) (tok_rest ts c0)
  = Some (Lin (acc ++ ts) c0, []).
Proof.
  induction ts as [|[x c] ts IH]; intros f acc c0 Hf Hcanon; simpl in *.
  - rewrite app_nil_r. do 6 (destruct f as [|f]; [lia|]).
    destruct (Z.eqb_spec c0 0) as [->|Hc0]; [done|].
    unfold tok_sign. destruct (Z.ltb_spec c0 0); cbn -[add sub num].
    + rewrite sub_num, N2Z.inj_abs_N. do 3 f_equal. lia.
    + rewrite add_num, N2Z.inj_abs_N. do 3 f_equal. lia.
  - destruct f as [|f]; [lia|].
    replace f with (4 + (f - 4))%nat by lia.
    apply canon_app_lt in Hcanon as Hlt.
    assert (c ≠ 0%Z) as Hc.
    { clear -Hcanon. induction acc as [|[y d] acc IHa]; simpl in *;
        [tauto|]. apply IHa. eapply canon_weaken; [|apply Hcanon]. lia. }
    unfold tok_sign. destruct (Z.ltb_spec c 0).
    + cbn [p_arith_rest]. cbn [Nat.add].
      change (S (S (S (S (f - 4))))) with (4 + (f - 4))%nat.
      rewrite p_term_tok_term by (done || apply tok_rest_head).
      cbn [mbind option_bind].
      replace (sub (Lin acc 0) (Lin [(x, Z.abs c)] 0))
        with (Lin (acc ++ [(x, c)]) 0).
      2:{ unfold sub, add, neg. simpl. rewrite add_term_append by done.
          by replace (- Z.abs c)%Z with c by lia. }
      rewrite IH; [by rewrite <- app_assoc|lia|by rewrite <- app_assoc].
    + cbn [p_arith_rest]. cbn [Nat.add].
      change (S (S (S (S (f - 4))))) with (4 + (f - 4))%nat.
      rewrite p_term_tok_term by (done || apply tok_rest_head).
      cbn [mbind option_bind].
      replace (add (Lin acc 0) (Lin [(x, Z.abs c)] 0))
        with (Lin (acc ++ [(x, c)]) 0).
      2:{ unfold add. simpl. rewrite add_term_append by done.
          by replace (Z.abs c) with c by lia. }
      rewrite IH; [by rewrite <- app_assoc|lia|by rewrite <- app_assoc].
Qed.

Lemma p_arith_toks f a :
  (length (terms a) + 8 ≤ f)%nat → canonical a →
  p_arith f (toks a) = Some (a, []).
Proof.
  unfold canonical, toks. destruct a as [[|[x c] ts] c0]; simpl.
  - intros Hf _. do 8 (destruct f as [|f]; [lia|]).
    unfold tok_prefix. destruct (Z.ltb_spec c0 0); cbn -[neg num];
      unfold neg, num; simpl; rewrite N2Z.inj_abs_N; do 3 f_equal; lia.
  - intros Hf Hcanon. destruct f as [|f]; [lia|].
    assert (c ≠ 0%Z) as Hc by tauto.
    unfold tok_prefix. destruct (Z.ltb_spec c 0).
    + replace f with (5 + (f - 5))%nat by lia. cbn [p_arith].
      cbn [app].
      rewrite p_term_neg_tok_term by (done || apply tok_rest_head).
      cbn [mbind option_bind].
      replace (- Z.abs c)%Z with c by lia.
      rewrite (p_arith_rest_tok_rest ts _ [(x, c)]); [done|lia|done].
    + replace f with (4 + (f - 4))%nat by lia. cbn [p_arith].
      cbn [app].
      rewrite p_term_tok_term by (done || apply tok_rest_head).
      cbn [mbind option_bind].
      replace (Z.abs c) with c by lia.
      rewrite (p_arith_rest_tok_rest ts _ [(x, c)]); [done|lia|done].
Qed.

Lemma length_tok_rest ts c0 : (length ts ≤ length (tok_rest ts c0))%nat.
Proof.
  induction ts as [|[x c] ts IH]; simpl; [lia|].
  rewrite length_app. lia.
Qed.

Lemma length_toks a : (length (terms a) ≤ length (toks a))%nat.
Proof.
  unfold toks. destruct (terms a) as [|[x c] ts]; simpl; [lia|].
  rewrite !length_app. pose proof (length_tok_rest ts (const a)).
  unfold tok_term. destruct (Z.abs c =? 1)%Z; simpl; lia.
Qed.

(** The roundtrip: what [str] prints for a canonical form reads back as
    that form. *)
Lemma parse_expr_str a : canonical a → parse_expr (str a) = Some a.
Proof.
  intros Ha. unfold parse_expr. rewrite lex_str by done. simpl.
  rewrite p_arith_toks; [done| |done].
  unfold parse_fuel. pose proof (length_toks a). lia.
Qed.

Lemma parse_expr_roundtrip s a :
  parse_expr s = Some a → parse_expr (str a) = Some a.
Proof. intros Hs. by apply parse_expr_str, (parse_expr_canonical s). Qed.

(** C8.  Canonicalization is idempotent: canonicalizing the canonical
    form of an expression gives that canonical form again; on a string
    the engine does not accept both sides raise the engine's exception. *)
Theorem canonicalize_idempotent (x : string) :
  (c ← canonicalize x; canonicalize c) = canonicalize x.
Proof.
  unfold canonicalize, simplify. simpl.
  destruct (parse_expr x) as [a|] eqn:Hx; simpl; [|done].
  by rewrite (parse_expr_roundtrip x a Hx).
Qed.

(** *** The symbols of an expression read *)

Lemma occurs_app c s1 s2 :
  occurs c (s1 ++ s2) ↔ occurs c s1 ∨ occurs c s2.
Proof.
  induction s1 as [|c' s1 IH]; [simpl; tauto|].
  rewrite append_cons. simpl. rewrite IH. tauto.
Qed.

Section Support.
Variable S : ascii → Prop.

(** Every symbol of the expression, and of the token, is in [S]. *)
Definition supported (a : lin) : Prop := Forall (λ t, S t.1) (terms a).
Definition tok_in (t : tok) : Prop :=
  match t with
  | TSym x => S x
  | _ => True
  end.

Lemma add_term_supported ts x c :
  S x → Forall (λ t, S t.1) ts → Forall (λ t, S t.1) (add_term x c ts).
Proof.
  intros Hx. induction ts as [|[y d] ts IH]; simpl; intros Hts.
  { by repeat constructor. }
  apply Forall_cons in Hts as [Hy Hts].
  repeat case_match; try done; repeat constructor; auto.
Qed.

Lemma add_supported a b : supported a → supported b → supported (add a b).
Proof.
  unfold supported, add. simpl. intros Ha Hb.
  induction Hb as [|[x c] tb Hx _ IH]; simpl; [done|].
  by apply add_term_supported.
Qed.

Lemma map_supported (f : Z → Z) ts :
  Forall (λ t, S t.1) ts →
  Forall (λ t, S t.1) ((λ t, (t.1, f t.2)) <$> ts).
Proof. intros Hts. by apply Forall_fmap. Qed.

Lemma neg_supported a : supported a → supported (neg a).
Proof. apply map_supported. Qed.

Lemma sub_supported a b : supported a → supported b → supported (sub a b).
Proof. intros. by apply add_supported, neg_supported. Qed.

Lemma scale_supported k a : supported a → supported (scale k a).
Proof.
  unfold supported, scale. intros Ha.
  destruct (k =? 0)%Z; simpl; [done|]. by apply map_supported.
Qed.

Lemma mul_supported a b v :
  mul a b = Some v → supported a → supported b → supported v.
Proof.
  unfold mul. intros Hv Ha Hb.
  destruct (terms a), (terms b); simplify_eq; by apply scale_supported.
Qed.

Lemma div_supported a b v : div a b = Some v → supported a → supported v.
Proof.
  unfold div, supported. intros Hv Ha.
  repeat case_match; simplify_eq. simpl.
  by apply (map_supported (λ c, (c `div` const b)%Z)).
Qed.

Definition parsed_in (ts : list tok) (r : option (lin * list tok)) : Prop :=
  ∀ v rest, r = Some (v, rest) →
    Forall tok_in ts → supported v ∧ Forall tok_in rest.

Lemma parser_in fuel :
  (∀ ts, parsed_in ts (p_factor fuel ts))
  ∧ (∀ acc ts, supported acc → parsed_in ts (p_term_rest fuel acc ts))
  ∧ (∀ ts, parsed_in ts (p_term fuel ts))
  ∧ (∀ acc ts, supported acc → parsed_in ts (p_arith_rest fuel acc ts))
  ∧ (∀ ts, parsed_in ts (p_arith fuel ts)).
Proof.
  induction fuel as [|fuel (IHf & IHtr & IHt & IHar & IHa)];
    [unfold parsed_in; repeat split; intros; simpl in *; discriminate|].
  split; [|split; [|split; [|split]]].
  - intros [|[] ts] v rest Hr Hts; simpl in Hr; try done;
      apply Forall_cons in Hts as [Ht Hts].
    + injection Hr as <- <-. split; [constructor|done].
    + injection Hr as <- <-. split; [|done]. by repeat constructor.
    + by eapply IHf.
    + destruct (p_factor fuel ts) as [[v' r']|] eqn:Hf; [|done].
      injection Hr as <- <-. destruct (IHf _ _ _ Hf Hts).
      split; [by apply neg_supported|done].
    + destruct (p_arith fuel ts) as [[v' r']|] eqn:Ha; [|done].
      destruct (IHa _ _ _ Ha Hts) as [? Hr'].
      destruct r' as [|[] r']; try done. injection Hr as <- <-.
      by apply Forall_cons in Hr' as [_ ?].
  - intros acc [|t ts] Hacc v rest Hr Hts; simpl in Hr.
    { by injection Hr as <- <-. }
    destruct t; try (by injection Hr as <- <-);
      apply Forall_cons in Hts as [Ht Hts];
      (destruct (p_factor fuel ts) as [[v' r']|] eqn:Hf; [|done]); simpl in Hr;
      destruct (IHf _ _ _ Hf Hts) as [Hv' Hr'].
    + destruct (mul acc v') as [acc'|] eqn:Hm; [|done]. simpl in Hr.
      eapply IHtr; [|done..]. by eapply mul_supported.
    + destruct (div acc v') as [acc'|] eqn:Hd; [|done]. simpl in Hr.
      eapply IHtr; [|done..]. by eapply div_supported.
  - intros ts v rest Hr Hts. simpl in Hr.
    destruct (p_factor fuel ts) as [[v' r']|] eqn:Hf; [|done]. simpl in Hr.
    destruct (IHf _ _ _ Hf Hts) as [Hv' Hr']. by eapply IHtr.
  - intros acc [|t ts] Hacc v rest Hr Hts; simpl in Hr.
    { by injection Hr as <- <-. }
    destruct t; try (by injection Hr as <- <-);
      apply Forall_cons in Hts as [Ht Hts];
      (destruct (p_term fuel ts) as [[v' r']|] eqn:Hf; [|done]); simpl in Hr;
      destruct (IHt _ _ _ Hf Hts) as [Hv' Hr'].
    + eapply IHar; [|done..]. by apply add_supported.
    + eapply IHar; [|done..]. by apply sub_supported.
  - intros ts v rest Hr Hts. simpl in Hr.
    destruct (p_term fuel ts) as [[v' r']|] eqn:Hf; [|done]. simpl in Hr.
    destruct (IHt _ _ _ Hf Hts) as [Hv' Hr']. by eapply IHar.
Qed.

End Support.

Lemma emit_syms num r ts x :
  emit num r = Some ts → TSym x ∈ ts → ∃ l, r = Some l ∧ TSym x ∈ l.
Proof.
  destruct num as [n|]; simpl; [|by eauto].
  destruct r as [l|]; simpl; [|done]. intros [= <-] Hx.
  apply elem_of_cons in Hx as [Hx|Hx]; [done|eauto].
Qed.

Lemma op_tok_sym c t x : op_tok c = Some t → t ≠ TSym x.
Proof. unfold op_tok. repeat case_match; by intros [= <-]. Qed.

Lemma lex_syms s : ∀ num ts x,
  lex num s = Some ts → TSym x ∈ ts → occurs x s.
Proof.
  induction s as [|c s IH]; intros num ts x; simpl.
  { intros Hts Hx. destruct (emit_syms _ _ _ _ Hts Hx) as (l & [= <-] & Hl).
    by apply elem_of_nil in Hl. }
  destruct (is_digit c).
  { destruct num as [[|q]|]; [done|..]; intros Hts Hx; right; by eapply IH. }
  destruct (Ascii.eqb c " ").
  { intros Hts Hx. destruct (emit_syms _ _ _ _ Hts Hx) as (l & Hl & Hxl).
    right. by eapply IH. }
  destruct (op_tok c) as [t|] eqn:Hop.
  { intros Hts Hx. destruct (emit_syms _ _ _ _ Hts Hx) as (l & Hl & Hxl).
    apply fmap_Some in Hl as (l' & Hl' & ->).
    apply elem_of_cons in Hxl as [Hxl|Hxl].
    - subst t. by apply (op_tok_sym _ _ x) in Hop.
    - right. by eapply IH. }
  destruct (valid_sym c && negb (word_at (head_char s))); [|done].
  intros Hts Hx. destruct (emit_syms _ _ _ _ Hts Hx) as (l & Hl & Hxl).
  apply fmap_Some in Hl as (l' & Hl' & ->).
  apply elem_of_cons in Hxl as [[= ->]|Hxl]; [by left|].
  right. by eapply IH.
Qed.

Lemma digit_not_letter c : is_digit c = true → is_letter c = false.
Proof.
  unfold is_digit, is_letter. intros [H1 H2]%andb_prop.
  apply N.leb_le in H1, H2.
  apply orb_false_intro; apply andb_false_iff; left; apply N.leb_gt; lia.
Qed.

Lemma string_of_uint_digits c d :
  occurs c (NilEmpty.string_of_uint d) → is_digit c = true.
Proof. induction d; simpl; try done; intros [->|?]; auto. Qed.

Lemma print_N_letters c n :
  is_letter c = true → ¬ occurs c (print_N n).
Proof.
  intros Hc Ho. apply string_of_uint_digits, digit_not_letter in Ho.
  congruence.
Qed.

Lemma infix_sign_letters c k : is_letter c = true → ¬ occurs c (infix_sign k).
Proof.
  unfold infix_sign. intros Hc.
  destruct (k <? 0)%Z; simpl; intros [->|[->|[->|[]]]]; done.
Qed.

Lemma prefix_sign_letters c k :
  is_letter c = true → ¬ occurs c (prefix_sign k).
Proof.
  unfold prefix_sign. intros Hc.
  destruct (k <? 0)%Z; simpl; [intros [->|[]]; done|intros []].
Qed.

Lemma print_term_letters c x k :
  is_letter c = true → occurs c (print_term x k) → c = x.
Proof.
  unfold print_term. intros Hc. destruct (Z.abs k =? 1)%Z.
  { by intros [->|[]]. }
  intros [Ho|Ho]%occurs_app; [by apply print_N_letters in Ho|].
  destruct Ho as [->|[->|[]]]; done.
Qed.

Lemma print_rest_letters c ts c0 :
  is_letter c = true → occurs c (print_rest ts c0) → c ∈ ts.*1.
Proof.
  intros Hc. induction ts as [|[x k] ts IH]; simpl.
  { destruct (c0 =? 0)%Z; [done|].
    intros [Ho|Ho]%occurs_app; [by apply infix_sign_letters in Ho|].
    by apply print_N_letters in Ho. }
  intros [Ho|[Ho|Ho]%occurs_app]%occurs_app.
  - by apply infix_sign_letters in Ho.
  - apply print_term_letters in Ho as ->; [|done]. by left.
  - right. auto.
Qed.

Lemma str_letters c a :
  is_letter c = true → occurs c (str a) → c ∈ (terms a).*1.
Proof.
  unfold str. intros Hc. destruct (terms a) as [|[x k] ts].
  { intros [Ho|Ho]%occurs_app; [by apply prefix_sign_letters in Ho|].
    by apply print_N_letters in Ho. }
  intros [Ho|[Ho|Ho]%occurs_app]%occurs_app.
  - by apply prefix_sign_letters in Ho.
  - apply print_term_letters in Ho as ->; [|done]. by left.
  - right. by eapply print_rest_letters.
Qed.

(** A letter of the canonical text is a letter of the text read. *)
Lemma parse_expr_letters s a c :
  parse_expr s = Some a → is_letter c = true →
  occurs c (str a) → occurs c s.
Proof.
  unfold parse_expr. intros Ha Hc Ho.
  destruct (lex None s) as [ts|] eqn:Hlex; [|done]. simpl in Ha.
  destruct (p_arith _ ts) as [[v rest]|] eqn:Hp; [|done]. simpl in Ha.
  destruct rest; [|done]. injection Ha as <-.
  assert (supported (λ x, occurs x s) v) as Hv.
  { eapply (parser_in (λ x, occurs x s)); [done|].
    apply Forall_forall. intros [] Ht; try done. simpl. by eapply lex_syms. }
  apply str_letters in Ho; [|done].
  apply list_elem_of_fmap in Ho as ([x k] & -> & Hin).
  unfold supported in Hv. rewrite Forall_forall in Hv. by apply (Hv _ Hin).
Qed.

End SympyFacts.

(** ** The pipeline on concrete format strings *)

Section Examples.
Import Sympy.

(** C1.  For ["A_1 A_2 ... A_N\n"] lexing, parsing and analysis return
    a sequence of a loop and a line break; the trip count of the loop is
    canonically equal to ["N"], its body is the item [A] with the one
    index canonically equal to the counter plus one, and the counter is
    neither ["A"] nor ["N"]. *)
Theorem run_A1_A2_dots_AN :
  ∃ size counter index,
    run (text_of_string ("A_1 A_2 ... A_N" ++ newline))
    = Ok (SequenceNode
            [LoopNode size counter (ItemNode "A" [index]); NewlineNode])
    ∧ canonicalize size = canonicalize "N"
    ∧ canonicalize size = Ok "N"
    ∧ canonicalize index = canonicalize (counter ++ " + 1")
    ∧ canonicalize index = Ok index
    ∧ counter ≠ "A" ∧ counter ≠ "N".
Proof. exists "N", "i", "i + 1". by vm_compute. Qed.

(** C7 (what the lexer reports).  In ["N M\nA ? B\n"] the character
    [?] is the third of the second line; the [LexerError] carries the
    character (code point 63) and line 2, and as column the value of
    [t.lexpos], the offset 6 from the start of the text, which
    [find_column] -- used by [p_error] for the same purpose -- turns into
    column 3. *)
Theorem lexer_error_reports_lexpos :
  let input := text_of_string ("N M" ++ newline ++ "A ? B" ++ newline) in
  Lex.tokenize input = Raise (LexerError 63 2 6)
  ∧ Yacc.find_column input 6 = 3%Z.
Proof. by vm_compute. Qed.

End Examples.

(** C10.  The text that is one line break does not parse: the first
    token is [NEWLINE] where the grammar needs the [IDENT] of an item, and
    [p_error] raises [ParserError] for it at line 1, column 1; no tree is
    returned. *)
Theorem run_blank_line `{Engine} :
  Lex.tokenize (text_of_string newline)
  = Ok [mkToken NEWLINE newline 1 0]
  ∧ Yacc.parse (text_of_string newline) [mkToken NEWLINE newline 1 0]
    = Raise (ParserError NEWLINE newline 1 1)
  ∧ run (text_of_string newline) = Raise (ParserError NEWLINE newline 1 1).
Proof. done. Qed.



(** ** Unification of a dots pair raises exactly for the listed causes *)

Section UnifyFacts.
Context `{Engine}.

(** The engine reads its own canonical text back. *)
Hypothesis roundtrip :
  ∀ s e, parse_expr s = Some e → parse_expr (str e) = Some e.


















End UnifyFacts.

(** ** The symbols of a trip count *)

Section SizeFacts.
Context `{Engine}.

(** The canonical text of an expression has no letter that the
    expression did not have. *)
Hypothesis letters_sound : ∀ s e c,
  parse_expr s = Some e → Sympy.is_letter c = true →
  occurs c (str e) → occurs c s.

Variable L : ascii → Prop.

Lemma bound_mono U U' s : U ⊆ U' → bound L U s → bound L U' s.
Proof.
  intros HU Hs c Hc Ho. destruct (Hs c Hc Ho); [by left|right]. by apply HU.
Qed.

Lemma bound_app U s1 s2 :
  bound L U s1 → bound L U s2 → bound L U (s1 ++ s2).
Proof. intros H1 H2 c Hc [?|?]%SympyFacts.occurs_app; auto. Qed.

Lemma bound_str U s e :
  parse_expr s = Some e → bound L U s → bound L U (str e).
Proof. intros He Hs c Hc Ho. apply Hs; [done|]. by eapply letters_sound. Qed.

Lemma bound_minus U : bound L U " - ".
Proof. intros c Hc [->|[->|[->|[]]]]; done. Qed.

Lemma bound_plus U : bound L U " + ".
Proof. intros c Hc [->|[->|[->|[]]]]; done. Qed.

Lemma bound_plus_1 U : bound L U " + 1".
Proof. intros c Hc [->|[->|[->|[->|[]]]]]; done. Qed.

Lemma bound_counter k : bound L {[ counter_name k ]} (counter_name k).
Proof. intros c _ [->|[]]. right. by apply elem_of_singleton. Qed.

Definition size_bound (U : gset string) (size : option string) : Prop :=
  ∀ s, size = Some s → bound L U s.

Lemma Bounded_mono t : ∀ U U', U ⊆ U' → Bounded L U t → Bounded L U' t.
Proof.
  induction t as [name indices| |items IH|size name body IH]
    using FormatNode_ind'; intros U U' HU; inversion 1; subst.
  - constructor. eapply Forall_impl; [done|]. intros s. by apply bound_mono.
  - constructor.
  - constructor. rewrite Forall_forall in IH |- *. intros x Hx.
    eapply IH; [done..|]. by eapply Forall_forall.
  - constructor; [done| |].
    + eapply bound_mono; [|done]. clear -HU; set_solver.
    + eapply IH; [|done]. clear -HU; set_solver.
Qed.

Lemma bound_index U name i e :
  bound L {[ name ]} name → bound L U i →
  parse_expr (i ++ " + " ++ name) = Some e →
  bound L (U ∪ {[ name ]}) (str e).
Proof.
  intros Hname Hi He. eapply bound_str; [done|].
  apply bound_app; [|apply bound_app].
  - eapply bound_mono; [|done]. apply union_subseteq_l.
  - apply bound_plus.
  - eapply bound_mono; [|done]. apply union_subseteq_r.
Qed.

Lemma bound_stride W i j e :
  bound L W i → bound L W j →
  parse_expr (j ++ " - " ++ i ++ " + 1") = Some e → bound L W (str e).
Proof.
  intros Hi Hj He. eapply bound_str; [done|].
  repeat apply bound_app; auto using bound_minus, bound_plus_1.
Qed.

Lemma simplify_Ok x e : simplify x = Ok e → parse_expr x = Some e.
Proof. unfold simplify. destruct (parse_expr x); by intros [= <-]. Qed.

Lemma zip_indices_bound name U W ais : ∀ bis size indices size',
  bound L {[ name ]} name → U ⊆ W →
  zip_indices name ais bis size = Ok (indices, size') →
  Forall (bound L U) ais → Forall (bound L U) bis → size_bound W size →
  Forall (bound L (U ∪ {[ name ]})) indices ∧ size_bound W size'.
Proof.
  induction ais as [|i ais IH]; intros bis size indices size' Hname HU;
    [intros [= <- <-]; auto|].
  destruct bis as [|j bis]; [intros [= <- <-]; auto|]. simpl.
  intros (ei & Hei%simplify_Ok & Hzip)%bind_Ok.
  apply bind_Ok in Hzip as (ej & Hej%simplify_Ok & Hzip).
  intros [Hi Hais]%Forall_cons [Hj Hbis]%Forall_cons Hsize.
  assert (bound L W i) as HWi by by eapply bound_mono.
  assert (bound L W j) as HWj by by eapply bound_mono.
  destruct (decide (ei = ej)) as [_|_].
  - apply bind_Ok in Hzip as ([indices' size1] & Hrec & [= <- <-]).
    destruct (IH _ _ _ _ Hname HU Hrec Hais Hbis Hsize) as [Hind Hsz].
    split; [|done]. constructor; [|done].
    eapply bound_mono; [|exact Hi]. apply union_subseteq_l.
  - apply bind_Ok in Hzip as (size1 & Hsize1 & Hzip).
    apply bind_Ok in Hzip as (e' & He'%simplify_Ok & Hzip).
    apply bind_Ok in Hzip as ([indices' size2] & Hrec & [= <- <-]).
    assert (size_bound W size1) as Hsz1.
    { destruct size as [s|].
      - apply bind_Ok in Hsize1 as (e & He & Hsize1).
        apply bind_Ok in Hsize1 as (es & Hes & Hsize1).
        destruct (decide (e ≠ es)); [discriminate|].
        by injection Hsize1 as <-.
      - apply bind_Ok in Hsize1 as (e & He%simplify_Ok & [= <-]).
        intros s [= <-]. exact (bound_stride W i j e HWi HWj He). }
    destruct (IH _ _ _ _ Hname HU Hrec Hais Hbis Hsz1) as [Hind Hsz].
    split; [|done]. constructor; [|done].
    exact (bound_index U name i e' Hname Hi He').
Qed.

Lemma list_used_names_cons x xs :
  list_used_names (SequenceNode (x :: xs))
  = list_used_names x ∪ list_used_names (SequenceNode xs).
Proof. done. Qed.

Lemma zip_list_bound name W xs : ∀ ys U size cs size',
  Forall (λ a, ∀ b U size c size',
            zip_nodes a b name size = Ok (c, size') →
            Bounded L U a → Bounded L U b →
            U ∪ list_used_names a ⊆ W → size_bound W size →
            Bounded L (U ∪ {[ name ]}) c ∧ size_bound W size') xs →
  zip_list name xs ys size = Ok (cs, size') →
  Forall (Bounded L U) xs → Forall (Bounded L U) ys →
  U ∪ list_used_names (SequenceNode xs) ⊆ W → size_bound W size →
  Forall (Bounded L (U ∪ {[ name ]})) cs ∧ size_bound W size'.
Proof.
  induction xs as [|x xs IHxs]; intros ys U size cs size' IH;
    [intros [= <- <-]; auto|].
  destruct ys as [|y ys]; [intros [= <- <-]; auto|]. simpl zip_list.
  apply Forall_cons in IH as [IHx IH].
  intros ([c size1] & Hc & Hzip)%bind_Ok.
  apply bind_Ok in Hzip as ([cs' size2] & Hcs & [= <- <-]).
  intros [Hx Hxs]%Forall_cons [Hy Hys]%Forall_cons HW Hsize.
  rewrite list_used_names_cons in HW.
  destruct (IHx _ _ _ _ _ Hc Hx Hy) as [Hbc Hsz1]; [clear -HW; set_solver|done|].
  destruct (IHxs _ _ _ _ _ IH Hcs Hxs Hys) as [Hbcs Hsz2];
    [clear -HW; set_solver|done|].
  split; [by constructor|done].
Qed.

Lemma zip_nodes_bound name W a : ∀ b U size c size',
  bound L {[ name ]} name →
  zip_nodes a b name size = Ok (c, size') →
  Bounded L U a → Bounded L U b →
  U ∪ list_used_names a ⊆ W → size_bound W size →
  Bounded L (U ∪ {[ name ]}) c ∧ size_bound W size'.
Proof.
  intros b U size c size' Hname. revert b U size c size'.
  induction a as [a_name a_indices| |a_items IH|a_size a_name a_body IH]
    using FormatNode_ind'; intros b U size c size'.
  - destruct b as [b_name b_indices| | |]; simpl; try discriminate.
    case_decide; [discriminate|].
    intros ([indices size1] & Hzip & [= <- <-])%bind_Ok.
    inversion 1; subst. inversion 1; subst. intros HW Hsize.
    destruct (zip_indices_bound name U W _ _ _ _ _ Hname
                ltac:(clear -HW; set_solver) Hzip) as [Hind Hsz]; try done.
    split; [by constructor|done].
  - destruct b; simpl; try discriminate. intros [= <- <-] _ _ _ Hsize.
    split; [constructor|done].
  - destruct b as [| |b_items|]; try (simpl; discriminate).
    rewrite zip_nodes_Sequence. case_decide; [discriminate|].
    intros ([cs size1] & Hzip & [= <- <-])%bind_Ok.
    inversion 1; subst. inversion 1; subst. intros HW Hsize.
    destruct (zip_list_bound name W a_items b_items U size cs size1)
      as [Hcs Hsz]; try done.
    split; [by constructor|done].
  - destruct b as [| | |b_size b_name b_body]; simpl; try discriminate.
    case_decide as Hne; [discriminate|].
    intros ([c' size1] & Hzip & [= <- <-])%bind_Ok.
    assert (b_name = a_name) as ->.
    { destruct (decide (a_name = b_name)); [done|]. destruct Hne. auto. }
    inversion 1 as [| | |? ? ? ? Hk Hs Hbody]; subst.
    inversion 1 as [| | |? ? ? ? _ _ Hbody']; subst. intros HW Hsize.
    simpl in HW.
    destruct (IH _ _ _ _ _ Hzip Hbody Hbody') as [Hc Hsz];
      [clear -HW; set_solver|done|].
    split; [|done]. constructor; [done| |].
    + destruct (zip_nodes_names _ _ _ _ _ _ Hzip) as [-> _].
      eapply bound_mono; [|done]. clear; set_solver.
    + eapply Bounded_mono; [|done]. clear; set_solver.
Qed.

Lemma Extends_bound n a : ∀ b c U,
  bound L {[ n ]} n → Extends n a b c →
  Bounded L U a → Bounded L (U ∪ {[ n ]}) c.
Proof.
  intros b c U Hn. revert b c U.
  induction a as [a_name a_indices| |a_items IH|a_size a_name a_body IH]
    using FormatNode_ind'; intros b c U; inversion 1; subst.
  - inversion 1; subst. constructor.
    match goal with HF : Forall3 _ _ _ _, HB : Forall _ a_indices |- _ =>
      rename HB into Hbound; clear -HF Hbound Hn letters_sound;
      induction HF as [|i j k ais bis cis (e & e' & _ & _ & He' & ->) _ IHF]
    end; [done|].
    apply Forall_cons in Hbound as [Hi Hais].
    constructor; [exact (bound_index U n i e' Hn Hi He')|auto].
  - constructor.
  - inversion 1; subst. constructor.
    match goal with HF : Forall3 _ _ _ _, HB : Forall _ a_items |- _ =>
      rename HB into Hbound; clear -HF Hbound IH;
      induction HF as [|x y z xs ys zs Hxyz _ IHF]
    end; [done|].
    apply Forall_cons in Hbound as [Hx Hxs].
    apply Forall_cons in IH as [IHx IH].
    constructor; [by eapply IHx|auto].
  - match goal with HE : Extends _ _ _ _ |- _ => rename HE into Hext end.
    inversion 1 as [| | |? ? ? ? Hk Hs Hbody]; subst.
    destruct (Extends_names _ _ _ _ Hext) as (Hc & _ & _).
    constructor; [done| |].
    + rewrite Hc. eapply bound_mono; [|done]. clear; set_solver.
    + eapply Bounded_mono; [|by eapply IH]. clear; set_solver.
Qed.

Lemma Bounded_split_items U items body items_init items_tail :
  items ≠ [] → Forall (Bounded L U) items →
  split_items items body = (items_init, items_tail) →
  Forall (Bounded L U) items_init ∧ Bounded L U items_tail.
Proof.
  intros Hne Hsc Hsplit.
  destruct (split_items_group _ _ _ _ Hne Hsplit) as (g & -> & _ & Hg).
  apply Forall_app in Hsc as [Hi Hg'].
  split; [done|]. destruct Hg as [-> | ->].
  - by inversion Hg'.
  - by constructor.
Qed.

Lemma counter_name_letter k :
  (k ≤ 17)%nat →
  ∃ c, counter_name k = String c EmptyString ∧ Sympy.is_letter c = true.
Proof.
  intros Hk. exists (ascii_of_nat (122 - k)). split; [done|].
  do 18 (destruct k as [|k]; [done|]). lia.
Qed.

Lemma bound_counter_name k : bound L {[ counter_name k ]} (counter_name k).
Proof. apply bound_counter. Qed.

Lemma merge_loop_Bounded fuel : ∀ items que r,
  Forall (Bounded L ∅) items → Forall (Bounded L ∅) que →
  merge_loop fuel items que = Ok r → Forall (Bounded L ∅) r.
Proof.
  induction fuel as [|fuel IH]; intros items [|item que] r Hitems Hque;
    simpl; try discriminate; try (by intros [= <-]).
  apply Forall_cons in Hque as [Hitem Hque].
  assert (Forall (Bounded L ∅) (items ++ [item])) as Hpush.
  { apply Forall_app. split; [done|]. by repeat constructor. }
  destruct item as [name indices| |item_items|size name body];
    try (by apply IH).
  - apply IH; [done|]. apply Forall_app. split; [|done]. by inversion Hitem.
  - destruct items as [|x xs]; [by apply IH|].
    destruct (split_items (x :: xs) body) as [items_init items_tail]
      eqn:Hsplit.
    destruct (Bounded_split_items ∅ (x :: xs) body items_init items_tail)
      as [Hinit Htail]; [done..|].
    destruct (exnted_loop_node items_tail body name) as [[c|]|e'] eqn:Hext;
      simpl; [|by apply IH|discriminate].
    destruct (simplify (size ++ " + 1")) as [e1|] eqn:He1; simpl;
      [|discriminate].
    apply simplify_Ok in He1.
    apply IH; [done|]. constructor; [|done].
    apply exnted_loop_node_Extends in Hext.
    destruct (Extends_names _ _ _ _ Hext) as (Hc & Hb & _).
    inversion Hitem as [| | |? ? ? ? Hk Hs Hbody]; subst.
    constructor; [done| |].
    + rewrite Hc, <- Hb. eapply bound_str; [done|].
      apply bound_app; [done|apply bound_plus_1].
    + destruct Hk as (k & _ & ->).
      eapply Extends_bound; [apply bound_counter|done..].
Qed.

Lemma analyze_Bounded node : ∀ t,
  (∀ s c, s ∈ parser_indices node → occurs c s → L c) →
  analyze node = Ok t → Bounded L ∅ t.
Proof.
  induction node as [items IH| |name indices|first last IHf IHl]
    using ParserNode_ind'; intros t HL.
  - rewrite analyze_Sequence.
    intros (que & Hque & Hseq)%bind_Ok.
    assert (Forall (Bounded L ∅) que) as Hsc.
    { change (∀ s c, s ∈ parser_indices (SequenceParserNode items) →
                     occurs c s → L c) in HL.
      clear -IH Hque HL. revert que Hque.
      induction IH as [|x xs Hx _ IHxs]; intros que; simpl.
      - by intros [= <-].
      - intros (y & Hy & (ys & Hys & [= <-])%bind_Ok)%bind_Ok.
        constructor.
        + apply Hx; [|done]. intros s c Hs. apply HL. simpl.
          apply elem_of_app. by left.
        + apply IHxs; [|done]. intros s c Hs. apply HL. simpl.
          apply elem_of_app. by right. }
    unfold analyze_sequence in Hseq.
    apply bind_Ok in Hseq as (r & Hr & Ht).
    apply merge_loop_Bounded in Hr; [|done..].
    destruct r as [|t1 [|t2 r]]; injection Ht as <-.
    + by constructor.
    + by inversion Hr.
    + by constructor.
  - simpl. intros [= <-]. constructor.
  - simpl. destruct indices as [indices|]; [|discriminate].
    intros (cis & Hcis & [= <-])%bind_Ok. constructor.
    simpl in HL. clear -Hcis HL letters_sound. revert cis Hcis.
    induction indices as [|i indices IHi]; intros cis.
    + by intros [= <-].
    + intros (e & He%simplify_Ok & (rest & Hrest & [= <-])%bind_Ok)%bind_Ok.
      constructor.
      * eapply bound_str; [done|]. intros c _ Hc. left.
        eapply HL; [|done]. by left.
      * apply IHi; [|done]. intros s c Hs. apply HL. by right.
  - simpl. intros (a & Ha & (b & Hb & Hd)%bind_Ok)%bind_Ok.
    apply analyze_dots_Ok in Hd
      as (size & name & body & k & -> & Hz & Hk & -> & _ & Hfresh).
    simpl in HL.
    assert (Bounded L ∅ a) as HBa.
    { apply IHf; [|done]. intros s c Hs. apply HL, elem_of_app. by left. }
    assert (Bounded L ∅ b) as HBb.
    { apply IHl; [|done]. intros s c Hs. apply HL, elem_of_app. by right. }
    destruct (zip_nodes_names _ _ _ _ _ _ Hz) as [Hnames _].
    destruct (zip_nodes_bound (counter_name k) (∅ ∪ list_used_names body)
                a b ∅ None body (Some size)) as [Hbody Hsize];
      [apply bound_counter|done..|by rewrite Hnames|done|].
    constructor; [by exists k|by apply Hsize|done].
Qed.

Lemma list_used_names_elem x items :
  x ∈ items → list_used_names x ⊆ list_used_names (SequenceNode items).
Proof.
  induction 1 as [x l|x y l _ IH]; rewrite list_used_names_cons.
  - apply union_subseteq_l.
  - etrans; [exact IH|apply union_subseteq_r].
Qed.

Lemma strip_prefix_occurs c rest s r :
  strip_prefix (String c rest) s = Some r → occurs c s.
Proof.
  destruct s as [|c' s]; simpl; [done|].
  destruct (Ascii.eqb_spec c c') as [->|]; [by left|done].
Qed.

Lemma matches_here_occurs c rest prev s :
  matches_here (String c rest) prev s = true → occurs c s.
Proof.
  unfold matches_here. intros [_ Hm]%andb_prop.
  destruct (strip_prefix (String c rest) s) eqn:Hs; [|done].
  by eapply strip_prefix_occurs.
Qed.

Lemma mentions_from_eq name prev s :
  mentions_from name prev s
  = matches_here name prev s
    || match s with
       | String c s' => mentions_from name (Some c) s'
       | EmptyString => false
       end.
Proof. by destruct s. Qed.

Lemma mentions_from_occurs c rest s : ∀ prev,
  mentions_from (String c rest) prev s = true → occurs c s.
Proof.
  induction s as [|c' s IH]; intros prev Hm; rewrite mentions_from_eq in Hm;
    apply orb_prop in Hm as [Hm|Hm].
  - exact (matches_here_occurs _ _ _ _ Hm).
  - discriminate Hm.
  - exact (matches_here_occurs _ _ _ _ Hm).
  - right. exact (IH _ Hm).
Qed.

(** A trip count that mentions the counter of its own loop has the letter
    from the input. *)
Lemma Bounded_LoopsSatisfy t : ∀ U,
  Bounded L U t → Scoped t → (∀ u, u ∈ U → u ∉ list_used_names t) →
  LoopsSatisfy (λ size name, mentions name size = true →
                  ∃ c, name = String c EmptyString ∧ L c) t.
Proof.
  induction t as [name indices| |items IH|size name body IH]
    using FormatNode_ind'; intros U HB HS HU.
  - constructor.
  - constructor.
  - constructor.
    inversion HB as [| |? ? HBs|]; subst. inversion HS as [| |? HSs|]; subst.
    apply Forall_forall. intros x Hx.
    rewrite Forall_forall in IH. apply (IH x Hx U).
    + rewrite Forall_forall in HBs. by apply HBs.
    + rewrite Forall_forall in HSs. by apply HSs.
    + intros u Hu Hin. apply (HU u Hu).
      by apply (list_used_names_elem x items Hx).
  - inversion HB as [| | |? ? ? ? Hk Hs Hbody]; subst.
    inversion HS as [| | |? ? ? Hfresh HSbody]; subst.
    constructor.
    + intros Hm. destruct Hk as (k & Hk & ->).
      destruct (counter_name_letter k Hk) as (c & Hc & Hletter).
      exists c. split; [done|].
      rewrite Hc in Hm, Hfresh, HU.
      apply mentions_from_occurs in Hm.
      destruct (Hs c Hletter Hm) as [HL|Hin]; [done|].
      apply elem_of_union in Hin as [Hin|Hin]; [|done].
      exfalso. apply (HU _ Hin). simpl. apply elem_of_union_l.
      by apply elem_of_singleton.
    + apply (IH (U ∪ {[ name ]})); [done..|].
      intros u [Hu|Hu%elem_of_singleton]%elem_of_union; [|by subst].
      intros Hin. apply (HU u Hu). simpl. by apply elem_of_union_r.
Qed.

End SizeFacts.

Section SizeMentions.
Context `{Engine}.

(** The canonical text of an expression has no letter that the
    expression did not have. *)
Hypothesis letters_sound : ∀ s e c,
  parse_expr s = Some e → Sympy.is_letter c = true →
  occurs c (str e) → occurs c s.

(** X2.  Provided the engine prints no letter that the text it read did
    not have: in every tree that [analyze] returns, a loop whose trip
    count mentions the counter of that same loop (as a word, the way
    [exnted_loop_node] looks for it) has for counter a letter that is
    written in an index expression of the parse tree.  A counter whose
    letter the input does not use in an index is never mentioned by its
    trip count. *)
Theorem analyze_size_mentions (node : ParserNode) (t : FormatNode) :
  analyze node = Ok t →
  LoopsSatisfy
    (λ size name, mentions name size = true →
       ∃ c, name = String c EmptyString
            ∧ ∃ s, s ∈ parser_indices node ∧ occurs c s) t.
Proof.
  intros Ht. apply Bounded_LoopsSatisfy with (U := ∅).
  - apply analyze_Bounded with (node := node); [done| |done].
    intros s c Hs Hc. by exists s.
  - by eapply analyze_Scoped.
  - intros u Hu. by apply elem_of_empty in Hu.
Qed.

End SizeMentions.

(** ** The exceptions of [analyze] *)

Section Exceptions.
Context `{Engine}.

(** Every exception that [r] can be satisfies [P]. *)
Definition raises_only {A : Type} (P : exn → Prop) (r : outcome A) : Prop :=
  ∀ e, r = Raise e → P e.

Lemma raises_only_bind {A B : Type} (P : exn → Prop)
    (m : outcome A) (k : A → outcome B) :
  raises_only P m → (∀ a, raises_only P (k a)) → raises_only P (m ≫= k).
Proof.
  intros Hm Hk e [He|(a & _ & He)]%bind_Raise; [by apply Hm|by eapply Hk].
Qed.

Lemma raises_only_Ok {A : Type} (P : exn → Prop) (a : A) :
  raises_only P (Ok a).
Proof. by intros e. Qed.

Lemma raises_only_simplify (P : exn → Prop) s :
  P EngineError → raises_only P (simplify s).
Proof. unfold simplify. intros HP e. destruct (parse_expr s); by intros [= <-]. Qed.

Definition zip_exn (e : exn) : Prop := e = SyntaxError ∨ e = EngineError.

Ltac raise_now := let e := fresh "e" in intros e [= <-]; by left.
Ltac engine_step :=
  apply raises_only_bind; [apply raises_only_simplify; by right|]; intros ?.

Lemma zip_indices_raises name ais : ∀ bis size,
  raises_only zip_exn (zip_indices name ais bis size).
Proof.
  induction ais as [|i ais IH]; intros [|j bis] size; simpl;
    try apply raises_only_Ok.
  do 2 engine_step. case_decide.
  - apply raises_only_bind; [apply IH|]. intros [??]. apply raises_only_Ok.
  - apply raises_only_bind.
    { destruct size as [s|].
      - do 2 engine_step. case_decide; [raise_now|apply raises_only_Ok].
      - engine_step. apply raises_only_Ok. }
    intros size1. engine_step.
    apply raises_only_bind; [apply IH|]. intros [??]. apply raises_only_Ok.
Qed.

Lemma zip_nodes_raises name a : ∀ b size,
  raises_only zip_exn (zip_nodes a b name size).
Proof.
  induction a as [a_name a_indices| |a_items IH|a_size a_name a_body IH]
    using FormatNode_ind'; intros b size.
  - destruct b; simpl; try raise_now. case_decide; [raise_now|].
    apply raises_only_bind; [apply zip_indices_raises|].
    intros [??]. apply raises_only_Ok.
  - destruct b; simpl; raise_now.
  - destruct b as [| |b_items|]; try (simpl; raise_now).
    rewrite zip_nodes_Sequence. case_decide; [raise_now|].
    apply raises_only_bind; [|intros [??]; apply raises_only_Ok].
    clear -IH. revert b_items size.
    induction IH as [|x xs Hx _ IHxs]; intros [|y ys] size; simpl;
      try apply raises_only_Ok.
    apply raises_only_bind; [apply Hx|]. intros [c size1].
    apply raises_only_bind; [apply IHxs|]. intros [??]. apply raises_only_Ok.
  - destruct b as [| | |b_size b_name b_body]; simpl; try raise_now.
    case_decide; [raise_now|].
    apply raises_only_bind; [apply IH|]. intros [??]. apply raises_only_Ok.
Qed.

Lemma find_counter_raises k used :
  raises_only (λ e, e = AssertionError) (find_counter k used).
Proof.
  induction k as [|k IH]; simpl; case_decide; try (by intros e [= <-]).
  apply IH.
Qed.

Definition analyze_exn (e : exn) : Prop :=
  e = SyntaxError ∨ e = EngineError ∨ e = TypeError ∨ e = AssertionError.

Lemma analyze_dots_raises a b : raises_only analyze_exn (analyze_dots a b).
Proof.
  unfold analyze_dots. apply raises_only_bind.
  { intros e ->%find_counter_raises. unfold analyze_exn. auto. }
  intros name. apply raises_only_bind.
  { intros e [-> | ->]%zip_nodes_raises; unfold analyze_exn; auto. }
  intros [c [size|]]; [apply raises_only_Ok|].
  intros e [= <-]. by left.
Qed.

Lemma analyze_sequence_raises que :
  raises_only analyze_exn (analyze_sequence que).
Proof.
  unfold analyze_sequence. apply raises_only_bind.
  { intros e ->%merge_loop_terminates; [|done]. unfold analyze_exn. auto. }
  intros [|x [|y l]]; apply raises_only_Ok.
Qed.

Lemma analyze_raises_only node : raises_only analyze_exn (analyze node).
Proof.
  induction node as [items IH| |name indices|first last IHf IHl]
    using ParserNode_ind'.
  - rewrite analyze_Sequence. apply raises_only_bind;
      [|intros que; apply analyze_sequence_raises].
    induction IH as [|x xs Hx _ IHxs]; simpl; [apply raises_only_Ok|].
    apply raises_only_bind; [done|]. intros y.
    apply raises_only_bind; [done|]. intros ys. apply raises_only_Ok.
  - apply raises_only_Ok.
  - simpl. destruct indices as [indices|];
      [|intros e [= <-]; unfold analyze_exn; auto].
    apply raises_only_bind; [|intros ?; apply raises_only_Ok].
    induction indices as [|i indices IHi]; [apply raises_only_Ok|].
    apply raises_only_bind.
    { apply raises_only_simplify. unfold analyze_exn. auto. }
    intros e. apply raises_only_bind; [done|]. intros ?.
    apply raises_only_Ok.
  - simpl. apply raises_only_bind; [done|]. intros a.
    apply raises_only_bind; [done|]. intros b. apply analyze_dots_raises.
Qed.

(** X3.  Whatever the parse tree, [analyze] returns or raises one of
    four exceptions: its own [SyntaxError], the exception of the symbolic
    engine, the [TypeError] of an item whose [indices] are [None], or the
    [AssertionError] of the counter scan.  In particular the [while que]
    loop always stops, and [analyze] never raises a [LexerError] or a
    [ParserError]. *)
Theorem analyze_raises (node : ParserNode) (e : exn) :
  analyze node = Raise e →
  e = SyntaxError ∨ e = EngineError ∨ e = TypeError ∨ e = AssertionError.
Proof. apply analyze_raises_only. Qed.

End Exceptions.

(** ** The shape of the result *)

Section Shape.
Context `{Engine}.

(** No sequence of the tree has a sequence among its items, and none has
    exactly one item. *)
#[warnings="-register-all"]
Inductive Normal : FormatNode → Prop :=
| Normal_Item name indices : Normal (ItemNode name indices)
| Normal_Newline : Normal NewlineNode
| Normal_Sequence items :
    length items ≠ 1%nat → Forall (λ x, kind x ≠ 2%nat) items →
    Forall Normal items → Normal (SequenceNode items)
| Normal_Loop size name body :
    Normal body → Normal (LoopNode size name body).

(** The parse tree has no dots pair. *)
#[warnings="-register-all"]
Inductive NoDots : ParserNode → Prop :=
| NoDots_Sequence items :
    Forall NoDots items → NoDots (SequenceParserNode items)
| NoDots_Newline : NoDots NewlineParserNode
| NoDots_Item name indices : NoDots (ItemParserNode name indices).

(** The format tree has no loop. *)
Definition NoLoops : FormatNode → Prop := LoopsSatisfy (λ _ _, False).

Lemma zip_nodes_kind a b name size c size' :
  zip_nodes a b name size = Ok (c, size') → kind c = kind a.
Proof.
  destruct a, b; simpl; try discriminate.
  - case_decide; [discriminate|]. by intros ([??] & _ & [= <- <-])%bind_Ok.
  - by intros [= <- <-].
  - case_decide; [discriminate|]. by intros ([??] & _ & [= <- <-])%bind_Ok.
  - case_decide; [discriminate|]. by intros ([??] & _ & [= <- <-])%bind_Ok.
Qed.

Lemma zip_list_shape name xs : ∀ ys size cs size',
  Forall (λ a, ∀ b size c size',
            zip_nodes a b name size = Ok (c, size') →
            Normal a → Normal c) xs →
  length xs = length ys →
  zip_list name xs ys size = Ok (cs, size') →
  length cs = length xs
  ∧ (Forall (λ x, kind x ≠ 2%nat) xs → Forall (λ x, kind x ≠ 2%nat) cs)
  ∧ (Forall Normal xs → Forall Normal cs).
Proof.
  induction xs as [|x xs IHxs]; intros [|y ys] size cs size' IH Hlen;
    try discriminate; simpl.
  { intros [= <- <-]. auto. }
  apply Forall_cons in IH as [IHx IH]. injection Hlen as Hlen.
  intros ([c size1] & Hc & Hzip)%bind_Ok.
  apply bind_Ok in Hzip as ([cs' size2] & Hcs & [= <- <-]).
  destruct (IHxs _ _ _ _ IH Hlen Hcs) as (Hl & Hk & Hn).
  split; [simpl; by rewrite Hl|]. split.
  - intros [Hx Hxs]%Forall_cons. constructor; [|auto].
    by rewrite (zip_nodes_kind _ _ _ _ _ _ Hc).
  - intros [Hx Hxs]%Forall_cons. constructor; [by eapply IHx|auto].
Qed.

Lemma zip_nodes_Normal name a : ∀ b size c size',
  zip_nodes a b name size = Ok (c, size') → Normal a → Normal c.
Proof.
  induction a as [a_name a_indices| |a_items IH|a_size a_name a_body IH]
    using FormatNode_ind'; intros b size c size'.
  - destruct b; simpl; try discriminate. case_decide; [discriminate|].
    intros ([??] & _ & [= <- <-])%bind_Ok _. constructor.
  - destruct b; simpl; try discriminate. intros [= <- <-] _. constructor.
  - destruct b as [| |b_items|]; try (simpl; discriminate).
    rewrite zip_nodes_Sequence. case_decide as Hlen; [discriminate|].
    intros ([cs size1] & Hzip & [= <- <-])%bind_Ok.
    destruct (zip_list_shape _ _ _ _ _ _ IH Hlen Hzip) as (Hl & Hk & Hn).
    inversion 1; subst. constructor; [by rewrite Hl|auto..].
  - destruct b as [| | |b_size b_name b_body]; simpl; try discriminate.
    case_decide; [discriminate|].
    intros ([c' size1] & Hzip & [= <- <-])%bind_Ok.
    inversion 1; subst. constructor. by eapply IH.
Qed.

Lemma Extends_shape n a : ∀ b c,
  Extends n a b c → kind c = kind b ∧ (Normal b → Normal c).
Proof.
  induction a as [a_name a_indices| |a_items IH|a_size a_name a_body IH]
    using FormatNode_ind'; intros b c; inversion 1; subst.
  - split; [done|]. constructor.
  - done.
  - split; [done|].
    assert (length zs = length ys
            ∧ (Forall (λ x, kind x ≠ 2%nat) ys
               → Forall (λ x, kind x ≠ 2%nat) zs)
            ∧ (Forall Normal ys → Forall Normal zs)) as (Hl & Hk & Hn).
    { match goal with HF : Forall3 _ _ _ _ |- _ =>
        clear -IH HF; induction HF as [|x y z xs ys zs Hxyz _ IHF] end;
        [done|].
      apply Forall_cons in IH as [Hx Hxs].
      destruct (Hx _ _ Hxyz) as [Hkz Hnz].
      destruct (IHF Hxs) as (Hl & Hk & Hn).
      split; [simpl; by rewrite Hl|]. split.
      - intros [Hy Hys]%Forall_cons. constructor; [by rewrite Hkz|auto].
      - intros [Hy Hys]%Forall_cons. constructor; auto. }
    inversion 1; subst. constructor; [by rewrite Hl|auto..].
  - split; [done|]. inversion 1; subst. constructor.
    match goal with HE : Extends _ _ _ _ |- _ =>
      by apply (IH _ _ HE) end.
Qed.

Lemma merge_loop_Normal fuel : ∀ items que r,
  Forall (λ x, kind x ≠ 2%nat ∧ Normal x) items → Forall Normal que →
  merge_loop fuel items que = Ok r →
  Forall (λ x, kind x ≠ 2%nat ∧ Normal x) r.
Proof.
  induction fuel as [|fuel IH]; intros items [|item que] r Hitems Hque;
    simpl; try discriminate; try (by intros [= <-]).
  apply Forall_cons in Hque as [Hitem Hque].
  assert (kind item ≠ 2%nat →
          Forall (λ x, kind x ≠ 2%nat ∧ Normal x) (items ++ [item]))
    as Hpush.
  { intros Hk. apply Forall_app. split; [done|]. by repeat constructor. }
  destruct item as [name indices| |item_items|size name body].
  - apply IH; [by apply Hpush|done].
  - apply IH; [by apply Hpush|done].
  - apply IH; [done|]. apply Forall_app. split; [|done]. by inversion Hitem.
  - destruct items as [|x xs]; [apply IH; [by apply Hpush|done]|].
    destruct (split_items (x :: xs) body) as [items_init items_tail]
      eqn:Hsplit.
    destruct (split_items_group (x :: xs) body items_init items_tail)
      as (g & Hg & _ & _); [done..|].
    rewrite Hg in Hitems. apply Forall_app in Hitems as Hsplit'.
    destruct Hsplit' as [Hinit _]. rewrite <- Hg in Hitems.
    destruct (exnted_loop_node items_tail body name) as [[c|]|e'] eqn:Hext;
      simpl; [|apply IH; [by apply Hpush|done]|discriminate].
    destruct (simplify (size ++ " + 1")) as [e1|]; simpl; [|discriminate].
    apply IH; [done|]. constructor; [|done].
    apply exnted_loop_node_Extends, Extends_shape in Hext as [_ Hn].
    inversion Hitem; subst. constructor. auto.
Qed.

Lemma analyze_list_Forall (P : ParserNode → Prop) (Q : FormatNode → Prop)
    items :
  Forall (λ x, P x → ∀ t, analyze x = Ok t → Q t) items →
  Forall P items → ∀ que, analyze_list items = Ok que → Forall Q que.
Proof.
  induction 1 as [|x xs Hx _ IHxs]; intros HP que; simpl.
  - by intros [= <-].
  - apply Forall_cons in HP as [HPx HPxs].
    intros (y & Hy & (ys & Hys & [= <-])%bind_Ok)%bind_Ok.
    constructor; auto.
Qed.

Lemma analyze_Normal node : ∀ t, analyze node = Ok t → Normal t.
Proof.
  induction node as [items IH| |name indices|first last IHf IHl]
    using ParserNode_ind'; intros t.
  - rewrite analyze_Sequence.
    intros (que & Hque & Hseq)%bind_Ok.
    assert (Forall Normal que) as Hsc.
    { apply (analyze_list_Forall (λ _, True) Normal items); [|by apply Forall_true|done].
      eapply Forall_impl; [exact IH|]. simpl. auto. }
    unfold analyze_sequence in Hseq.
    apply bind_Ok in Hseq as (r & Hr & Ht).
    apply merge_loop_Normal in Hr; [|done..].
    apply Forall_and in Hr as [Hk Hn].
    destruct r as [|t1 [|t2 r]]; injection Ht as <-.
    + by constructor.
    + by inversion Hn.
    + by constructor.
  - simpl. intros [= <-]. constructor.
  - simpl. destruct indices; [|discriminate].
    intros (? & _ & [= <-])%bind_Ok. constructor.
  - simpl. intros (a & Ha & (b & Hb & Hd)%bind_Ok)%bind_Ok.
    apply analyze_dots_Ok in Hd
      as (size & name & body & k & -> & Hz & _).
    constructor. eapply zip_nodes_Normal; [done|]. by apply IHf.
Qed.

Lemma merge_loop_NoLoops fuel : ∀ items que r,
  Forall NoLoops items → Forall NoLoops que →
  merge_loop fuel items que = Ok r → Forall NoLoops r.
Proof.
  induction fuel as [|fuel IH]; intros items [|item que] r Hitems Hque;
    simpl; try discriminate; try (by intros [= <-]).
  apply Forall_cons in Hque as [Hitem Hque].
  assert (Forall NoLoops (items ++ [item])) as Hpush.
  { apply Forall_app. split; [done|]. by repeat constructor. }
  destruct item as [name indices| |item_items|size name body];
    try (by apply IH).
  - apply IH; [done|]. apply Forall_app. split; [|done]. by inversion Hitem.
  - by inversion Hitem.
Qed.

Lemma analyze_NoLoops node : ∀ t,
  NoDots node → analyze node = Ok t → NoLoops t.
Proof.
  induction node as [items IH| |name indices|first last IHf IHl]
    using ParserNode_ind'; intros t Hnd.
  - rewrite analyze_Sequence.
    intros (que & Hque & Hseq)%bind_Ok.
    assert (Forall NoLoops que) as Hsc.
    { apply (analyze_list_Forall NoDots NoLoops items); [|by inversion Hnd|done].
      eapply Forall_impl; [exact IH|]. simpl. auto. }
    unfold analyze_sequence in Hseq.
    apply bind_Ok in Hseq as (r & Hr & Ht).
    apply merge_loop_NoLoops in Hr; [|done..].
    destruct r as [|t1 [|t2 r]]; injection Ht as <-.
    + by constructor.
    + by inversion Hr.
    + by constructor.
  - simpl. intros [= <-]. constructor.
  - simpl. destruct indices; [|discriminate].
    intros (? & _ & [= <-])%bind_Ok. constructor.
  - inversion Hnd.
Qed.

(** X4.  In every tree that [analyze] returns no sequence has a sequence
    among its items (the sequences met in the queue are flattened), and
    no sequence has exactly one item (the node is returned directly). *)
Theorem analyze_normal_form (node : ParserNode) (t : FormatNode) :
  analyze node = Ok t → Normal t.
Proof. apply analyze_Normal. Qed.

(** X5.  Loops come from dots pairs only: the tree that [analyze] returns
    for a parse tree without a dots pair has no loop. *)
Theorem analyze_no_dots_no_loops (node : ParserNode) (t : FormatNode) :
  NoDots node → analyze node = Ok t → NoLoops t.
Proof. apply analyze_NoLoops. Qed.

End Shape.

(** ** Formats without dots *)

Section Plain.
Context `{Engine}.

(** The items of a tree with the sequences taken apart, first to last. *)
Fixpoint flat_items (t : FormatNode) : list FormatNode :=
  match t with
  | SequenceNode items =>
      (fix go (l : list FormatNode) : list FormatNode :=
         match l with
         | [] => []
         | x :: l' => (flat_items x ++ go l')%list
         end) items
  | _ => [t]
  end.

(** The items and line ends of a parse tree, first to last. *)
Fixpoint parser_leaves (node : ParserNode) : list ParserNode :=
  match node with
  | SequenceParserNode items =>
      (fix go (l : list ParserNode) : list ParserNode :=
         match l with
         | [] => []
         | x :: l' => (parser_leaves x ++ go l')%list
         end) items
  | _ => [node]
  end.

Lemma flat_items_Sequence items :
  flat_items (SequenceNode items) = concat (flat_items <$> items).
Proof. simpl. induction items as [|x xs IH]; simpl; [done|]. by rewrite IH. Qed.

Lemma parser_leaves_Sequence items :
  parser_leaves (SequenceParserNode items)
  = concat (parser_leaves <$> items).
Proof. simpl. induction items as [|x xs IH]; simpl; [done|]. by rewrite IH. Qed.

Lemma flat_items_single t : kind t ≠ 2%nat → flat_items t = [t].
Proof. by destruct t. Qed.

Lemma flat_items_singles r :
  Forall (λ x, kind x ≠ 2%nat) r → concat (flat_items <$> r) = r.
Proof.
  induction 1 as [|x r Hx _ IH]; [done|].
  rewrite fmap_cons. cbn [concat].
  by rewrite (flat_items_single x Hx), IH.
Qed.

Lemma merge_loop_flatten fuel : ∀ items que,
  Forall NoLoops que → (queue_fuel items que ≤ fuel)%nat →
  merge_loop fuel items que
  = Ok (items ++ concat (flat_items <$> que))%list.
Proof.
  induction fuel as [|fuel IH]; intros items [|item que] Hque Hfuel;
    simpl.
  - by rewrite app_nil_r.
  - unfold queue_fuel in Hfuel. simpl in Hfuel.
    pose proof (weight_pos item). lia.
  - by rewrite app_nil_r.
  - apply Forall_cons in Hque as [Hitem Hque].
    assert (queue_fuel (items ++ [item]) que ≤ fuel)%nat as Hpush.
    { revert Hfuel. unfold queue_fuel. rewrite length_app. simpl.
      pose proof (weight_pos item). lia. }
    destruct item as [name indices| |item_items|size name body].
    + rewrite IH by done. by rewrite <- app_assoc.
    + rewrite IH by done. by rewrite <- app_assoc.
    + rewrite IH.
      * rewrite fmap_app, concat_app.
        change ((fix go (l : list FormatNode) : list FormatNode :=
                   match l with
                   | [] => []
                   | x :: l' => (flat_items x ++ go l')%list
                   end) item_items)
          with (flat_items (SequenceNode item_items)).
        by rewrite flat_items_Sequence.
      * apply Forall_app. split; [by inversion Hitem|done].
      * unfold queue_fuel in *. rewrite sum_list_with_app.
        change (sum_list_with weight (SequenceNode item_items :: que))
          with (weight (SequenceNode item_items)
                + sum_list_with weight que)%nat in Hfuel.
        rewrite weight_Sequence in Hfuel. lia.
    + by inversion Hitem.
Qed.

Lemma analyze_list_app xs ys :
  analyze_list (xs ++ ys)
  = a ← analyze_list xs; b ← analyze_list ys; Ok (a ++ b)%list.
Proof.
  induction xs as [|x xs IH]; simpl.
  - by destruct (analyze_list ys).
  - destruct (analyze x) as [y|e]; simpl; [|done]. rewrite IH.
    destruct (analyze_list xs) as [a|e]; simpl; [|done].
    by destruct (analyze_list ys).
Qed.

Lemma analyze_plain node : ∀ t,
  NoDots node → analyze node = Ok t →
  analyze_list (parser_leaves node) = Ok (flat_items t).
Proof.
  induction node as [items IH| |name indices|first last IHf IHl]
    using ParserNode_ind'; intros t Hnd.
  - inversion Hnd as [? Hitems| |]; subst.
    rewrite analyze_Sequence. intros (que & Hque & Hseq)%bind_Ok.
    assert (Forall NoLoops que) as Hnl.
    { apply (analyze_list_Forall NoDots NoLoops items); [|done..].
      eapply Forall_impl; [exact IH|]. simpl. intros x _ ? ?.
      by apply analyze_NoLoops. }
    assert (Forall (λ x, kind x ≠ 2%nat ∧ Normal x)
              (concat (flat_items <$> que))) as Hflat.
    { apply (merge_loop_Normal (queue_fuel [] que) [] que); [done| |].
      - apply (analyze_list_Forall (λ _, True) Normal items);
          [|by apply Forall_true|done].
        apply Forall_forall. intros x _ _ t'. apply analyze_Normal.
      - by rewrite merge_loop_flatten. }
    apply Forall_and in Hflat as [Hkind _].
    unfold analyze_sequence in Hseq.
    rewrite merge_loop_flatten in Hseq by done. simpl in Hseq.
    assert (analyze_list (parser_leaves (SequenceParserNode items))
            = Ok (concat (flat_items <$> que))) as ->.
    { rewrite parser_leaves_Sequence. clear -IH Hitems Hque.
      revert que Hque.
      induction IH as [|x xs Hx _ IHxs]; intros que Hq.
      - by injection Hq as <-.
      - apply Forall_cons in Hitems as [Hndx Hndxs].
        cbn [analyze_list] in Hq.
        apply bind_Ok in Hq as (y & Hy & (ys & Hys & [= <-])%bind_Ok).
        rewrite !fmap_cons. cbn [concat].
        by rewrite analyze_list_app, (Hx y Hndx Hy), (IHxs Hndxs ys Hys). }
    f_equal. destruct (concat (flat_items <$> que)) as [|t1 [|t2 r]] eqn:Hr;
      injection Hseq as <-.
    + done.
    + apply Forall_cons in Hkind as [Hk _].
      by rewrite (flat_items_single t1 Hk).
    + by rewrite flat_items_Sequence, flat_items_singles.
  - simpl. intros [= <-]. done.
  - simpl. destruct indices as [indices|]; [|discriminate].
    intros (cis & Hcis & [= <-])%bind_Ok.
    cbn [parser_leaves analyze_list analyze]. by rewrite Hcis.
  - inversion Hnd.
Qed.

(** X15.  For a parse tree without a dots pair nothing is merged, lost or
    reordered: the items of the tree that [analyze] returns, with the
    sequences taken apart, are the analyzed items and line ends of the
    parse tree, first to last. *)
Theorem analyze_plain_format (node : ParserNode) (t : FormatNode) :
  NoDots node → analyze node = Ok t →
  analyze_list (parser_leaves node) = Ok (flat_items t).
Proof. apply analyze_plain. Qed.

End Plain.

(** ** The counter in an index *)

Section Decrement.
Context `{Engine}.




End Decrement.

(** ** The names of a unified pair *)

Section Names.
Context `{Engine}.

Lemma zip_nodes_names_last a : ∀ b name size c size',
  zip_nodes a b name size = Ok (c, size') →
  list_used_names b = list_used_names a.
Proof.
  induction a as [a_name a_indices| |a_items IH|a_size a_name a_body IH]
    using FormatNode_ind'; intros b name size c size'.
  - destruct b as [b_name b_indices| | |]; simpl; try discriminate.
    case_decide as Hne; [discriminate|]. intros _.
    destruct (decide (a_name = b_name)) as [->|]; [done|].
    destruct Hne. auto.
  - by destruct b.
  - destruct b as [| |b_items|]; try (simpl; discriminate).
    rewrite zip_nodes_Sequence. case_decide as Hlen; [discriminate|].
    intros ([cs size1] & Hzip & _)%bind_Ok.
    rewrite !list_used_names_Sequence. f_equal.
    revert b_items size cs size1 Hlen Hzip.
    induction IH as [|x xs Hx _ IHxs]; intros [|y ys] size cs size1 Hlen;
      simpl in *; try done.
    intros ([c1 s1] & Hc & Hzip)%bind_Ok.
    apply bind_Ok in Hzip as ([cs' s2] & Hcs & _).
    rewrite (Hx _ _ _ _ _ Hc). f_equal. eapply IHxs; [|done]. congruence.
  - destruct b as [| | |b_size b_name b_body]; simpl; try discriminate.
    case_decide as Hne; [discriminate|].
    intros ([c' size1] & Hzip & _)%bind_Ok.
    rewrite (IH _ _ _ _ _ Hzip).
    destruct (decide (a_name = b_name)) as [->|]; [done|].
    destruct Hne. auto.
Qed.

(** X7.  Two trees that [zip_nodes] unifies use the same names, of items
    and of loop counters, and the unified tree uses these names and no
    other: the counter of the new loop goes into the indices only. *)
Theorem zip_nodes_same_names (a b c : FormatNode) (name : string)
    (size size' : option string) :
  zip_nodes a b name size = Ok (c, size') →
  list_used_names b = list_used_names a
  ∧ list_used_names c = list_used_names a.
Proof.
  intros Hzip. split.
  - by eapply zip_nodes_names_last.
  - by eapply zip_nodes_names.
Qed.

Lemma zip_indices_same name ais : ∀ size,
  Forall (λ i, is_Some (parse_expr i)) ais →
  zip_indices name ais ais size = Ok (ais, size).
Proof.
  induction ais as [|i ais IH]; intros size Hall; [done|].
  apply Forall_cons in Hall as [[e He] Hall]. simpl.
  unfold simplify. rewrite He. simpl.
  rewrite decide_True by done. by rewrite IH.
Qed.

Lemma zip_nodes_same_aux name a : ∀ size,
  Forall (λ i, is_Some (parse_expr i)) (all_indices a) →
  zip_nodes a a name size = Ok (a, size).
Proof.
  induction a as [a_name a_indices| |a_items IH|a_size a_name a_body IH]
    using FormatNode_ind'; intros size Hall.
  - simpl. rewrite decide_False by (intros [?|?]; done).
    by rewrite zip_indices_same.
  - done.
  - rewrite zip_nodes_Sequence. rewrite decide_False by (by intros ?).
    assert (zip_list name a_items a_items size = Ok (a_items, size)) as ->;
      [|done].
    change (Forall (λ i, is_Some (parse_expr i))
              (all_indices (SequenceNode a_items))) in Hall.
    revert size Hall.
    induction IH as [|x xs Hx _ IHxs]; intros size Hall; [done|].
    simpl in Hall. apply Forall_app in Hall as [Hx' Hxs'].
    simpl. rewrite (Hx size Hx'). simpl. by rewrite (IHxs size Hxs').
  - simpl. rewrite decide_False by (intros [?|?]; done).
    simpl in Hall. by rewrite (IH size Hall).
Qed.

(** X14.  A tree whose indices the engine can all read unifies with
    itself, unchanged and without fixing a trip count: no index position
    varies.  Hence a dots pair with two equal ends is refused with a
    [SyntaxError]. *)
Theorem zip_nodes_same (a : FormatNode) (name : string)
    (size : option string) :
  Forall (λ i, is_Some (parse_expr i)) (all_indices a) →
  zip_nodes a a name size = Ok (a, size)
  ∧ unify a a name = Raise SyntaxError.
Proof.
  intros Hall. split; [by apply zip_nodes_same_aux|].
  unfold unify. by rewrite zip_nodes_same_aux.
Qed.

End Names.

(** ** The positions that the lexer gives *)

Module LexFacts.
Import Lex.

(** The number of line feeds of a text. *)
Fixpoint count_newlines (s : text) : nat :=
  match s with
  | [] => 0
  | c :: s' => ((if (c =? 10)%N then 1 else 0) + count_newlines s')%nat
  end.

(** A match of the rule consumes at least one character of the text, no
    more than there are, and [nl] line feeds. *)
Definition consumes (nl : nat) (r : matcher) : Prop :=
  ∀ s v len, r s = Some (v, len) →
    (1 ≤ len ≤ length s)%nat ∧ count_newlines (take len s) = nl.

Definition newlines_of (ty : option token_type) : nat :=
  match ty with
  | Some NEWLINE => 1
  | _ => 0
  end.

Lemma count_newlines_app s1 s2 :
  count_newlines (s1 ++ s2)%list
  = (count_newlines s1 + count_newlines s2)%nat.
Proof. induction s1 as [|c s1 IH]; simpl; [done|]. rewrite IH. lia. Qed.

Lemma count_newlines_class (class : N → bool) s :
  class 10%N = false → Forall (λ c, class c = true) s →
  count_newlines s = 0%nat.
Proof.
  intros H10. induction 1 as [|c s Hc _ IH]; simpl; [done|].
  destruct (N.eqb_spec c 10) as [->|]; [congruence|done].
Qed.

Lemma starts_with_take l : ∀ s,
  starts_with l s = true → take (length l) s = l ∧ (length l ≤ length s)%nat.
Proof.
  induction l as [|a l IH]; intros s; simpl.
  { intros _. split; [done|lia]. }
  destruct s as [|b s]; [done|].
  intros [Hab Hl]%andb_prop. apply N.eqb_eq in Hab as ->.
  destruct (IH _ Hl) as [Ht ?]. simpl. rewrite Ht. split; [done|lia].
Qed.

Lemma text_of_string_length l : length (text_of_string l) = String.length l.
Proof.
  unfold text_of_string. rewrite length_fmap.
  induction l as [|c l IH]; simpl; [done|]. by rewrite IH.
Qed.

Lemma consumes_lit l nl :
  (1 ≤ String.length l)%nat → count_newlines (text_of_string l) = nl →
  consumes nl (lit l).
Proof.
  intros Hl Hnl s v len. unfold lit.
  destruct (starts_with (text_of_string l) s) eqn:Hs; [|done].
  intros [= <- <-]. apply starts_with_take in Hs as [Ht Hlen].
  rewrite text_of_string_length in Ht, Hlen. rewrite Ht. auto.
Qed.

Lemma consumes_chr c v : c ≠ 10%N → consumes 0 (chr c v).
Proof.
  intros Hc [|c' s] v' len; simpl; [done|].
  destruct (N.eqb_spec c c') as [<-|]; [|done]. intros [= <- <-].
  simpl. split; [lia|]. rewrite ?take_0. simpl.
  by destruct (N.eqb_spec c 10).
Qed.

Lemma consumes_alt nl r1 r2 :
  consumes nl r1 → consumes nl r2 → consumes nl (alt r1 r2).
Proof.
  intros H1 H2 s v len. unfold alt.
  destruct (r1 s) as [[v1 len1]|] eqn:Hr1.
  - intros [= <- <-]. by apply (H1 s v1 len1).
  - apply H2.
Qed.

Lemma take_while_take class s :
  take (length (take_while class s)) s = take_while class s
  ∧ Forall (λ c, class c = true) (take_while class s)
  ∧ (length (take_while class s) ≤ length s)%nat.
Proof.
  induction s as [|c s (IH1 & IH2 & IH3)]; simpl; [by auto|].
  destruct (class c) eqn:Hc; simpl.
  - rewrite IH1. split; [done|]. split; [by constructor|lia].
  - split; [done|]. split; [constructor|lia].
Qed.

Lemma consumes_many1 class : class 10%N = false → consumes 0 (many1 class).
Proof.
  intros H10 s v len. unfold many1.
  destruct (take_while_take class s) as (Ht & Hall & Hlen).
  destruct (take_while class s) as [|c run] eqn:Hrun; [done|].
  intros [= <- <-]. cbn [length] in *. rewrite Ht. split; [lia|].
  by eapply count_newlines_class.
Qed.

Lemma consumes_dots_run : consumes 0 dots_run.
Proof.
  intros s v len. unfold dots_run.
  destruct s as [|c1 [|c2 s]]; [done|by repeat case_match|].
  destruct (N.eq_dec c1 46%N) as [->|]; [|by repeat case_match].
  destruct (N.eq_dec c2 46%N) as [->|]; [|by repeat case_match].
  intros [= <- <-].
  destruct (take_while_take (N.eqb 46%N) s) as (Ht & Hall & Hlen).
  simpl. rewrite Ht. split; [lia|].
  by apply (count_newlines_class (N.eqb 46%N)).
Qed.

Lemma rules_consume :
  Forall (λ rule, consumes (newlines_of rule.1) rule.2) rules.
Proof.
  unfold rules, t_NEWLINE, t_tex_space, t_DOTS, t_MUL, t_VDOTS, t_IDENT,
    t_NUMBER, t_ADD, t_UNDERSCORE, t_LBRACE, t_RBRACE, t_COMMA, t_SUB,
    t_DIV.
  repeat apply Forall_cons_2; try apply Forall_nil_2; simpl;
    repeat apply consumes_alt;
    try (apply consumes_lit; [simpl; lia|reflexivity]);
    try (by apply consumes_chr);
    try (by apply consumes_many1);
    apply consumes_dots_run.
Qed.

Lemma first_match_consumes rs s ty v len :
  Forall (λ rule, consumes (newlines_of rule.1) rule.2) rs →
  first_match rs s = Some (ty, v, len) →
  (1 ≤ len ≤ length s)%nat ∧ count_newlines (take len s) = newlines_of ty.
Proof.
  induction 1 as [|[ty' r] rs Hr _ IH]; simpl; [done|].
  destruct (r s) as [[v' len']|] eqn:Hrs; [|done].
  intros [= <- <- <-]. by apply (Hr s v' len').
Qed.

Lemma t_ignore_newline c : t_ignore c = true → (c =? 10)%N = false.
Proof.
  unfold t_ignore. intros Hc. destruct (N.eqb_spec c 10) as [->|]; done.
Qed.

(** The token or the error at offset [k] of the text [s], which starts
    at the position [lexpos] of the input in line [lineno], has the
    position [p] and the line [l]. *)
Definition located (s : text) (lineno lexpos : Z) (l p : Z) (k : nat)
    : Prop :=
  (k < length s)%nat ∧ p = (lexpos + Z.of_nat k)%Z
  ∧ l = (lineno + Z.of_nat (count_newlines (take k s)))%Z.

Lemma located_drop n s lineno lexpos l p k :
  (n ≤ length s)%nat →
  located (drop n s) (lineno + Z.of_nat (count_newlines (take n s)))
    (lexpos + Z.of_nat n) l p k →
  located s lineno lexpos l p (n + k).
Proof.
  intros Hn (Hk & -> & ->). rewrite length_drop in Hk.
  split; [lia|]. split; [lia|].
  rewrite <- take_take_drop, count_newlines_app. lia.
Qed.

(** What [tokens_from] gives for a text that the fuel covers: tokens at
    offsets of the text, with the line of their offset, or the
    [LexerError] for the character at an offset, with the line of that
    offset. *)
Definition lexed (s : text) (lineno lexpos : Z)
    (r : outcome (list LexToken)) : Prop :=
  match r with
  | Ok toks =>
      Forall (λ t, ∃ k, located s lineno lexpos
                          (tok_lineno t) (tok_lexpos t) k) toks
  | Raise (LexerError c l p) =>
      ∃ k, located s lineno lexpos l p k ∧ s !! k = Some c
  | Raise _ => False
  end.

Lemma lexed_drop n s lineno lexpos r :
  (n ≤ length s)%nat →
  lexed (drop n s) (lineno + Z.of_nat (count_newlines (take n s)))
    (lexpos + Z.of_nat n) r →
  lexed s lineno lexpos r.
Proof.
  intros Hn. destruct r as [toks|[]]; unfold lexed; try done.
  - intros HF. eapply Forall_impl; [exact HF|].
    intros t (k & Hk). exists (n + k)%nat. by apply located_drop.
  - intros (k & Hk & Hc). exists (n + k)%nat.
    split; [by apply located_drop|].
    exact (eq_trans (eq_sym (lookup_drop s n k)) Hc).
Qed.

Lemma tokens_from_lexed fuel : ∀ lineno lexpos s,
  (length s ≤ fuel)%nat →
  lexed s lineno lexpos (tokens_from fuel lineno lexpos s).
Proof.
  induction fuel as [|fuel IH]; intros lineno lexpos [|c s] Hfuel;
    simpl in Hfuel; try lia; try (by constructor).
  cbn [tokens_from].
  destruct (t_ignore c) eqn:Hign.
  { apply (lexed_drop 1 (c :: s)); [simpl; lia|].
    replace (count_newlines (take 1 (c :: s))) with 0%nat
      by (simpl; by rewrite (t_ignore_newline c Hign)).
    change (Z.of_nat 0) with 0%Z. rewrite Z.add_0_r. apply IH. lia. }
  destruct (first_match rules (c :: s)) as [[[[ty|] v] len]|] eqn:Hm.
  - destruct (first_match_consumes _ _ _ _ _ rules_consume Hm)
      as [Hlen Hnl].
    cbn [length] in Hlen.
    assert (lexed (c :: s) lineno lexpos
              (tokens_from fuel
                 (lineno + Z.of_nat (count_newlines (take len (c :: s))))
                 (lexpos + Z.of_nat len) (drop len (c :: s)))) as Hrest.
    { apply (lexed_drop len); [cbn [length]; lia|]. apply IH.
      rewrite length_drop. cbn [length]. lia. }
    rewrite Hnl in Hrest.
    replace (match ty with NEWLINE => (lineno + 1)%Z | _ => lineno end)
      with (lineno + Z.of_nat (newlines_of (Some ty)))%Z
      by (destruct ty; simpl; lia).
    destruct (tokens_from fuel _ _ (drop len (c :: s))) as [toks|e];
      [|exact Hrest].
    constructor; [|exact Hrest]. exists 0%nat.
    split; [cbn [length]; lia|]. cbn [tok_lineno tok_lexpos take firstn].
    split; simpl; lia.
  - destruct (first_match_consumes _ _ _ _ _ rules_consume Hm)
      as [Hlen Hnl].
    cbn [length] in Hlen.
    apply (lexed_drop len); [cbn [length]; lia|]. rewrite Hnl.
    change (Z.of_nat (newlines_of None)) with 0%Z.
    rewrite Z.add_0_r. apply IH. rewrite length_drop. cbn [length]. lia.
  - exists 0%nat. split; [|done].
    split; [cbn [length]; lia|]. split; simpl; lia.
Qed.

(** The positions of the tokens increase, from [lo] on. *)
Fixpoint increasing (lo : Z) (toks : list LexToken) : Prop :=
  match toks with
  | [] => True
  | t :: toks' => (lo ≤ tok_lexpos t)%Z ∧ increasing (tok_lexpos t + 1) toks'
  end.

Lemma increasing_mono lo lo' toks :
  (lo' ≤ lo)%Z → increasing lo toks → increasing lo' toks.
Proof. destruct toks as [|t toks]; simpl; [done|]. intros ? [? ?]. split; [lia|done]. Qed.

Lemma tokens_from_increasing fuel : ∀ lineno lexpos s toks,
  tokens_from fuel lineno lexpos s = Ok toks → increasing lexpos toks.
Proof.
  induction fuel as [|fuel IH]; intros lineno lexpos [|c s] toks;
    try (by intros [= <-]); try discriminate.
  cbn [tokens_from].
  destruct (t_ignore c).
  { intros Ht%IH. eapply increasing_mono; [|done]. lia. }
  destruct (first_match rules (c :: s)) as [[[[ty|] v] len]|] eqn:Hm;
    [| |discriminate];
    destruct (first_match_consumes _ _ _ _ _ rules_consume Hm)
      as [Hlen _].
  - intros (rest & Hrest%IH & [= <-])%bind_Ok. simpl. split; [lia|].
    eapply increasing_mono; [|done]. lia.
  - intros Ht%IH. eapply increasing_mono; [|done]. lia.
Qed.

(** X8.  When the lexer returns tokens, the [lexpos] of every token is an
    offset into the input, counted from 0, and its [lineno] is 1 plus the
    number of line feeds before that offset; the tokens come in
    increasing order of [lexpos]. *)
Theorem tokenize_positions (input : text) (toks : list LexToken) :
  tokenize input = Ok toks →
  Forall (λ t, ∃ k : nat,
            (k < length input)%nat ∧ tok_lexpos t = Z.of_nat k
            ∧ tok_lineno t
              = (1 + Z.of_nat (count_newlines (take k input)))%Z) toks
  ∧ increasing 0 toks.
Proof.
  unfold tokenize. intros Ht. split; [|by eapply tokens_from_increasing].
  pose proof (tokens_from_lexed (length input) 1 0 input ltac:(lia)) as Hl.
  rewrite Ht in Hl. eapply Forall_impl; [exact Hl|].
  intros t (k & Hk & Hp & Hline). exists k. split; [done|]. split; [lia|done].
Qed.

(** X9.  The lexer stops on every input, with tokens or with a
    [LexerError]; the error carries the offending character, found at
    some offset [k] of the input, the line of that character (1 plus the
    number of line feeds before it) and, where the message says
    [column], the offset [k] itself, counted from the start of the whole
    input and from 0. *)
Theorem tokenize_error (input : text) (e : exn) :
  tokenize input = Raise e →
  ∃ (c : N) (k : nat),
    input !! k = Some c
    ∧ e = LexerError c (1 + Z.of_nat (count_newlines (take k input)))
            (Z.of_nat k).
Proof.
  unfold tokenize. intros Ht.
  pose proof (tokens_from_lexed (length input) 1 0 input ltac:(lia)) as Hl.
  rewrite Ht in Hl. destruct e; try done.
  destruct Hl as (k & (Hk & -> & ->) & Hc). exists character, k.
  split; [done|]. f_equal.
Qed.

End LexFacts.

(** ** The column of a position *)

Module YaccFacts.
Import Yacc.

(** [input.rfind('\n', 0, stop)], started at index [i] of the input with
    the rest [s] to scan: the result is the index of the last line feed
    before [stop], or [found] when there is none in [s] before [stop]. *)
Lemma rfind_newline_spec s : ∀ i found stop,
  (rfind_newline i found stop s = found
   ∧ ∀ k : nat, (k < length s)%nat → (i + Z.of_nat k < stop)%Z →
                s !! k ≠ Some 10%N)
  ∨ (∃ k : nat,
       rfind_newline i found stop s = (i + Z.of_nat k)%Z
       ∧ (i + Z.of_nat k < stop)%Z ∧ s !! k = Some 10%N
       ∧ ∀ k' : nat, (k < k')%nat → (k' < length s)%nat →
                     (i + Z.of_nat k' < stop)%Z → s !! k' ≠ Some 10%N).
Proof.
  induction s as [|c s IH]; intros i found stop; simpl.
  { left. split; [done|]. intros k Hk. lia. }
  destruct (Z.ltb_spec i stop) as [Hlt|Hge].
  - destruct (IH (i + 1)%Z (if (c =? 10)%N then i else found) stop)
      as [[Hr Hnone]|(k & Hr & Hk & Hc & Hnone)].
    + destruct (N.eqb_spec c 10) as [->|Hc].
      * right. exists 0%nat. rewrite Hr. split; [lia|]. split; [lia|].
        split; [done|]. intros [|k'] ? ? ?; [lia|]. simpl.
        apply Hnone; lia.
      * left. split; [done|]. intros [|k] ? ?; simpl; [congruence|].
        apply Hnone; lia.
    + right. exists (S k). rewrite Hr. split; [lia|]. split; [lia|].
      split; [done|]. intros [|k'] ? ? ?; [lia|]. simpl.
      apply Hnone; lia.
  - left. split; [done|]. intros k ? ?. lia.
Qed.

(** X10.  [find_column] gives the column of a position counted from 1
    within its line: it is [j + 1], where the [j] characters before the
    position hold no line feed and are preceded by a line feed or by the
    start of the input. *)
Theorem find_column_spec (input : text) (n : nat) :
  ∃ j : nat,
    find_column input (Z.of_nat n) = (Z.of_nat j + 1)%Z
    ∧ (j ≤ n)%nat
    ∧ (∀ m : nat, (n - j ≤ m < n)%nat → input !! m ≠ Some 10%N)
    ∧ (j = n ∨ input !! (n - j - 1)%nat = Some 10%N).
Proof.
  unfold find_column.
  destruct (rfind_newline_spec input 0 (-1) (Z.of_nat n))
    as [[-> Hnone]|(k & -> & Hk & Hc & Hnone)].
  - exists n. split; [lia|]. split; [done|]. split; [|by left].
    intros m Hm Hin. destruct (decide (m < length input)%nat) as [Hlt|Hge].
    + by apply (Hnone m); [|lia|].
    + pose proof (lookup_lt_Some input m 10%N Hin). lia.
  - exists (n - k - 1)%nat. split; [lia|]. split; [lia|]. split.
    + intros m Hm Hin. destruct (decide (m < length input)%nat) as [Hlt|Hge].
      * by apply (Hnone m); [lia| |lia|].
      * pose proof (lookup_lt_Some input m 10%N Hin). lia.
    + right. replace (n - (n - k - 1) - 1)%nat with k by lia. done.
Qed.

(** *** The subscripts that the parser builds *)

(** Every item of the parse tree has no [indices] at all (they are
    [None]), or at most one index. *)
#[warnings="-register-all"]
Inductive AtMostOneIndex : ParserNode → Prop :=
| AtMostOneIndex_Sequence items :
    Forall AtMostOneIndex items → AtMostOneIndex (SequenceParserNode items)
| AtMostOneIndex_Newline : AtMostOneIndex NewlineParserNode
| AtMostOneIndex_Item name indices :
    (∀ l, indices = Some l → (length l ≤ 1)%nat) →
    AtMostOneIndex (ItemParserNode name indices)
| AtMostOneIndex_Dots first last :
    AtMostOneIndex first → AtMostOneIndex last →
    AtMostOneIndex (DotsParserNode first last).

Section ParserShape.
Variable input : text.

Lemma p_exprs_indices fuel : ∀ ts indices rest,
  p_exprs input fuel ts = Ok (indices, rest) →
  ∀ l, indices = Some l → (length l ≤ 1)%nat.
Proof.
  destruct fuel as [|fuel]; intros ts indices rest; simpl; [done|].
  intros ([e r] & _ & Hr)%bind_Ok. destruct r as [|t r]; [done|].
  destruct (tok_type t); try done.
  - injection Hr as <- <-. intros l [= <-]. simpl. lia.
  - by apply bind_Ok in Hr as ([? ?] & _ & [= <- <-]).
Qed.

Lemma p_item_indices fuel ts p rest :
  p_item input fuel ts = Ok (p, rest) → AtMostOneIndex p.
Proof.
  unfold p_item. destruct ts as [|t1 ts1]; [done|].
  destruct (tok_type t1); try done.
  destruct ts1 as [|t2 ts2];
    [intros [= <- <-]; constructor; intros l [= <-]; simpl; lia|].
  destruct (tok_type t2);
    try (intros [= <- <-]; constructor; intros l [= <-]; simpl; lia).
  destruct ts2 as [|t3 ts3]; [done|].
  destruct (tok_type t3); try done;
    try (intros [= <- <-]; constructor; intros l [= <-]; simpl; lia).
  intros ([indices r] & Hi & [= <- <-])%bind_Ok.
  constructor. by eapply p_exprs_indices.
Qed.

Lemma p_items_indices fuel : ∀ ts items rest,
  p_items input fuel ts = Ok (items, rest) → Forall AtMostOneIndex items.
Proof.
  induction fuel as [|fuel IH]; intros ts items rest; simpl; [done|].
  intros ([p1 r1] & Hp1%p_item_indices & Hr)%bind_Ok.
  destruct r1 as [|t r1]; [done|].
  destruct (tok_type t); try done.
  - injection Hr as <- <-. by repeat constructor.
  - apply bind_Ok in Hr as ([l r2] & Hl%IH & [= <- <-]). by constructor.
  - apply bind_Ok in Hr as ([p3 r3] & Hp3%p_item_indices & Hr).
    destruct r3 as [|t' r3]; [done|].
    destruct (tok_type t'); try done.
    + by injection Hr as <- <-; repeat constructor.
    + by apply bind_Ok in Hr as ([? ?] & _ & Hr).
Qed.

Lemma p_line_indices fuel ts p rest :
  p_line input fuel ts = Ok (p, rest) → AtMostOneIndex p.
Proof.
  unfold p_line. intros ([l r] & Hl%p_items_indices & [= <- <-])%bind_Ok.
  constructor. apply Forall_app. split; [done|]. repeat constructor.
Qed.

Lemma p_lines_indices fuel ts p rest :
  p_lines input fuel ts = Ok (p, rest) → AtMostOneIndex p.
Proof.
  unfold p_lines. intros ([p1 r] & Hp1%p_line_indices & Hr)%bind_Ok.
  destruct r as [|t r]; [by injection Hr as <- <-|].
  destruct (tok_type t); try (by injection Hr as <- <-);
    (destruct r as [|t' r]; [done|]);
    (destruct (tok_type t'); try done);
    apply bind_Ok in Hr as ([p4 r4] & Hp4%p_line_indices & [= <- <-]);
    by constructor.
Qed.

Lemma p_main_indices fuel : ∀ ts items,
  p_main input fuel ts = Ok items → Forall AtMostOneIndex items.
Proof.
  induction fuel as [|fuel IH]; intros ts items; simpl; [done|].
  intros ([p1 r] & Hp1%p_lines_indices & Hr)%bind_Ok.
  destruct r as [|t r]; [by injection Hr as <-; repeat constructor|].
  destruct (tok_type t); try done.
  apply bind_Ok in Hr as (l & Hl%IH & [= <-]). by constructor.
Qed.

(** X11.  No item of a tree that the parser returns has two indices or
    more: one subscript gives one index, and a subscript list with a
    comma, for which the action of [p_exprs] assigns nothing, gives
    [None]. *)
Theorem parse_indices (ts : list LexToken) (node : ParserNode) :
  parse input ts = Ok node → AtMostOneIndex node.
Proof.
  unfold parse. intros (items & Hitems%p_main_indices & [= <-])%bind_Ok.
  by constructor.
Qed.

End ParserShape.

(** *** The errors of the parser *)

(** [rest] is what is left of [ts] after at least one token. *)
Definition shorter (rest ts : list LexToken) : Prop :=
  ∃ pre, pre ≠ [] ∧ ts = (pre ++ rest)%list.

Lemma shorter_cons t ts : shorter ts (t :: ts).
Proof. by exists [t]. Qed.

Lemma shorter_trans r1 r2 ts : shorter r1 r2 → shorter r2 ts → shorter r1 ts.
Proof.
  intros (p1 & Hp1 & ->) (p2 & Hp2 & ->). exists (p2 ++ p1)%list.
  split; [by destruct p2|]. by rewrite <- app_assoc.
Qed.

Lemma shorter_tail rest ts : shorter rest ts → shorter (tail rest) ts.
Proof.
  destruct rest as [|t rest]; [done|]. intros H.
  eapply shorter_trans; [apply shorter_cons|done].
Qed.

Lemma shorter_length rest ts : shorter rest ts → (length rest < length ts)%nat.
Proof.
  intros (pre & Hpre & ->). rewrite length_app.
  destruct pre; [done|simpl; lia].
Qed.

Lemma shorter_elem t rest ts : shorter rest ts → t ∈ rest → t ∈ ts.
Proof. intros (pre & _ & ->) Ht. apply elem_of_app. by right. Qed.

Section ParserErrors.
Variable input : text.

(** The exceptions of the parser on the tokens [ts]: [p_error] called
    with one of the tokens, or with [None] -- where reading [t.type]
    fails -- and the failure of the action of [p_items]. *)
Definition parse_exn (ts : list LexToken) (e : exn) : Prop :=
  e = AttributeError
  ∨ ∃ t, t ∈ ts ∧ e = ParserError (tok_type t) (tok_value t) (tok_lineno t)
                        (find_column input (tok_lexpos t)).

Definition parsed {A : Type} (ts : list LexToken)
    (r : outcome (A * list LexToken)) : Prop :=
  match r with
  | Ok (_, rest) => shorter rest ts
  | Raise e => parse_exn ts e
  end.

Lemma parse_exn_shorter rest ts e :
  shorter rest ts → parse_exn rest e → parse_exn ts e.
Proof.
  intros Hs [->|(t & Ht & ->)]; [by left|]. right. exists t.
  split; [by eapply shorter_elem|done].
Qed.

Lemma parsed_shorter {A : Type} rest ts (r : outcome (A * list LexToken)) :
  shorter rest ts → parsed rest r → parsed ts r.
Proof.
  intros Hs. destruct r as [[a r]|e]; simpl.
  - intros Hr. by eapply shorter_trans.
  - by apply parse_exn_shorter.
Qed.

Lemma parsed_bind {A B : Type} ts (m : outcome (A * list LexToken))
    (k : A * list LexToken → outcome (B * list LexToken)) :
  parsed ts m →
  (∀ a rest, shorter rest ts → parsed ts (k (a, rest))) →
  parsed ts (m ≫= k).
Proof. destruct m as [[a rest]|e]; simpl; auto. Qed.

Lemma parsed_error {A : Type} t ts :
  t ∈ ts → parsed (A := A) ts (Raise (p_error input (Some t))).
Proof. intros Ht. right. by exists t. Qed.

Lemma parsed_eof {A : Type} ts : parsed (A := A) ts (Raise (p_error input None)).
Proof. by left. Qed.

Lemma p_expr_parsed n : ∀ ts,
  (length ts ≤ n)%nat → parsed ts (p_expr input ts).
Proof.
  induction n as [|n IH]; intros [|t1 ts1] Hn; simpl in Hn;
    try lia; try apply parsed_eof.
  assert (t1 ∈ t1 :: ts1) as Ht1 by left.
  assert (parsed (t1 :: ts1)
            (match ts1 with
             | t2 :: ts2 =>
                 if is_binop t2 then
                   '(e, rest) ← p_expr input ts2;
                   Ok (tok_value t1 ++ " " ++ tok_value t2 ++ " " ++ e, rest)
                 else
                   match tok_type t1, tok_type t2 with
                   | NUMBER, IDENT =>
                       Ok (tok_value t1 ++ " * " ++ tok_value t2, ts2)
                   | _, _ => Ok (tok_value t1, ts1)
                   end
             | [] => Ok (tok_value t1, ts1)
             end)) as Hbody.
  { destruct ts1 as [|t2 ts2]; [apply shorter_cons|].
    assert (shorter ts2 (t1 :: t2 :: ts2)) as Hs2 by (by exists [t1; t2]).
    destruct (is_binop t2).
    - apply parsed_bind.
      + eapply parsed_shorter; [done|]. apply IH. simpl in Hn. lia.
      + intros e rest Hs. exact Hs.
    - destruct (tok_type t1), (tok_type t2);
        first [exact Hs2|apply shorter_cons]. }
  simpl. destruct (tok_type t1) eqn:Hty;
    try (right; exists t1; split; [done|by rewrite Hty]);
    destruct ts1; exact Hbody.
Qed.

Ltac token_error t Hty :=
  right; exists t; split; [done|first [reflexivity|by rewrite ?Hty]].

Lemma p_exprs_parsed fuel : ∀ ts,
  (length ts < fuel)%nat → parsed ts (p_exprs input fuel ts).
Proof.
  induction fuel as [|fuel IH]; intros ts Hlen; [lia|]. cbn [p_exprs].
  apply parsed_bind; [by eapply p_expr_parsed|].
  intros e [|t rest'] Hs; cbn beta iota; [apply parsed_eof|].
  assert (t ∈ ts) as Ht by (eapply shorter_elem; [eassumption|left]).
  assert (shorter rest' ts) as Hs'
    by (eapply shorter_trans; [apply shorter_cons|done]).
  apply shorter_length in Hs' as Hlen'.
  destruct (tok_type t) eqn:Hty;
    first [ token_error t Hty | exact Hs | idtac ].
  apply parsed_bind.
  - eapply (parsed_shorter rest'); [exact Hs'|]. apply IH. lia.
  - intros o rest'' Hs''. exact Hs''.
Qed.

Lemma p_item_parsed fuel ts :
  (length ts < fuel + 3)%nat → parsed ts (p_item input fuel ts).
Proof.
  intros Hlen. unfold p_item.
  destruct ts as [|t1 ts1]; [apply parsed_eof|].
  assert (t1 ∈ t1 :: ts1) as Ht1 by left.
  destruct (tok_type t1) eqn:Hty1; try token_error t1 Hty1.
  destruct ts1 as [|t2 ts2]; [apply shorter_cons|].
  destruct (tok_type t2) eqn:Hty2; try apply shorter_cons.
  destruct ts2 as [|t3 ts3]; [apply parsed_eof|].
  assert (t3 ∈ t1 :: t2 :: t3 :: ts3) as Ht3 by (do 2 right; left).
  assert (shorter ts3 (t1 :: t2 :: t3 :: ts3)) as Hs3
    by (by exists [t1; t2; t3]).
  destruct (tok_type t3) eqn:Hty3;
    first [ token_error t3 Hty3 | exact Hs3 | idtac ].
  apply parsed_bind.
  - eapply (parsed_shorter ts3); [exact Hs3|]. apply p_exprs_parsed.
    simpl in Hlen. lia.
  - intros indices rest Hs. by apply shorter_tail.
Qed.

Lemma p_items_parsed fuel : ∀ ts,
  (length ts < fuel)%nat → parsed ts (p_items input fuel ts).
Proof.
  induction fuel as [|fuel IH]; intros ts Hlen; [lia|]. cbn [p_items].
  apply parsed_bind; [apply p_item_parsed; lia|].
  intros p1 [|t rest'] Hs; cbn beta iota; [apply parsed_eof|].
  assert (t ∈ ts) as Ht by (eapply shorter_elem; [eassumption|left]).
  assert (shorter rest' ts) as Hs'
    by (eapply shorter_trans; [apply shorter_cons|done]).
  apply shorter_length in Hs as Hl. apply shorter_length in Hs' as Hl'.
  simpl in Hl.
  destruct (tok_type t) eqn:Hty;
    first [ token_error t Hty | exact Hs | idtac ].
  - apply parsed_bind.
    + eapply (parsed_shorter (t :: rest')); [exact Hs|]. apply IH. simpl. lia.
    + intros l rest2 Hs2. exact Hs2.
  - apply parsed_bind.
    + eapply (parsed_shorter rest'); [exact Hs'|]. apply p_item_parsed. lia.
    + intros p3 [|t' rest3] Hs3; cbn beta iota; [apply parsed_eof|].
      assert (t' ∈ ts) as Ht' by (eapply shorter_elem; [exact Hs3|left]).
      apply shorter_length in Hs3 as Hl3. simpl in Hl3.
      destruct (tok_type t') eqn:Hty';
        first [ token_error t' Hty' | exact Hs3 | idtac ].
      apply parsed_bind.
      * eapply (parsed_shorter (t' :: rest3)); [exact Hs3|].
        apply IH. simpl. lia.
      * intros l r _. by left.
Qed.

Lemma p_line_parsed fuel ts :
  (length ts < fuel)%nat → parsed ts (p_line input fuel ts).
Proof.
  intros Hlen. unfold p_line.
  apply parsed_bind; [by apply p_items_parsed|].
  intros l rest Hs. by apply shorter_tail.
Qed.

Lemma p_lines_parsed fuel ts :
  (length ts < fuel)%nat → parsed ts (p_lines input fuel ts).
Proof.
  intros Hlen. unfold p_lines.
  apply parsed_bind; [by apply p_line_parsed|].
  intros p1 [|t rest'] Hs; cbn beta iota; [exact Hs|].
  assert (shorter rest' ts) as Hs'
    by (eapply shorter_trans; [apply shorter_cons|done]).
  assert (parsed ts
            (match rest' with
             | [] => Raise (p_error input None)
             | t' :: rest'' =>
                 match tok_type t' with
                 | NEWLINE =>
                     '(p4, rest4) ← p_line input fuel rest'';
                     Ok (DotsParserNode p1 p4, rest4)
                 | _ => Raise (p_error input (Some t'))
                 end
             end : outcome (ParserNode * list LexToken))) as Hdots.
  { destruct rest' as [|t' rest'']; [apply parsed_eof|].
    assert (t' ∈ ts) as Ht' by (eapply shorter_elem; [done|left]).
    assert (shorter rest'' ts) as Hs''
      by (eapply shorter_trans; [apply shorter_cons|done]).
    apply shorter_length in Hs'' as Hl''.
    destruct (tok_type t') eqn:Hty'; try token_error t' Hty'.
    apply parsed_bind.
    - eapply (parsed_shorter rest''); [exact Hs''|]. apply p_line_parsed. lia.
    - intros p4 rest4 Hs4. exact Hs4. }
  destruct (tok_type t); first [exact Hdots|exact Hs].
Qed.

Lemma p_main_raises fuel : ∀ ts e,
  (length ts + 2 ≤ fuel)%nat →
  p_main input fuel ts = Raise e → parse_exn ts e.
Proof.
  induction fuel as [|fuel IH]; intros ts e Hlen; [lia|]. cbn [p_main].
  pose proof (p_lines_parsed fuel ts ltac:(lia)) as Hp.
  destruct (p_lines input fuel ts) as [[p1 rest]|e']; simpl in *;
    [|by intros [= <-]].
  destruct rest as [|t rest']; [done|].
  assert (t ∈ ts) as Ht by (eapply shorter_elem; [eassumption|left]).
  apply shorter_length in Hp as Hl. simpl in Hl.
  destruct (tok_type t) eqn:Hty;
    try (intros [= <-]; token_error t Hty).
  intros [He|(l & _ & [=])]%bind_Raise.
  eapply (parse_exn_shorter (t :: rest')); [exact Hp|].
  apply (IH (t :: rest') e); [simpl; lia|exact He].
Qed.

(** X12.  On every list of tokens the parser stops: it returns a tree,
    or raises the [ParserError] that [p_error] makes for one of the
    tokens -- with the type, the value and the line of that token, and
    the column that [find_column] gives for its position --, or raises
    [AttributeError]: where the tokens end too early [p_error] is
    called with [None], and the action of the rule [item DOTS item
    items] reads [.items] of a string. *)
Theorem parse_raises (ts : list LexToken) (e : exn) :
  parse input ts = Raise e →
  e = AttributeError
  ∨ ∃ t, t ∈ ts
         ∧ e = ParserError (tok_type t) (tok_value t) (tok_lineno t)
                 (find_column input (tok_lexpos t)).
Proof.
  unfold parse. intros [He|(l & _ & [=])]%bind_Raise.
  apply (p_main_raises (S (S (length ts))) ts e); [lia|exact He].
Qed.

End ParserErrors.

End YaccFacts.

(** ** The exceptions of [run] *)

Section RunFacts.
Context `{Engine}.

(** X13.  From the normalised format string on, [run] stops on every
    input: it returns a tree or raises a [LexerError], a [ParserError],
    the [AttributeError] of the parser, or one of the four exceptions
    of [analyze]. *)
Theorem run_raises (pre : text) (e : exn) :
  run pre = Raise e →
  (∃ c line column, e = LexerError c line column)
  ∨ (∃ ty value line column, e = ParserError ty value line column)
  ∨ e = AttributeError
  ∨ e = SyntaxError ∨ e = EngineError ∨ e = TypeError
  ∨ e = AssertionError.
Proof.
  unfold run. intros [Hlex|(toks & _ & Hrun)]%bind_Raise.
  { pose proof (LexFacts.tokens_from_lexed (length pre) 1 0 pre
                  ltac:(lia)) as Hl.
    unfold Lex.tokenize in Hlex. rewrite Hlex in Hl.
    destruct e; try done. left. eauto. }
  apply bind_Raise in Hrun as [Hparse|(parsed & _ & Hana)].
  { unfold Yacc.parse in Hparse.
    apply bind_Raise in Hparse as [He|(l & _ & [=])].
    destruct (YaccFacts.p_main_raises pre (S (S (length toks))) toks e
                ltac:(lia) He) as [->|(t & _ & ->)].
    - auto.
    - right. left. eauto. }
  apply analyze_raises_only in Hana.
  destruct Hana as [->|[->|[->| ->]]]; auto 10.
Qed.

End RunFacts.

(** ** Instances of the general theorems *)

Section Witnesses.
Import Sympy.




Definition line_N : FormatNode :=
  SequenceNode [ItemNode "A" ["N"]; ItemNode "B" ["N - 1"]; NewlineNode].




(** The cause that is a difference of lengths only: [A_1] against
    [A_N B] are two sequences of different lengths.  Unification raises [SyntaxError], though no two
    items differ in name or arity, no two nodes differ in kind, there is
    no loop, the one position varies, and one position cannot imply two
    trip counts. *)
Lemma unify_length_counterexample :
  let a := SequenceNode [ItemNode "A" ["1"]] in
  let b := SequenceNode [ItemNode "A" ["N"]; ItemNode "B" []] in
  @unify engine a b "i" = Raise SyntaxError
  ∧ ¬ (Mismatch false a b ∨ StridesDiffer a b ∨ NoneVaries a b).
Proof.
  split; [reflexivity|]. intros [Hm|[Hs|Hn]].
  - inversion Hm as [| |? ? Hk| |? ? ? Hl|i x y ? ? Hx Hy Hxy|]; subst;
      [by apply Hk|discriminate|].
    destruct i as [|i]; [|done]. simpl in Hx, Hy.
    injection Hx as <-. injection Hy as <-.
    inversion Hxy as [? ? ? ? Hne|? ? ? ? Hne|? ? Hne| | | |]; subst;
      by apply Hne.
  - destruct Hs as (p & q & Hp & Hq & _ & _ & Hne).
    apply Hne. simpl in Hp, Hq.
    apply list_elem_of_singleton in Hp, Hq. by subst.
  - apply (Hn ("1", "N")); [by constructor|]. by vm_compute.
Qed.

(** The pair [A_i ... A_N]: the counter is ["i"], the letter of the
    first index, and the trip count [N - i + 1] mentions it. *)
Definition dots_A_i_A_N : ParserNode :=
  DotsParserNode (ItemParserNode "A" (Some ["i"]))
    (ItemParserNode "A" (Some ["N"])).
Definition loop_A_i : FormatNode :=
  LoopNode "N - i + 1" "i" (ItemNode "A" ["2*i"]).

Lemma analyze_size_mentions_witness :
  @analyze engine dots_A_i_A_N = Ok loop_A_i
  ∧ mentions "i" "N - i + 1" = true
  ∧ LoopsSatisfy
      (λ size name, mentions name size = true →
         ∃ c, name = String c EmptyString
              ∧ ∃ s, s ∈ parser_indices dots_A_i_A_N ∧ occurs c s)
      loop_A_i.
Proof.
  split; [reflexivity|]. split; [reflexivity|].
  exact (@analyze_size_mentions engine SympyFacts.parse_expr_letters
           dots_A_i_A_N loop_A_i eq_refl).
Defined.

Lemma analyze_raises_witness :
  @analyze engine (ItemParserNode "A" None) = Raise TypeError
  ∧ (TypeError = SyntaxError ∨ TypeError = EngineError
     ∨ TypeError = TypeError ∨ TypeError = AssertionError).
Proof.
  split; [reflexivity|].
  exact (@analyze_raises engine (ItemParserNode "A" None) TypeError eq_refl).
Defined.

(** Two lines without dots: [N] and [A B]. *)
Definition lines_N_A_B : ParserNode :=
  SequenceParserNode
    [ SequenceParserNode [ItemParserNode "N" (Some []); NewlineParserNode];
      SequenceParserNode [ItemParserNode "A" (Some []);
                          ItemParserNode "B" (Some []); NewlineParserNode] ].
Definition items_N_A_B : FormatNode :=
  SequenceNode [ItemNode "N" []; NewlineNode;
                ItemNode "A" []; ItemNode "B" []; NewlineNode].

Lemma NoDots_lines_N_A_B : NoDots lines_N_A_B.
Proof. repeat constructor. Defined.

Lemma analyze_normal_form_witness :
  @analyze engine lines_N_A_B = Ok items_N_A_B ∧ Normal items_N_A_B.
Proof.
  split; [reflexivity|].
  exact (@analyze_normal_form engine lines_N_A_B items_N_A_B eq_refl).
Defined.

Lemma analyze_no_dots_no_loops_witness :
  NoDots lines_N_A_B ∧ @analyze engine lines_N_A_B = Ok items_N_A_B
  ∧ NoLoops items_N_A_B.
Proof.
  split; [exact NoDots_lines_N_A_B|]. split; [reflexivity|].
  exact (@analyze_no_dots_no_loops engine lines_N_A_B items_N_A_B
           NoDots_lines_N_A_B eq_refl).
Defined.


Lemma zip_nodes_same_names_witness :
  @zip_nodes engine (ItemNode "A" ["1"]) (ItemNode "A" ["N"]) "i" None
  = Ok (ItemNode "A" ["i + 1"], Some "N")
  ∧ list_used_names (ItemNode "A" ["N"]) = list_used_names (ItemNode "A" ["1"])
  ∧ list_used_names (ItemNode "A" ["i + 1"])
    = list_used_names (ItemNode "A" ["1"]).
Proof.
  split; [reflexivity|].
  exact (@zip_nodes_same_names engine (ItemNode "A" ["1"])
           (ItemNode "A" ["N"]) (ItemNode "A" ["i + 1"]) "i" None (Some "N")
           eq_refl).
Defined.

(** The text of two lines, [N] and [A], and its four tokens. *)
Definition text_N_A : text :=
  text_of_string ("N" ++ newline ++ "A" ++ newline).
Definition tokens_N_A : list LexToken :=
  [ mkToken IDENT "N" 1 0; mkToken NEWLINE newline 1 1;
    mkToken IDENT "A" 2 2; mkToken NEWLINE newline 2 3 ].

Lemma tokenize_positions_witness :
  Lex.tokenize text_N_A = Ok tokens_N_A
  ∧ Forall (λ t, ∃ k : nat,
              (k < length text_N_A)%nat ∧ tok_lexpos t = Z.of_nat k
              ∧ tok_lineno t
                = (1 + Z.of_nat (LexFacts.count_newlines (take k text_N_A)))%Z)
      tokens_N_A
  ∧ LexFacts.increasing 0 tokens_N_A.
Proof.
  split; [reflexivity|].
  exact (LexFacts.tokenize_positions text_N_A tokens_N_A eq_refl).
Defined.

(** The text [N M / A ? B]: the [?] is at offset 6, in line 2. *)
Definition text_N_M_A_B : text :=
  text_of_string ("N M" ++ newline ++ "A ? B" ++ newline).

Lemma tokenize_error_witness :
  Lex.tokenize text_N_M_A_B = Raise (LexerError 63 2 6)
  ∧ ∃ (c : N) (k : nat),
      text_N_M_A_B !! k = Some c
      ∧ LexerError 63 2 6
        = LexerError c
            (1 + Z.of_nat (LexFacts.count_newlines (take k text_N_M_A_B)))
            (Z.of_nat k).
Proof.
  split; [reflexivity|].
  exact (LexFacts.tokenize_error text_N_M_A_B (LexerError 63 2 6) eq_refl).
Defined.

(** The text [A_{i,j}] and a line break: the subscript list gives the
    item no indices. *)
Definition text_A_i_j : text := text_of_string ("A_{i,j}" ++ newline).
Definition tokens_A_i_j : list LexToken :=
  [ mkToken IDENT "A" 1 0; mkToken UNDERSCORE "_" 1 1;
    mkToken LBRACE "{" 1 2; mkToken IDENT "i" 1 3; mkToken COMMA "," 1 4;
    mkToken IDENT "j" 1 5; mkToken RBRACE "}" 1 6;
    mkToken NEWLINE newline 1 7 ].
Definition tree_A_i_j : ParserNode :=
  SequenceParserNode
    [SequenceParserNode [ItemParserNode "A" None; NewlineParserNode]].

Lemma parse_indices_witness :
  Lex.tokenize text_A_i_j = Ok tokens_A_i_j
  ∧ Yacc.parse text_A_i_j tokens_A_i_j = Ok tree_A_i_j
  ∧ YaccFacts.AtMostOneIndex tree_A_i_j.
Proof.
  split; [reflexivity|]. split; [reflexivity|].
  exact (YaccFacts.parse_indices text_A_i_j tokens_A_i_j tree_A_i_j eq_refl).
Defined.

(** The text that is one line break, and its one token. *)
Definition text_newline : text := text_of_string newline.
Definition token_newline : LexToken := mkToken NEWLINE newline 1 0.

Lemma parse_raises_witness :
  Lex.tokenize text_newline = Ok [token_newline]
  ∧ Yacc.parse text_newline [token_newline]
    = Raise (ParserError NEWLINE newline 1 1)
  ∧ (ParserError NEWLINE newline 1 1 = AttributeError
     ∨ ∃ t, t ∈ [token_newline]
            ∧ ParserError NEWLINE newline 1 1
              = ParserError (tok_type t) (tok_value t) (tok_lineno t)
                  (Yacc.find_column text_newline (tok_lexpos t))).
Proof.
  split; [reflexivity|]. split; [reflexivity|].
  exact (YaccFacts.parse_raises text_newline [token_newline]
           (ParserError NEWLINE newline 1 1) eq_refl).
Defined.

Lemma run_raises_witness :
  @run engine text_newline = Raise (ParserError NEWLINE newline 1 1)
  ∧ ((∃ c line column, ParserError NEWLINE newline 1 1
                       = LexerError c line column)
     ∨ (∃ ty value line column,
          ParserError NEWLINE newline 1 1
          = ParserError ty value line column)
     ∨ ParserError NEWLINE newline 1 1 = AttributeError
     ∨ ParserError NEWLINE newline 1 1 = SyntaxError
     ∨ ParserError NEWLINE newline 1 1 = EngineError
     ∨ ParserError NEWLINE newline 1 1 = TypeError
     ∨ ParserError NEWLINE newline 1 1 = AssertionError).
Proof.
  split; [reflexivity|].
  exact (@run_raises engine text_newline
           (ParserError NEWLINE newline 1 1) eq_refl).
Defined.

Lemma zip_nodes_same_witness :
  Forall (λ i, is_Some (parse_expr i)) (all_indices line_N)
  ∧ @zip_nodes engine line_N line_N "i" None = Ok (line_N, None)
  ∧ @unify engine line_N line_N "i" = Raise SyntaxError.
Proof.
  assert (Forall (λ i, is_Some (parse_expr i)) (all_indices line_N)) as Hall
    by (repeat constructor; by eexists).
  split; [exact Hall|].
  exact (@zip_nodes_same engine line_N "i" None Hall).
Defined.

Lemma analyze_plain_format_witness :
  NoDots lines_N_A_B ∧ @analyze engine lines_N_A_B = Ok items_N_A_B
  ∧ @analyze_list engine (parser_leaves lines_N_A_B)
    = Ok (flat_items items_N_A_B).
Proof.
  split; [exact NoDots_lines_N_A_B|]. split; [reflexivity|].
  exact (@analyze_plain_format engine lines_N_A_B items_N_A_B
           NoDots_lines_N_A_B eq_refl).
Defined.

(** The lines [i_1 j_1] and [i_N j_N] of a vertical dots pair: ["i"]
    and ["j"] are in scope, and the counter is ["k"]. *)
Definition line_i_j_1 : ParserNode :=
  SequenceParserNode [ItemParserNode "i" (Some ["1"]);
                      ItemParserNode "j" (Some ["1"]); NewlineParserNode].
Definition line_i_j_N : ParserNode :=
  SequenceParserNode [ItemParserNode "i" (Some ["N"]);
                      ItemParserNode "j" (Some ["N"]); NewlineParserNode].
Definition items_i_j_1 : FormatNode :=
  SequenceNode [ItemNode "i" ["1"]; ItemNode "j" ["1"]; NewlineNode].
Definition items_i_j_N : FormatNode :=
  SequenceNode [ItemNode "i" ["N"]; ItemNode "j" ["N"]; NewlineNode].
Definition loop_i_j : FormatNode :=
  LoopNode "N" "k"
    (SequenceNode [ItemNode "i" ["k + 1"]; ItemNode "j" ["k + 1"];
                   NewlineNode]).

Lemma analyze_counter_fresh_witness :
  @analyze engine line_i_j_1 = Ok items_i_j_1
  ∧ @analyze engine line_i_j_N = Ok items_i_j_N
  ∧ @analyze engine (DotsParserNode line_i_j_1 line_i_j_N) = Ok loop_i_j
  ∧ counter_name 15 = "k"
  ∧ (let used := list_used_names items_i_j_1 ∪ list_used_names items_i_j_N in
     (((∀ k, (k ≤ 17)%nat → counter_name k ∈ used)
       ∧ @analyze engine (DotsParserNode line_i_j_1 line_i_j_N)
         = Raise AssertionError)
      ∨ (∃ k, (k ≤ 17)%nat ∧ (counter_name k ∉ used)
              ∧ (∀ k', (k < k' ≤ 17)%nat → counter_name k' ∈ used)
              ∧ @analyze engine (DotsParserNode line_i_j_1 line_i_j_N)
                = unify items_i_j_1 items_i_j_N (counter_name k)
              ∧ (∀ t, @analyze engine (DotsParserNode line_i_j_1 line_i_j_N)
                      = Ok t →
                      ∃ size body,
                        t = LoopNode size (counter_name k) body
                        ∧ counter_name k ∉ list_used_names body)
              ∧ ("i" ∈ used → "j" ∈ used →
                 (counter_name k ≠ "i") ∧ (counter_name k ≠ "j"))))
     ∧ (∀ node t, @analyze engine node = Ok t → Scoped t)).
Proof.
  do 4 (split; [reflexivity|]).
  exact (@analyze_counter_fresh engine line_i_j_1 line_i_j_N
           items_i_j_1 items_i_j_N eq_refl eq_refl).
Defined.

(** C6 as the claim words it.  In [i j A_1 ... A_N] the items ["i"] and
    ["j"] stand outside the dots pair, whose operands use the name
    ["A"] only: the counter of the loop is ["i"], the name of an item
    of the tree. *)
Lemma counter_item_name_counterexample :
  let t := SequenceNode [ItemNode "i" []; ItemNode "j" [];
                         LoopNode "N" "i" (ItemNode "A" ["i + 1"]);
                         NewlineNode] in
  @run engine (text_of_string ("i j A_1 ... A_N" ++ newline)) = Ok t
  ∧ "i" ∈ item_names t ∧ "j" ∈ item_names t
  ∧ ¬ CountersAvoidItems t.
Proof.
  split; [by vm_compute|].
  assert ("i" ∈ item_names
            (SequenceNode [ItemNode "i" []; ItemNode "j" [];
                           LoopNode "N" "i" (ItemNode "A" ["i + 1"]);
                           NewlineNode])) as Hi.
  { simpl. apply elem_of_union_l. by apply elem_of_singleton. }
  split; [exact Hi|]. split.
  { simpl. apply elem_of_union_r, elem_of_union_l. by apply elem_of_singleton. }
  unfold CountersAvoidItems. inversion 1 as [| |? Hitems|]; subst.
  apply Forall_cons in Hitems as [_ Hitems].
  apply Forall_cons in Hitems as [_ Hitems].
  apply Forall_cons in Hitems as [Hloop _].
  inversion Hloop as [| | |? ? ? Hfresh _]; subst. by apply Hfresh.
Qed.

End Witnesses.
